(** * nearestNeighbor.js: quadtree nearest-element search

    A shallow embedding of [src/nearestNeighbor.js] (the jQuery
    [nearestElement] plugin) and the properties of its geometry, its tree
    builder and its two query modes.

    Modelling choices.
    - JavaScript numbers are modelled by the real numbers [R]; the values
      a distance variable can hold ([undefined], [null], a number,
      [Number.POSITIVE_INFINITY]) are the type [jsnum], compared with
      JavaScript's [<] ([js_lt]).  Rounding is not modelled: the properties
      proved of distances are comparisons and bounds, which rounding to
      the nearest double keeps at the magnitudes of a page; none rests on
      an identity between sums of square roots.
    - A [Node] is owned by exactly one parent slot, so the tree is an
      inductive value; [null] is one of its constructors.
    - An [Element] object is shared between the bucket that stores it and
      the [best] variable of a search.  Its [element] and [rectangle]
      properties are written once by the constructor and are carried by
      value together with the identity [eid] of the object; its [distance]
      property is written by every search and lives in a store indexed by
      [eid], so that aliasing is visible.
    - For what a search leaves of the objects it is given, the same search
      is also written on the object graph itself ([objects]): a heap of
      [Node] and [Element] objects with all their properties, in which the
      tree value is laid out.
    - [addElement] recurses without a bound; it is given a fuel that stands
      for the depth of the call stack.
    - A jQuery set is the list of its elements.  [buildTree] and [find]
      take the size of the document as arguments, and the ['root'] data of
      the set as a value that [find] is given and gives back; the plugin
      hook, which dispatches on a property name, is left out. *)

From Stdlib Require Import Reals Lra Lia.
From stdpp Require Import base option list gmap.

Open Scope R_scope.

(** ** Numbers *)

#[global] Instance Rlt_decision : RelDecision Rlt := Rlt_dec.
#[global] Instance Rle_decision : RelDecision Rle := Rle_dec.
#[global] Instance Rgt_decision : RelDecision Rgt := Rgt_dec.
#[global] Instance Rge_decision : RelDecision Rge := Rge_dec.

Declare Scope js_scope.
Delimit Scope js_scope with js.
Notation "a <? b" := (bool_decide (Rlt a b)) (at level 70, no associativity) : js_scope.
Notation "a <=? b" := (bool_decide (Rle a b)) (at level 70, no associativity) : js_scope.
Notation "a >? b" := (bool_decide (Rgt a b)) (at level 70, no associativity) : js_scope.
Notation "a >=? b" := (bool_decide (Rge a b)) (at level 70, no associativity) : js_scope.
Open Scope js_scope.

(** The values held by [d], [min], [min_dist] and the [distance] property. *)
Inductive jsnum : Type :=
  | Undefined
  | Null
  | Num (r : R)
  | PosInf.

(** [a < b] on those values: [undefined] converts to NaN and every
    comparison with it is false, [null] converts to [0]. *)
Definition js_lt (a b : jsnum) : bool :=
  match a, b with
  | Undefined, _ | _, Undefined => false
  | PosInf, _ => false
  | _, PosInf => true
  | Null, Null => false
  | Null, Num s => 0 <? s
  | Num r, Null => r <? 0
  | Num r, Num s => r <? s
  end.

(** ** Objects *)

(** [function Rectangle(top, left, bottom, right)] *)
Record Rectangle : Type := mkRectangle {
  top : R;
  left : R;
  bottom : R;
  right : R
}.

(** What the plugin reads of a jQuery element: its identity and the results
    of [position()], [innerWidth()] and [innerHeight()]. *)
Record JQuery : Type := mkJQuery {
  dom : nat;
  position_left : R;
  position_top : R;
  innerWidth : R;
  innerHeight : R
}.

(** [function Element(element)]: [eid] is the identity of the object, the
    [distance] property is kept in the store. *)
Record Element : Type := mkElement {
  eid : nat;
  element : JQuery;
  elem_rectangle : Rectangle
}.

(** [function Node(rectangle)], or [null]. *)
Inductive Node : Type :=
  | null
  | mkNode (rectangle : Rectangle) (distance : jsnum) (elements : list Element)
           (nw ne sw se : Node).

(** [new Node(rectangle)] *)
Definition new_Node (rectangle : Rectangle) : Node :=
  mkNode rectangle PosInf [] null null null null.

(** The objects the variable [best] of [nearestNeighbor] refers to: the
    [new Node()] made when no best is passed, or an [Element] of a bucket. *)
Inductive Best : Type :=
  | FreshNode
  | BElem (e : Element).

(** The [distance] properties of the [Element] objects, by identity; an
    object that has no such property yet is absent from the map. *)
Abbreviation Store := (gmap nat jsnum).

Definition elem_distance (σ : Store) (e : Element) : jsnum :=
  default Undefined (σ !! eid e).

(** [best.distance] *)
Definition best_distance (σ : Store) (b : Best) : jsnum :=
  match b with
  | FreshNode => PosInf
  | BElem e => elem_distance σ e
  end.

(** ** Outcomes and the monad of the stateful functions

    A call returns, throws the [TypeError] of a property read on [null], or
    exhausts the call stack. *)
Inductive outcome (A : Type) : Type :=
  | Returns (a : A)
  | TypeError
  | StackOverflow.
Arguments Returns {A} a.
Arguments TypeError {A}.
Arguments StackOverflow {A}.

Definition M (A : Type) : Type := Store -> outcome (A * Store).

#[global] Instance M_ret : MRet M := fun A a σ => Returns (a, σ).
#[global] Instance M_bind : MBind M := fun A B k m σ =>
  match m σ with
  | Returns (a, σ') => k a σ'
  | TypeError => TypeError
  | StackOverflow => StackOverflow
  end.

(** [best.distance], where [best] may be [null] *)
Definition get_distance (b : option Best) : M jsnum := fun σ =>
  match b with
  | Some b => Returns (best_distance σ b, σ)
  | None => TypeError
  end.

(** [e.distance = d] *)
Definition set_distance (e : Element) (d : jsnum) : M unit := fun σ =>
  Returns (tt, <[eid e := d]> σ).

Inductive Quadrant : Type := NW | NE | SW | SE.

#[global] Instance Quadrant_eq_dec : EqDecision Quadrant.
Proof. solve_decision. Defined.

Module nn.

(** [pythagoreanDistance: function (x0, y0, x1, y1)] *)
Definition pythagoreanDistance (x0 y0 x1 y1 : R) : R :=
  let a := y1 - y0 in
  let b := x1 - x0 in
  sqrt (a * a + b * b).

(** [boundingBox: function ($elem)] *)
Definition boundingBox (elem : JQuery) : Rectangle :=
  let l := position_left elem in
  let t := position_top elem in
  {| left := l; right := l + innerWidth elem;
     top := t; bottom := t + innerHeight elem |}.

(** [distanceToRectangle: function (rect, x, y)].  [d] starts as [null] and
    the chain of tests has no final [else]. *)
Definition distanceToRectangle (rect : Rectangle) (x y : R) : jsnum :=
  if (x >=? left rect) && (x <=? right rect) then
    Num (Rmin (Rabs (y - bottom rect)) (Rabs (top rect - y)))
  else if (y >=? top rect) && (y <=? bottom rect) then
    Num (Rmin (Rabs (x - right rect)) (Rabs (left rect - x)))
  else if (y >=? bottom rect) && (x >=? right rect) then
    Num (pythagoreanDistance x y (right rect) (bottom rect))
  else if (y >=? bottom rect) && (x <=? left rect) then
    Num (pythagoreanDistance x y (left rect) (bottom rect))
  else if (y <=? top rect) && (x >=? right rect) then
    Num (pythagoreanDistance x y (right rect) (top rect))
  else if (y <=? top rect) && (x <=? left rect) then
    Num (pythagoreanDistance x y (left rect) (top rect))
  else Null.

(** [getQuadrant: function (rectangle, quadrant)] *)
Definition getQuadrant (rectangle : Rectangle) (quadrant : Quadrant) : Rectangle :=
  match quadrant with
  | NW => {| left := left rectangle;
             right := left rectangle + (right rectangle - left rectangle) / 2;
             top := top rectangle;
             bottom := top rectangle + (bottom rectangle - top rectangle) / 2 |}
  | NE => {| left := left rectangle + (right rectangle - left rectangle) / 2;
             right := right rectangle;
             top := top rectangle;
             bottom := top rectangle + (bottom rectangle - top rectangle) / 2 |}
  | SW => {| left := left rectangle;
             right := left rectangle + (right rectangle - left rectangle) / 2;
             top := top rectangle + (bottom rectangle - top rectangle) / 2;
             bottom := bottom rectangle |}
  | SE => {| left := left rectangle + (right rectangle - left rectangle) / 2;
             right := right rectangle;
             top := top rectangle + (bottom rectangle - top rectangle) / 2;
             bottom := bottom rectangle |}
  end.

(** [quadWithPoint: function (rectangle, x, y)]; [None] is the [null] that
    [quad] starts with. *)
Definition quadWithPoint (rectangle : Rectangle) (x y : R) : option Quadrant :=
  let nw := getQuadrant rectangle NW in
  if (x <=? right nw) && (y <=? bottom nw) then Some NW
  else if (x >? right nw) && (y <=? bottom nw) then Some NE
  else if (x <=? right nw) && (y >? bottom nw) then Some SW
  else if (x >? right nw) && (y >? bottom nw) then Some SE
  else None.

(** [addElement: function(node, element)].  The updated node is returned
    in place of the mutation of [node]; [fuel] bounds the depth of the
    recursion. *)
Fixpoint addElement (fuel : nat) (node : Node) (element : Element) : outcome Node :=
  match fuel with
  | O => StackOverflow
  | S fuel =>
    match node with
    | null => TypeError
    | mkNode boundry distance elements nw ne sw se =>
      let xDiv := left boundry + (right boundry - left boundry) / 2 in
      let yDiv := top boundry + (bottom boundry - top boundry) / 2 in
      let rect := elem_rectangle element in
      if (bottom rect <? yDiv) && (right rect <? xDiv) then
        let nw := match nw with null => new_Node (getQuadrant boundry NW) | _ => nw end in
        match addElement fuel nw element with
        | Returns nw => Returns (mkNode boundry distance elements nw ne sw se)
        | TypeError => TypeError
        | StackOverflow => StackOverflow
        end
      else if (bottom rect <? yDiv) && (left rect >? xDiv) then
        let ne := match ne with null => new_Node (getQuadrant boundry NE) | _ => ne end in
        match addElement fuel ne element with
        | Returns ne => Returns (mkNode boundry distance elements nw ne sw se)
        | TypeError => TypeError
        | StackOverflow => StackOverflow
        end
      else if (top rect >? yDiv) && (right rect <? xDiv) then
        let sw := match sw with null => new_Node (getQuadrant boundry SW) | _ => sw end in
        match addElement fuel sw element with
        | Returns sw => Returns (mkNode boundry distance elements nw ne sw se)
        | TypeError => TypeError
        | StackOverflow => StackOverflow
        end
      else if (top rect >? yDiv) && (left rect >? xDiv) then
        let se := match se with null => new_Node (getQuadrant boundry SE) | _ => se end in
        match addElement fuel se element with
        | Returns se => Returns (mkNode boundry distance elements nw ne sw se)
        | TypeError => TypeError
        | StackOverflow => StackOverflow
        end
      else
        Returns (mkNode boundry distance (elements ++ [element]) nw ne sw se)
    end
  end.

(** The [for] loop of [quadtree]; the [i]-th [new Element] is the object of
    identity [i]. *)
Fixpoint quadtree_loop (fuel : nat) (i : nat) (elements : list JQuery) (root : Node)
  : outcome Node :=
  match elements with
  | [] => Returns root
  | e :: elements =>
    let element := mkElement i e (boundingBox e) in
    match addElement fuel root element with
    | Returns root => quadtree_loop fuel (S i) elements root
    | TypeError => TypeError
    | StackOverflow => StackOverflow
    end
  end.

(** [quadtree: function (elements, rectangle)] *)
Definition quadtree (fuel : nat) (elements : list JQuery) (rectangle : Rectangle)
  : outcome Node :=
  if (length elements =? 0)%nat then Returns null
  else
    let root := new_Node rectangle in
    quadtree_loop fuel 0 elements root.

(** The [for] loop of [getMinDistance], from the values of [min] and [best]
    on entry. *)
Fixpoint getMinDistance_loop (nodes : list Element) (x y : R)
    (min : jsnum) (best : option Element) : M (option Element) :=
  match nodes with
  | [] => mret best
  | n :: nodes =>
    let d := distanceToRectangle (elem_rectangle n) x y in
    _ ← set_distance n d;
    if js_lt d min then getMinDistance_loop nodes x y d (Some n)
    else getMinDistance_loop nodes x y min best
  end.

(** [getMinDistance: function(nodes, x, y)] *)
Definition getMinDistance (nodes : list Element) (x y : R) : M (option Element) :=
  getMinDistance_loop nodes x y PosInf None.

(** [bestInQuad.distance], where [bestInQuad] may be [null] *)
Definition get_elem_distance (e : option Element) : M jsnum := fun σ =>
  match e with
  | Some e => Returns (elem_distance σ e, σ)
  | None => TypeError
  end.

(** [nearestNeighbor: function(quadtree, x, y, best)]; a [best] that is not
    passed, or is [null], is [None]. *)
Fixpoint nearestNeighbor (quadtree : Node) (x y : R) (best : option Best)
  : M (option Best) :=
  match quadtree with
  | null => mret None
  | mkNode rectangle _ elements nw ne sw se =>
    let best := match best with None => Some FreshNode | Some _ => best end in
    best ←
      (if (0 <? length elements)%nat then
         bestInQuad ← getMinDistance elements x y;
         d ← get_elem_distance bestInQuad;
         bd ← get_distance best;
         if js_lt d bd then mret (BElem <$> bestInQuad) else mret best
       else mret best);
    let pointQuad := quadWithPoint rectangle x y in
    best ←
      match nw with
      | null => mret best
      | mkNode r _ _ _ _ _ _ =>
        let quadDistance := distanceToRectangle r x y in
        go ← (if bool_decide (pointQuad = Some NW) then mret true
              else bd ← get_distance best; mret (js_lt quadDistance bd));
        if go : bool then nearestNeighbor nw x y best else mret best
      end;
    best ←
      match ne with
      | null => mret best
      | mkNode r _ _ _ _ _ _ =>
        let quadDistance := distanceToRectangle r x y in
        go ← (if bool_decide (pointQuad = Some NE) then mret true
              else bd ← get_distance best; mret (js_lt quadDistance bd));
        if go : bool then nearestNeighbor ne x y best else mret best
      end;
    best ←
      match sw with
      | null => mret best
      | mkNode r _ _ _ _ _ _ =>
        let quadDistance := distanceToRectangle r x y in
        go ← (if bool_decide (pointQuad = Some SW) then mret true
              else bd ← get_distance best; mret (js_lt quadDistance bd));
        if go : bool then nearestNeighbor sw x y best else mret best
      end;
    best ←
      match se with
      | null => mret best
      | mkNode r _ _ _ _ _ _ =>
        let quadDistance := distanceToRectangle r x y in
        go ← (if bool_decide (pointQuad = Some SE) then mret true
              else bd ← get_distance best; mret (js_lt quadDistance bd));
        if go : bool then nearestNeighbor se x y best else mret best
      end;
    mret best
  end.

(** [documentWindow: function()]; the arguments are what
    [$(document).width()] and [$(document).height()] return. *)
Definition documentWindow (document_width document_height : R) : Rectangle :=
  {| left := 0; top := 0; right := document_width; bottom := document_height |}.

End nn.

(** ** The linear scan *)

Module functions.

(** The [each] loop of [fullScan], from the values of [min_dist] and
    [$closestElem] on entry; it returns both. *)
Fixpoint fullScan_each (this : list JQuery) (x y : R)
    (min_dist : jsnum) (closestElem : option JQuery) : jsnum * option JQuery :=
  match this with
  | [] => (min_dist, closestElem)
  | e :: this =>
    let rect := nn.boundingBox e in
    let dist := nn.distanceToRectangle rect x y in
    if js_lt dist min_dist then fullScan_each this x y dist (Some e)
    else fullScan_each this x y min_dist closestElem
  end.

(** [fullScan: function (x, y)] *)
Definition fullScan (this : list JQuery) (x y : R) : option JQuery :=
  snd (fullScan_each this x y PosInf None).

(** What [find] returns: a jQuery element, [undefined] (the [element]
    property of a [Node]) or [null]. *)
Inductive Found : Type :=
  | found (e : JQuery)
  | found_undefined
  | found_null.

(** A call that touches no element object. *)
Definition lift {A} (o : outcome A) : M A := fun σ =>
  match o with
  | Returns a => Returns (a, σ)
  | TypeError => TypeError
  | StackOverflow => StackOverflow
  end.

(** The element objects of a new tree are new: none has a [distance]. *)
Definition new_objects : M unit := fun _ => Returns (tt, ∅).

(** [buildTree: function()].  [this] is the list of the elements of the
    jQuery set, in the order of [each]; the result is the value that
    [this.data('root', ...)] stores. *)
Definition buildTree (fuel : nat) (this : list JQuery)
    (document_width document_height : R) : outcome Node :=
  let elements := this in
  let viewingRect := nn.documentWindow document_width document_height in
  nn.quadtree fuel elements viewingRect.

(** [find: function(x, y)].  [root] is what [this.data('root')] holds on
    entry, [null] when it holds nothing; the second component of the result
    is what it holds on return.  On an empty set jQuery stores nothing and
    reads [undefined], which is as false as the [null] [quadtree] returns
    for it. *)
Definition find (fuel : nat) (this : list JQuery) (document_width document_height : R)
    (root : Node) (x y : R) : M (Found * Node) :=
  root ← match root with
         | null =>
           root ← lift (buildTree fuel this document_width document_height);
           _ ← new_objects;
           mret root
         | _ => mret root
         end;
  node ← nn.nearestNeighbor root x y None;
  mret (match node with
        | Some (BElem e) => found (element e)
        | Some FreshNode => found_undefined
        | None => found_null
        end, root).

End functions.

Import nn functions.

(** ** Specification vocabulary *)

(** [top <= bottom] and [left <= right] *)
Definition wellFormed (rect : Rectangle) : Prop :=
  top rect <= bottom rect /\ left rect <= right rect.

(** The point lies in the rectangle or on its boundary. *)
Definition insideOrOn (rect : Rectangle) (x y : R) : Prop :=
  left rect <= x <= right rect /\ top rect <= y <= bottom rect.

(** The number a distance value holds. *)
Definition num_of (v : jsnum) : R :=
  match v with
  | Num r => r
  | _ => 0
  end.

(** The distance of a point to a rectangle, as the code computes it. *)
Definition dR (rect : Rectangle) (x y : R) : R :=
  num_of (distanceToRectangle rect x y).

(** The branches of the chain of tests of [distanceToRectangle], in the
    order of the source. *)
Inductive Branch : Type :=
  | band_x
  | band_y
  | corner_bottom_right
  | corner_bottom_left
  | corner_top_right
  | corner_top_left.

(** The branch [distanceToRectangle] takes: the tests of the source, with
    the name of the branch in place of its value. *)
Definition distanceBranch (rect : Rectangle) (x y : R) : option Branch :=
  if (x >=? left rect) && (x <=? right rect) then Some band_x
  else if (y >=? top rect) && (y <=? bottom rect) then Some band_y
  else if (y >=? bottom rect) && (x >=? right rect) then Some corner_bottom_right
  else if (y >=? bottom rect) && (x <=? left rect) then Some corner_bottom_left
  else if (y <=? top rect) && (x >=? right rect) then Some corner_top_right
  else if (y <=? top rect) && (x <=? left rect) then Some corner_top_left
  else None.

(** The value each branch assigns to [d]. *)
Definition branchValue (rect : Rectangle) (x y : R) (b : Branch) : R :=
  match b with
  | band_x => Rmin (Rabs (y - bottom rect)) (Rabs (top rect - y))
  | band_y => Rmin (Rabs (x - right rect)) (Rabs (left rect - x))
  | corner_bottom_right => pythagoreanDistance x y (right rect) (bottom rect)
  | corner_bottom_left => pythagoreanDistance x y (left rect) (bottom rect)
  | corner_top_right => pythagoreanDistance x y (right rect) (top rect)
  | corner_top_left => pythagoreanDistance x y (left rect) (top rect)
  end.

(** The nine regions of the plane around a rectangle; the bands include
    their end lines. *)
Inductive Region : Type :=
  | inside | above | below | left_of | right_of
  | top_left | top_right | bottom_left | bottom_right.

Definition in_region (rect : Rectangle) (x y : R) (g : Region) : Prop :=
  match g with
  | inside => left rect <= x <= right rect /\ top rect <= y <= bottom rect
  | above => left rect <= x <= right rect /\ y < top rect
  | below => left rect <= x <= right rect /\ bottom rect < y
  | left_of => x < left rect /\ top rect <= y <= bottom rect
  | right_of => right rect < x /\ top rect <= y <= bottom rect
  | top_left => x < left rect /\ y < top rect
  | top_right => right rect < x /\ y < top rect
  | bottom_left => x < left rect /\ bottom rect < y
  | bottom_right => right rect < x /\ bottom rect < y
  end.

Definition branch_of_region (g : Region) : Branch :=
  match g with
  | inside | above | below => band_x
  | left_of | right_of => band_y
  | top_left => corner_top_left
  | top_right => corner_top_right
  | bottom_left => corner_bottom_left
  | bottom_right => corner_bottom_right
  end.

(** The point of the interval from [lo] to [hi] nearest to [v]. *)
Definition clamp (lo hi v : R) : R := Rmax lo (Rmin v hi).

(** The point of a rectangle nearest to (x,y). *)
Definition nearestPoint (rect : Rectangle) (x y : R) : R * R :=
  (clamp (left rect) (right rect) x, clamp (top rect) (bottom rect) y).

(** The store after [getMinDistance] has written the [distance] of every
    element of a bucket. *)
Definition scan (nodes : list Element) (x y : R) (σ : Store) : Store :=
  foldl (fun σ n => <[eid n := distanceToRectangle (elem_rectangle n) x y]> σ) σ nodes.

(** [e] is the first element of least distance of [l]: the elements
    before it are strictly farther, those after it are not closer. *)
Definition first_least {A} (d : A -> R) (l : list A) (e : A) : Prop :=
  exists l1 l2, l = l1 ++ e :: l2 /\
    Forall (fun e' => d e < d e') l1 /\ Forall (fun e' => d e <= d e') l2.

(** ** The tree *)

(** The elements stored in a subtree, bucket first, then the children in
    the order NW, NE, SW, SE. *)
Fixpoint allElements (n : Node) : list Element :=
  match n with
  | null => []
  | mkNode _ _ elements nw ne sw se =>
    elements ++ allElements nw ++ allElements ne ++ allElements sw ++ allElements se
  end.

(** The steps of [nearestNeighbor] on a node: the scan of the bucket and
    the visit of one child slot. *)
Definition scanBucket (elements : list Element) (x y : R) (best : option Best)
  : M (option Best) :=
  if (0 <? length elements)%nat then
    bestInQuad ← getMinDistance elements x y;
    d ← get_elem_distance bestInQuad;
    bd ← get_distance best;
    if js_lt d bd then mret (BElem <$> bestInQuad) else mret best
  else mret best.

Definition visitChild (child : Node) (q : Quadrant) (pointQuad : option Quadrant)
    (x y : R) (best : option Best) : M (option Best) :=
  match child with
  | null => mret best
  | mkNode r _ _ _ _ _ _ =>
    let quadDistance := distanceToRectangle r x y in
    go ← (if bool_decide (pointQuad = Some q) then mret true
          else bd ← get_distance best; mret (js_lt quadDistance bd));
    if go : bool then nearestNeighbor child x y best else mret best
  end.

(** A value a distance can take: a number or infinity. *)
Definition is_dist (v : jsnum) : Prop :=
  match v with
  | Num _ | PosInf => True
  | _ => False
  end.

(** [a <= b] on distances. *)
Definition dist_le (a b : jsnum) : Prop :=
  match a, b with
  | Num r, Num s => r <= s
  | Num _, PosInf => True
  | PosInf, PosInf => True
  | _, _ => False
  end.

(** Two element objects of the same identity are the same object, so they
    have the same rectangle. *)
Definition ids_consistent (S : list Element) : Prop :=
  forall e1 e2, e1 ∈ S -> e2 ∈ S -> eid e1 = eid e2 ->
    elem_rectangle e1 = elem_rectangle e2.

(** Between [σ] and [σ'] nothing was written but the distance, from
    (x,y), of elements of [S']. *)
Definition written_by (x y : R) (S' : list Element) (σ σ' : Store) : Prop :=
  forall i, σ' !! i = σ !! i \/
    exists e, e ∈ S' /\ eid e = i /\
      σ' !! i = Some (Num (dR (elem_rectangle e) x y)).

(** No scan, from (x,y), of elements of [S] can change the distance [b]
    has. *)
Definition stable (x y : R) (S : list Element) (σ : Store) (b : Best) : Prop :=
  match b with
  | FreshNode => True
  | BElem e =>
    forall e', e' ∈ S -> eid e' = eid e ->
      σ !! eid e = Some (Num (dR (elem_rectangle e') x y))
  end.

(** What one step of the search from (x,y), over the elements [S'], does to
    the best and to the store. *)
Record Post (x y : R) (S S' : list Element) (b : Best) (σ : Store)
    (r : Best) (σ' : Store) : Prop := mkPost {
  post_result : r = b \/ exists e, r = BElem e /\ e ∈ S';
  post_frame : written_by x y S' σ σ';
  post_found : b = FreshNode -> S' <> [] -> r <> FreshNode;
  post_mono :
    ids_consistent S -> S' ⊆ S -> stable x y S σ b -> is_dist (best_distance σ b) ->
    dist_le (best_distance σ' r) (best_distance σ b) /\ stable x y S σ' r
}.

(** ** The builder *)

(** [inner] lies in [outer], edges included. *)
Definition within (outer inner : Rectangle) : Prop :=
  left outer <= left inner /\ right inner <= right outer /\
  top outer <= top inner /\ bottom inner <= bottom outer.

(** The dividing lines of a node. *)
Definition xDiv (boundry : Rectangle) : R :=
  left boundry + (right boundry - left boundry) / 2.
Definition yDiv (boundry : Rectangle) : R :=
  top boundry + (bottom boundry - top boundry) / 2.

(** [rect] is strictly contained in quadrant [q] of [boundry]: it lies in
    the rectangle of the quadrant and stays off the two dividing lines. *)
Definition strictlyInQuadrant (boundry : Rectangle) (q : Quadrant) (rect : Rectangle)
  : Prop :=
  within (getQuadrant boundry q) rect /\
  match q with
  | NW => bottom rect < yDiv boundry /\ right rect < xDiv boundry
  | NE => bottom rect < yDiv boundry /\ xDiv boundry < left rect
  | SW => yDiv boundry < top rect /\ right rect < xDiv boundry
  | SE => yDiv boundry < top rect /\ xDiv boundry < left rect
  end.

(** [rect] touches or crosses a dividing line of [boundry]. *)
Definition straddles (boundry rect : Rectangle) : Prop :=
  left rect <= xDiv boundry <= right rect \/ top rect <= yDiv boundry <= bottom rect.

(** The test by which [addElement] sends an element to quadrant [q]. *)
Definition fits (boundry rect : Rectangle) (q : Quadrant) : Prop :=
  match q with
  | NW => bottom rect < yDiv boundry /\ right rect < xDiv boundry
  | NE => bottom rect < yDiv boundry /\ left rect > xDiv boundry
  | SW => top rect > yDiv boundry /\ right rect < xDiv boundry
  | SE => top rect > yDiv boundry /\ left rect > xDiv boundry
  end.

Definition slot (q : Quadrant) (nw ne sw se : Node) : Node :=
  match q with NW => nw | NE => ne | SW => sw | SE => se end.

Definition with_slot (q : Quadrant) (c : Node) (boundry : Rectangle) (distance : jsnum)
    (elements : list Element) (nw ne sw se : Node) : Node :=
  match q with
  | NW => mkNode boundry distance elements c ne sw se
  | NE => mkNode boundry distance elements nw c sw se
  | SW => mkNode boundry distance elements nw ne c se
  | SE => mkNode boundry distance elements nw ne sw c
  end.

(** The child [addElement] recurses into: the one in the slot, or a new one. *)
Definition child_or_new (boundry : Rectangle) (q : Quadrant) (child : Node) : Node :=
  match child with
  | null => new_Node (getQuadrant boundry q)
  | _ => child
  end.

Definition node_rectangle (n : Node) : option Rectangle :=
  match n with
  | null => None
  | mkNode r _ _ _ _ _ _ => Some r
  end.

(** A child in slot [q] covers quadrant [q], and every element of its
    subtree is strictly contained in that quadrant. *)
Definition child_ok (boundry : Rectangle) (q : Quadrant) (child : Node) : Prop :=
  match node_rectangle child with
  | None => True
  | Some rc =>
    rc = getQuadrant boundry q /\
    Forall (fun e => strictlyInQuadrant boundry q (elem_rectangle e)) (allElements child)
  end.

(** The containment invariant of a tree. *)
Fixpoint containment (n : Node) : Prop :=
  match n with
  | null => True
  | mkNode r _ elements nw ne sw se =>
    Forall (fun e => (forall q, ~ strictlyInQuadrant r q (elem_rectangle e)) /\
                     straddles r (elem_rectangle e)) elements /\
    (forall q, child_ok r q (slot q nw ne sw se)) /\
    containment nw /\ containment ne /\ containment sw /\ containment se
  end.

(** The extent of a rectangle on each axis. *)
Definition width (rect : Rectangle) : R := right rect - left rect.
Definition height (rect : Rectangle) : R := bottom rect - top rect.

(** A call stack of depth [fuel] is enough to store [rect] under a node
    that covers [boundry]: halving [boundry] [fuel] times makes it narrower
    or lower than [rect]. *)
Definition stops_within (fuel : nat) (boundry rect : Rectangle) : Prop :=
  width boundry < 2 ^ fuel * width rect \/ height boundry < 2 ^ fuel * height rect.

(** ** Example pages *)

(** A page of 100 by 100 with two links: [linkA] in the north-west
    quadrant, [linkB] just right of the vertical dividing line. *)
Definition page : Rectangle := mkRectangle 0 0 100 100.
Definition linkA : JQuery := mkJQuery 0 10 20 30 10.
Definition linkB : JQuery := mkJQuery 1 51 20 9 10.
Definition elemA : Element := mkElement 0 linkA (boundingBox linkA).
Definition elemB : Element := mkElement 1 linkB (boundingBox linkB).
Definition treeAB : Node :=
  mkNode page PosInf []
    (mkNode (getQuadrant page NW) PosInf [elemA] null null null null)
    (mkNode (getQuadrant page NE) PosInf [elemB] null null null null)
    null null.

(** The same page with one link across its centre. *)
Definition linkC : JQuery := mkJQuery 0 40 40 20 20.
Definition elemC : Element := mkElement 0 linkC (boundingBox linkC).
Definition treeC : Node := mkNode page PosInf [elemC] null null null null.

(** ** Vocabulary of the further properties *)

(** The interior of a rectangle. *)
Definition strictlyInside (rect : Rectangle) (x y : R) : Prop :=
  left rect < x < right rect /\ top rect < y < bottom rect.

(** The bucket and the children of a node. *)
Definition bucket (n : Node) : list Element :=
  match n with
  | null => []
  | mkNode _ _ elements _ _ _ _ => elements
  end.

Definition child (q : Quadrant) (n : Node) : Node :=
  match n with
  | null => null
  | mkNode _ _ _ nw ne sw se => slot q nw ne sw se
  end.

(** The element objects [quadtree] creates for its input, the first with
    identity [i]. *)
Fixpoint created (i : nat) (elements : list JQuery) : list Element :=
  match elements with
  | [] => []
  | e :: elements => mkElement i e (boundingBox e) :: created (S i) elements
  end.

(** Every node of the subtree stores an element somewhere below it. *)
Fixpoint populated (n : Node) : Prop :=
  match n with
  | null => True
  | mkNode _ _ elements nw ne sw se =>
    elements ++ allElements nw ++ allElements ne ++ allElements sw ++ allElements se <> [] /\
    populated nw /\ populated ne /\ populated sw /\ populated se
  end.

(** The children of a node store an element each, whatever the node does. *)
Definition children_populated (n : Node) : Prop :=
  forall q, populated (child q n).

(** Every child of the subtree covers the quadrant of its slot. *)
Fixpoint shaped (n : Node) : Prop :=
  match n with
  | null => True
  | mkNode r _ _ nw ne sw se =>
    (forall q, match node_rectangle (slot q nw ne sw se) with
               | Some rc => rc = getQuadrant r q
               | None => True
               end) /\
    shaped nw /\ shaped ne /\ shaped sw /\ shaped se
  end.

(** [rect] lies beyond a corner of [boundry]: apart from it on both axes. *)
Definition beyond_corner (boundry rect : Rectangle) : Prop :=
  (bottom rect < top boundry \/ top rect > bottom boundry) /\
  (right rect < left boundry \/ left rect > right boundry).

(** The search from (x,y) cannot pass by the stored element [e]: [e] is in
    the bucket of the node, or below a child that is the quadrant of the
    point or whose region is not nearer to the point than [e] is, and the
    same holds from that child on. *)
Fixpoint reach (x y : R) (e : Element) (n : Node) : Prop :=
  match n with
  | null => False
  | mkNode r _ elements nw ne sw se =>
    e ∈ elements \/
    exists q,
      (quadWithPoint r x y = Some q \/
       match node_rectangle (slot q nw ne sw se) with
       | Some rc => dR rc x y <= dR (elem_rectangle e) x y
       | None => False
       end) /\
      match q with
      | NW => reach x y e nw
      | NE => reach x y e ne
      | SW => reach x y e sw
      | SE => reach x y e se
      end
  end.

(** The point (x,y) is on no dividing line of the subtree. *)
Fixpoint off_lines (x y : R) (n : Node) : Prop :=
  match n with
  | null => True
  | mkNode r _ _ nw ne sw se =>
    x <> xDiv r /\ y <> yDiv r /\
    off_lines x y nw /\ off_lines x y ne /\ off_lines x y sw /\ off_lines x y se
  end.

(** ** The search with the best passed as an accumulator

    The same tests as [getMinDistance] and [nearestNeighbor], on a best
    that is carried with its distance in place of reading the distance
    from the element object. *)

(** The loop of [getMinDistance] without the writes. *)
Fixpoint minLoop (nodes : list Element) (x y : R) (min : jsnum) (best : option Element)
  : option Element :=
  match nodes with
  | [] => best
  | n :: nodes =>
    let d := distanceToRectangle (elem_rectangle n) x y in
    if js_lt d min then minLoop nodes x y d (Some n)
    else minLoop nodes x y min best
  end.

Definition pure_scan (elements : list Element) (x y : R) (acc : Best * jsnum)
  : Best * jsnum :=
  match minLoop elements x y PosInf None with
  | None => acc
  | Some e =>
    let d := distanceToRectangle (elem_rectangle e) x y in
    if js_lt d (snd acc) then (BElem e, d) else acc
  end.

Definition pure_visit (rec : Best * jsnum -> Best * jsnum) (c : Node) (q : Quadrant)
    (pointQuad : option Quadrant) (x y : R) (acc : Best * jsnum) : Best * jsnum :=
  match node_rectangle c with
  | None => acc
  | Some rc =>
    if bool_decide (pointQuad = Some q) || js_lt (distanceToRectangle rc x y) (snd acc)
    then rec acc else acc
  end.

Fixpoint pure_search (n : Node) (x y : R) (acc : Best * jsnum) : Best * jsnum :=
  match n with
  | null => acc
  | mkNode r _ elements nw ne sw se =>
    let acc := pure_scan elements x y acc in
    let pointQuad := quadWithPoint r x y in
    let acc := pure_visit (pure_search nw x y) nw NW pointQuad x y acc in
    let acc := pure_visit (pure_search ne x y) ne NE pointQuad x y acc in
    let acc := pure_visit (pure_search sw x y) sw SW pointQuad x y acc in
    pure_visit (pure_search se x y) se SE pointQuad x y acc
  end.

(** The quadrant [addElement] sends a rectangle to: its chain of tests,
    with the quadrant in place of the recursive call, and [None] for the
    bucket. *)
Definition route (boundry rect : Rectangle) : option Quadrant :=
  if (bottom rect <? yDiv boundry) && (right rect <? xDiv boundry) then Some NW
  else if (bottom rect <? yDiv boundry) && (left rect >? xDiv boundry) then Some NE
  else if (top rect >? yDiv boundry) && (right rect <? xDiv boundry) then Some SW
  else if (top rect >? yDiv boundry) && (left rect >? xDiv boundry) then Some SE
  else None.

(** Two trees are the same up to the order of the elements in each
    bucket. *)
Fixpoint same_tree (a b : Node) : Prop :=
  match a, b with
  | null, null => True
  | mkNode r d elements nw ne sw se, mkNode r' d' elements' nw' ne' sw' se' =>
    r = r' /\ d = d' /\ elements ≡ₚ elements' /\
    same_tree nw nw' /\ same_tree ne ne' /\ same_tree sw sw' /\ same_tree se se'
  | _, _ => False
  end.

(** An element at a negative position, beyond the corner of the page. *)
Definition linkOff : JQuery := mkJQuery 2 (-50) (-50) 10 10.

(** The tree of the page after [linkA] alone. *)
Definition treeA : Node :=
  mkNode page PosInf []
    (mkNode (getQuadrant page NW) PosInf [elemA] null null null null)
    null null null.

(** ** The object graph

    For what a search leaves of the objects it is given, the objects
    themselves: every [Node] and every [Element] object is a cell of a
    heap that holds its properties, a bucket is the array of the
    references of its elements, and a child slot holds a reference or
    [null]. *)

Module objects.

Abbreviation ref := nat.

(** The properties of a [Node] object, and of an [Element] object; the
    [rectangle] of a [new Node()] is [undefined], an [Element] has the
    [distance] [undefined] until a search writes it. *)
Inductive object : Type :=
  | ONode (rectangle : option Rectangle) (distance : jsnum) (elements : list ref)
          (nw ne sw se : option ref)
  | OElement (element : JQuery) (rectangle : Rectangle) (distance : jsnum).

Abbreviation Heap := (gmap ref object).

Definition H (A : Type) : Type := Heap -> outcome (A * Heap).

#[global] Instance H_ret : MRet H := fun A a h => Returns (a, h).
#[global] Instance H_bind : MBind H := fun A B k m h =>
  match m h with
  | Returns (a, h') => k a h'
  | TypeError => TypeError
  | StackOverflow => StackOverflow
  end.

(** [new Node()] *)
Definition new_Node : H ref := fun h =>
  let o := fresh (base.dom h) in
  Returns (o, <[o := ONode None PosInf [] None None None None]> h).

(** [o.distance], where [o] may be [null] *)
Definition get_distance (o : option ref) : H jsnum := fun h =>
  match o with
  | Some o =>
    match h !! o with
    | Some (ONode _ d _ _ _ _ _) | Some (OElement _ _ d) => Returns (d, h)
    | None => TypeError
    end
  | None => TypeError
  end.

(** [o.distance = d] *)
Definition set_distance (o : ref) (d : jsnum) : H unit := fun h =>
  match h !! o with
  | Some (ONode r _ elements nw ne sw se) =>
    Returns (tt, <[o := ONode r d elements nw ne sw se]> h)
  | Some (OElement e r _) => Returns (tt, <[o := OElement e r d]> h)
  | None => TypeError
  end.

(** [o.rectangle], handed to a function that reads its sides: a
    [TypeError] when it is [undefined]. *)
Definition get_rectangle (o : ref) : H Rectangle := fun h =>
  match h !! o with
  | Some (ONode (Some r) _ _ _ _ _ _) | Some (OElement _ r _) => Returns (r, h)
  | _ => TypeError
  end.

(** [o.elements], whose [length] is read: a [TypeError] on an object that
    has no bucket. *)
Definition get_elements (o : ref) : H (list ref) := fun h =>
  match h !! o with
  | Some (ONode _ _ elements _ _ _ _) => Returns (elements, h)
  | _ => TypeError
  end.

(** [o.nw], [o.ne], [o.sw], [o.se] *)
Definition get_child (q : Quadrant) (o : ref) : H (option ref) := fun h =>
  match h !! o with
  | Some (ONode _ _ _ nw ne sw se) =>
    Returns (match q with NW => nw | NE => ne | SW => sw | SE => se end, h)
  | Some (OElement _ _ _) => Returns (None, h)
  | None => TypeError
  end.

(** The [for] loop of [getMinDistance], on the array of references. *)
Fixpoint getMinDistance_loop (nodes : list ref) (x y : R)
    (min : jsnum) (best : option ref) : H (option ref) :=
  match nodes with
  | [] => mret best
  | n :: nodes =>
    rect ← get_rectangle n;
    let d := nn.distanceToRectangle rect x y in
    _ ← set_distance n d;
    if js_lt d min then getMinDistance_loop nodes x y d (Some n)
    else getMinDistance_loop nodes x y min best
  end.

(** [getMinDistance: function(nodes, x, y)] *)
Definition getMinDistance (nodes : list ref) (x y : R) : H (option ref) :=
  getMinDistance_loop nodes x y PosInf None.

(** [nearestNeighbor: function(quadtree, x, y, best)], on references;
    [fuel] is the depth of the call stack. *)
Fixpoint nearestNeighbor (fuel : nat) (quadtree : option ref) (x y : R)
    (best : option ref) : H (option ref) :=
  match fuel with
  | O => fun _ => StackOverflow
  | S fuel =>
    match quadtree with
    | None => mret None
    | Some quadtree =>
      best ← match best with
             | None => b ← new_Node; mret (Some b)
             | Some _ => mret best
             end;
      elements ← get_elements quadtree;
      best ←
        (if (0 <? length elements)%nat then
           bestInQuad ← getMinDistance elements x y;
           d ← get_distance bestInQuad;
           bd ← get_distance best;
           if js_lt d bd then mret bestInQuad else mret best
         else mret best);
      rectangle ← get_rectangle quadtree;
      let pointQuad := nn.quadWithPoint rectangle x y in
      nw ← get_child NW quadtree;
      best ←
        match nw with
        | None => mret best
        | Some nw =>
          r ← get_rectangle nw;
          let quadDistance := nn.distanceToRectangle r x y in
          go ← (if bool_decide (pointQuad = Some NW) then mret true
                else bd ← get_distance best; mret (js_lt quadDistance bd));
          if go : bool then nearestNeighbor fuel (Some nw) x y best else mret best
        end;
      ne ← get_child NE quadtree;
      best ←
        match ne with
        | None => mret best
        | Some ne =>
          r ← get_rectangle ne;
          let quadDistance := nn.distanceToRectangle r x y in
          go ← (if bool_decide (pointQuad = Some NE) then mret true
                else bd ← get_distance best; mret (js_lt quadDistance bd));
          if go : bool then nearestNeighbor fuel (Some ne) x y best else mret best
        end;
      sw ← get_child SW quadtree;
      best ←
        match sw with
        | None => mret best
        | Some sw =>
          r ← get_rectangle sw;
          let quadDistance := nn.distanceToRectangle r x y in
          go ← (if bool_decide (pointQuad = Some SW) then mret true
                else bd ← get_distance best; mret (js_lt quadDistance bd));
          if go : bool then nearestNeighbor fuel (Some sw) x y best else mret best
        end;
      se ← get_child SE quadtree;
      best ←
        match se with
        | None => mret best
        | Some se =>
          r ← get_rectangle se;
          let quadDistance := nn.distanceToRectangle r x y in
          go ← (if bool_decide (pointQuad = Some SE) then mret true
                else bd ← get_distance best; mret (js_lt quadDistance bd));
          if go : bool then nearestNeighbor fuel (Some se) x y best else mret best
        end;
      mret best
    end
  end.

End objects.


(** The element object [e] is in the heap, at the reference [eid e], with
    the [element] and the [rectangle] its constructor gave it. *)
Definition stored (h : objects.Heap) (e : Element) : Prop :=
  exists d, h !! eid e = Some (objects.OElement (element e) (elem_rectangle e) d).

(** The heap holds the tree [t] at the reference [l]: a [Node] object for
    every node, with its rectangle, the references of the elements of its
    bucket and the references of its children, and the element objects. *)
Fixpoint lays_out (h : objects.Heap) (l : option objects.ref) (t : Node) : Prop :=
  match t with
  | null => l = None
  | mkNode rectangle distance elements nw ne sw se =>
    exists o lnw lne lsw lse,
      l = Some o /\
      h !! o = Some (objects.ONode (Some rectangle) distance (eid <$> elements)
                       lnw lne lsw lse) /\
      Forall (stored h) elements /\
      lays_out h lnw nw /\ lays_out h lne ne /\ lays_out h lsw sw /\ lays_out h lse se
  end.

(** The number of nodes on the longest branch. *)
Fixpoint levels (t : Node) : nat :=
  match t with
  | null => 0
  | mkNode _ _ _ nw ne sw se =>
    S (Nat.max (Nat.max (levels nw) (levels ne)) (Nat.max (levels sw) (levels se)))
  end.

(** The element object [e] holds its distance from (x,y). *)
Definition written (x y : R) (h : objects.Heap) (e : Element) : Prop :=
  h !! eid e = Some (objects.OElement (element e) (elem_rectangle e)
                       (distanceToRectangle (elem_rectangle e) x y)).

(** Every object of [h] is in [h'] what it is in [h], but for elements of
    [S], whose [distance] may have become their distance from (x,y). *)
Definition kept (x y : R) (S : list Element) (h h' : objects.Heap) : Prop :=
  forall i o, h !! i = Some o ->
    h' !! i = Some o \/
    exists e, e ∈ S /\ i = eid e /\ stored h e /\ written x y h' e.

(** The stored element [e] is in the bucket of a node whose region holds
    the point (x,y): the bucket of the root, of the child of the root that
    [quadWithPoint] gives for the point, and so on down. *)
Fixpoint on_path (x y : R) (e : Element) (n : Node) : Prop :=
  match n with
  | null => False
  | mkNode r _ elements nw ne sw se =>
    e ∈ elements \/
    exists q, quadWithPoint r x y = Some q /\
      match q with
      | NW => on_path x y e nw
      | NE => on_path x y e ne
      | SW => on_path x y e sw
      | SE => on_path x y e se
      end
  end.

(** What the search of the tree [t] returns on the heap [h] when it is
    given [best]: that best, or a new object when it is given none, or the
    reference of an element of the tree. *)
Definition returned (h : objects.Heap) (best : option objects.ref) (t : Node)
    (r : option objects.ref) : Prop :=
  match best with
  | Some _ => r = best
  | None => exists o, h !! o = None /\ r = Some o
  end \/
  exists e, e ∈ allElements t /\ r = Some (eid e).

(** A reference that leads to an object. *)
Definition alive (h : objects.Heap) (best : option objects.ref) : Prop :=
  exists b, best = Some b /\ is_Some (h !! b).

(** The steps of [objects.nearestNeighbor] on a node. *)
Definition scanBucket_objects (elements : list objects.ref) (x y : R)
    (best : option objects.ref) : objects.H (option objects.ref) :=
  if (0 <? length elements)%nat then
    bestInQuad ← objects.getMinDistance elements x y;
    d ← objects.get_distance bestInQuad;
    bd ← objects.get_distance best;
    if js_lt d bd then mret bestInQuad else mret best
  else mret best.

Definition visitChild_objects (fuel : nat) (child : option objects.ref) (q : Quadrant)
    (pointQuad : option Quadrant) (x y : R) (best : option objects.ref)
  : objects.H (option objects.ref) :=
  match child with
  | None => mret best
  | Some c =>
    r ← objects.get_rectangle c;
    let quadDistance := distanceToRectangle r x y in
    go ← (if bool_decide (pointQuad = Some q) then mret true
          else bd ← objects.get_distance best; mret (js_lt quadDistance bd));
    if go : bool then objects.nearestNeighbor fuel (Some c) x y best else mret best
  end.

(** The page with [linkC], in the heap: the element at 0, the root at 1. *)
Definition heapC : objects.Heap :=
  <[1%nat := objects.ONode (Some page) PosInf [0%nat] None None None None]>
    (<[0%nat := objects.OElement linkC (boundingBox linkC) Undefined]> ∅).

(** The page with [linkA] and [linkB], in the heap: the elements at 0 and
    1, the root at 2, its north-west child at 3, its north-east child at
    4. *)
Definition heapAB : objects.Heap :=
  <[4%nat := objects.ONode (Some (getQuadrant page NE)) PosInf [1%nat] None None None None]>
    (<[3%nat := objects.ONode (Some (getQuadrant page NW)) PosInf [0%nat] None None None None]>
       (<[2%nat := objects.ONode (Some page) PosInf [] (Some 3%nat) (Some 4%nat) None None]>
          (<[1%nat := objects.OElement linkB (boundingBox linkB) Undefined]>
             (<[0%nat := objects.OElement linkA (boundingBox linkA) Undefined]> ∅)))).

(** ** Tactics for the tests on numbers *)

(** Settle every test whose outcome follows from the hypotheses. *)
Ltac rdecide :=
  repeat match goal with
  | |- context [bool_decide ?P] =>
      first [ rewrite (bool_decide_eq_true_2 P) by lra
            | rewrite (bool_decide_eq_false_2 P) by lra ]
  end;
  cbn [andb orb negb].

(** Split on every test. *)
Ltac rsplit :=
  repeat (case_bool_decide; cbn [andb orb negb]).

(** Compute a [Rmin] of [Rabs] on closed numbers. *)
Ltac rabs :=
  unfold Rmin, Rabs;
  repeat match goal with
  | |- context [Rcase_abs ?a] => destruct (Rcase_abs a)
  | |- context [Rle_dec ?a ?b] => destruct (Rle_dec a b)
  end; try lra.

(** ** Geometry *)

Lemma distanceToRectangle_branch rect x y :
  distanceToRectangle rect x y =
  match distanceBranch rect x y with
  | Some b => Num (branchValue rect x y b)
  | None => Null
  end.
Proof.
  unfold distanceToRectangle, distanceBranch.
  repeat (case_match; try reflexivity; try discriminate).
Qed.

Lemma distanceBranch_total rect x y : is_Some (distanceBranch rect x y).
Proof.
  unfold distanceBranch. rsplit; try (eexists; reflexivity); lra.
Qed.

Lemma Rmin_Rabs_nonneg a b : 0 <= Rmin (Rabs a) (Rabs b).
Proof. apply Rmin_glb; apply Rabs_pos. Qed.

Lemma branchValue_nonneg rect x y b : 0 <= branchValue rect x y b.
Proof.
  destruct b; cbn [branchValue]; try apply Rmin_Rabs_nonneg;
    unfold pythagoreanDistance; apply sqrt_pos.
Qed.

(** The code's distance is a number, and it is not negative. *)
Lemma distanceToRectangle_Num rect x y :
  distanceToRectangle rect x y = Num (dR rect x y) /\ 0 <= dR rect x y.
Proof.
  unfold dR. rewrite distanceToRectangle_branch.
  destruct (distanceBranch_total rect x y) as [b ->]. cbn [num_of].
  split; [reflexivity | apply branchValue_nonneg].
Qed.

Lemma distanceToRectangle_dR rect x y :
  distanceToRectangle rect x y = Num (dR rect x y).
Proof. apply distanceToRectangle_Num. Qed.

Lemma dR_nonneg rect x y : 0 <= dR rect x y.
Proof. apply distanceToRectangle_Num. Qed.

Lemma js_lt_Num a b : js_lt (Num a) (Num b) = bool_decide (a < b).
Proof. reflexivity. Qed.

Lemma js_lt_Num_PosInf a : js_lt (Num a) PosInf = true.
Proof. reflexivity. Qed.

(** Every point is in one of the nine regions of a well-formed rectangle. *)
Lemma region_total rect x y : wellFormed rect -> exists g, in_region rect x y g.
Proof.
  intros [Hv Hh].
  destruct (Rlt_dec x (left rect)), (Rlt_dec (right rect) x),
    (Rlt_dec y (top rect)), (Rlt_dec (bottom rect) y); try lra;
  [ exists top_left | exists bottom_left | exists left_of
  | exists top_right | exists bottom_right | exists right_of
  | exists above | exists below | exists inside ];
  cbn [in_region]; lra.
Qed.

Lemma region_unique rect x y g g' :
  wellFormed rect -> in_region rect x y g -> in_region rect x y g' -> g' = g.
Proof.
  intros [Hv Hh] Hg Hg'.
  destruct g, g'; cbn [in_region] in *; try reflexivity; lra.
Qed.

(** In each region the chain of tests takes the branch of the region. *)
Lemma distanceBranch_region rect x y g :
  wellFormed rect -> in_region rect x y g ->
  distanceBranch rect x y = Some (branch_of_region g).
Proof.
  intros [Hv Hh] Hg. unfold distanceBranch.
  destruct g; cbn [in_region branch_of_region] in *; rdecide; reflexivity.
Qed.

Lemma distanceToRectangle_region rect x y g :
  wellFormed rect -> in_region rect x y g ->
  distanceToRectangle rect x y = Num (branchValue rect x y (branch_of_region g)).
Proof.
  intros Hwf Hg.
  rewrite distanceToRectangle_branch, (distanceBranch_region rect x y g Hwf Hg).
  reflexivity.
Qed.

(** C4: for a well-formed rectangle and any point, exactly one of the nine
    regions (inside, four bands that include their end lines, four corner
    zones) holds the point, [distanceToRectangle] takes the branch of that
    region, and it returns a number, never the [null] it starts with. *)
Theorem distanceToRectangle_total (rect : Rectangle) (x y : R) :
  wellFormed rect ->
  (exists g, in_region rect x y g /\
             (forall g', in_region rect x y g' -> g' = g) /\
             distanceBranch rect x y = Some (branch_of_region g) /\
             distanceToRectangle rect x y =
               Num (branchValue rect x y (branch_of_region g))) /\
  distanceToRectangle rect x y <> Null.
Proof.
  intros Hwf. split.
  - destruct (region_total rect x y Hwf) as [g Hg]. exists g.
    split; [exact Hg|]. split.
    + intros g' Hg'. exact (region_unique rect x y g g' Hwf Hg Hg').
    + split; [apply distanceBranch_region | apply distanceToRectangle_region];
        assumption.
  - rewrite distanceToRectangle_dR. discriminate.
Qed.

Lemma distanceToRectangle_total_witness :
  wellFormed (mkRectangle 0 0 10 10) /\
  distanceToRectangle (mkRectangle 0 0 10 10) 10 10 <> Null.
Proof.
  assert (H : wellFormed (mkRectangle 0 0 10 10)).
  { unfold wellFormed; cbn [top bottom left right]; lra. }
  split; [exact H|].
  exact (proj2 (distanceToRectangle_total (mkRectangle 0 0 10 10) 10 10 H)).
Defined.

(** C1 (evaluation at the failing input): the point (5,5) lies inside the
    rectangle with corners (0,0) and (10,10), and (1,5) lies inside it at
    distance 1 from its left edge, yet [distanceToRectangle] returns 5 for
    both: in the band [left <= x <= right] it returns the distance to the
    nearer of the top and bottom edge lines, whether or not [y] lies between
    them. *)
Theorem distanceToRectangle_inside_not_zero :
  insideOrOn (mkRectangle 0 0 10 10) 5 5 /\
  distanceToRectangle (mkRectangle 0 0 10 10) 5 5 = Num 5 /\
  insideOrOn (mkRectangle 0 0 10 10) 1 5 /\
  distanceToRectangle (mkRectangle 0 0 10 10) 1 5 = Num 5.
Proof.
  unfold insideOrOn, distanceToRectangle; cbn [top left bottom right].
  rdecide. repeat split; try lra; f_equal; rabs.
Qed.

Lemma clamp_below lo hi v : lo <= hi -> v <= lo -> clamp lo hi v = lo.
Proof.
  intros. unfold clamp. rewrite Rmin_left by lra. apply Rmax_left. lra.
Qed.

Lemma clamp_above lo hi v : lo <= hi -> hi <= v -> clamp lo hi v = hi.
Proof.
  intros. unfold clamp. rewrite Rmin_right by lra. apply Rmax_right. lra.
Qed.

Lemma clamp_between lo hi v : lo <= v <= hi -> clamp lo hi v = v.
Proof.
  intros. unfold clamp. rewrite Rmin_left by lra. apply Rmax_right. lra.
Qed.

Lemma pythagoreanDistance_vertical x y y1 :
  pythagoreanDistance x y x y1 = Rabs (y1 - y).
Proof.
  unfold pythagoreanDistance. cbv zeta.
  replace ((y1 - y) * (y1 - y) + (x - x) * (x - x)) with (Rsqr (y1 - y))
    by (unfold Rsqr; ring).
  apply sqrt_Rsqr_abs.
Qed.

Lemma pythagoreanDistance_horizontal x y x1 :
  pythagoreanDistance x y x1 y = Rabs (x1 - x).
Proof.
  unfold pythagoreanDistance. cbv zeta.
  replace ((y - y) * (y - y) + (x1 - x) * (x1 - x)) with (Rsqr (x1 - x))
    by (unfold Rsqr; ring).
  apply sqrt_Rsqr_abs.
Qed.

Lemma pythagoreanDistance_pos x y x1 y1 :
  x1 <> x \/ y1 <> y -> 0 < pythagoreanDistance x y x1 y1.
Proof.
  intros H. unfold pythagoreanDistance. cbv zeta. apply sqrt_lt_R0.
  destruct H as [H | H].
  - assert (0 < (x1 - x) * (x1 - x)) by (apply Rsqr_pos_lt; lra).
    assert (0 <= (y1 - y) * (y1 - y)) by apply Rle_0_sqr. lra.
  - assert (0 < (y1 - y) * (y1 - y)) by (apply Rsqr_pos_lt; lra).
    assert (0 <= (x1 - x) * (x1 - x)) by apply Rle_0_sqr. lra.
Qed.

(** A point that is farther from (x,y) on both axes is farther from it. *)
Lemma pythagoreanDistance_le x y x1 y1 x2 y2 :
  Rabs (x1 - x) <= Rabs (x2 - x) -> Rabs (y1 - y) <= Rabs (y2 - y) ->
  pythagoreanDistance x y x1 y1 <= pythagoreanDistance x y x2 y2.
Proof.
  intros Hx Hy. unfold pythagoreanDistance. cbv zeta. apply sqrt_le_1_alt.
  apply Rsqr_le_abs_1 in Hx, Hy. unfold Rsqr in Hx, Hy. lra.
Qed.

(** Outside of a well-formed rectangle the code's distance is right: it is
    positive, it is the distance to the nearest point of the rectangle, a
    point of its boundary, and no point of the rectangle is closer. *)
Lemma distanceToRectangle_outside rect x y :
  wellFormed rect -> ~ insideOrOn rect x y ->
  let p := nearestPoint rect x y in
  insideOrOn rect (fst p) (snd p) /\
  distanceToRectangle rect x y = Num (pythagoreanDistance x y (fst p) (snd p)) /\
  0 < pythagoreanDistance x y (fst p) (snd p) /\
  forall qx qy, insideOrOn rect qx qy ->
    pythagoreanDistance x y (fst p) (snd p) <= pythagoreanDistance x y qx qy.
Proof.
  intros Hwf Hout. pose proof Hwf as [Hv Hh].
  destruct (region_total rect x y Hwf) as [g Hg].
  rewrite (distanceToRectangle_region rect x y g Hwf Hg).
  unfold nearestPoint, insideOrOn in *. cbn [fst snd].
  destruct g; cbn [in_region branch_of_region branchValue] in *; try tauto.
  all: repeat first
         [ rewrite (clamp_below (left rect) (right rect) x) by lra
         | rewrite (clamp_above (left rect) (right rect) x) by lra
         | rewrite (clamp_between (left rect) (right rect) x) by lra
         | rewrite (clamp_below (top rect) (bottom rect) y) by lra
         | rewrite (clamp_above (top rect) (bottom rect) y) by lra
         | rewrite (clamp_between (top rect) (bottom rect) y) by lra ].
  all: split; [lra|]; split;
         [ f_equal;
           rewrite ?pythagoreanDistance_vertical, ?pythagoreanDistance_horizontal;
           first [reflexivity | rabs] |];
         split; [apply pythagoreanDistance_pos; lra |].
  all: intros qx qy [Hqx Hqy];
       apply pythagoreanDistance_le; rabs.
Qed.

(** The code's distance is zero only in or on the rectangle. *)
Lemma distanceToRectangle_zero rect x y :
  wellFormed rect -> distanceToRectangle rect x y = Num 0 -> insideOrOn rect x y.
Proof.
  intros Hwf H0.
  destruct (region_total rect x y Hwf) as [g Hg].
  destruct g; try exact Hg;
    (assert (Hout : ~ insideOrOn rect x y)
       by (unfold insideOrOn; destruct Hwf; cbn [in_region] in Hg; intros [? ?]; lra));
    pose proof (distanceToRectangle_outside rect x y Hwf Hout) as Hfar;
    cbv zeta in Hfar; unfold nearestPoint in Hfar; cbn [fst snd] in Hfar;
    destruct Hfar as (_ & Hd & Hpos & _);
    rewrite Hd in H0; injection H0 as H0; rewrite H0 in Hpos; lra.
Qed.

(** The distance of a region bounds from below the distance of a
    rectangle it contains, for a point outside of the region. *)
Lemma region_distance_outside C rect x y :
  wellFormed C -> wellFormed rect -> within C rect -> ~ insideOrOn C x y ->
  dR C x y <= dR rect x y.
Proof.
  intros HwfC Hwf Hin Hout.
  assert (Hout' : ~ insideOrOn rect x y).
  { unfold insideOrOn, within in *. intros [? ?]. apply Hout. lra. }
  pose proof (distanceToRectangle_outside C x y HwfC Hout) as HC.
  pose proof (distanceToRectangle_outside rect x y Hwf Hout') as Hr.
  cbv zeta in HC, Hr. destruct HC as (_ & HdC & _ & Hmin).
  destruct Hr as (Hp & Hd & _ & _).
  unfold dR. rewrite HdC, Hd. cbn [num_of]. apply Hmin.
  unfold insideOrOn, within in *. lra.
Qed.

(** ** The monad, unfolded *)

Lemma bind_unfold {A B} (m : M A) (k : A -> M B) (σ : Store) :
  (m ≫= k) σ =
  match m σ with
  | Returns (a, σ') => k a σ'
  | TypeError => TypeError
  | StackOverflow => StackOverflow
  end.
Proof. reflexivity. Qed.

Lemma ret_unfold {A} (a : A) (σ : Store) : mret (M := M) a σ = Returns (a, σ).
Proof. reflexivity. Qed.

(** ** The two scans *)

Lemma scan_cons n nodes x y σ :
  scan (n :: nodes) x y σ =
  scan nodes x y (<[eid n := distanceToRectangle (elem_rectangle n) x y]> σ).
Proof. reflexivity. Qed.

Lemma first_least_later {A} (d : A -> R) (l : list A) (e n : A) :
  first_least d l e -> d e < d n -> first_least d (n :: l) e.
Proof.
  intros (l1 & l2 & -> & H1 & H2) Hn.
  exists (n :: l1), l2. split; [reflexivity|]. split; [constructor|]; assumption.
Qed.

Lemma first_least_head {A} (d : A -> R) (l : list A) (n : A) :
  Forall (fun e' => d n <= d e') l -> first_least d (n :: l) n.
Proof.
  intros H. exists [], l. split; [reflexivity|]. split; [constructor | assumption].
Qed.

Section scans.
Variables x y : R.

Let de (e : Element) : R := dR (elem_rectangle e) x y.
Let dj (e : JQuery) : R := dR (boundingBox e) x y.

Lemma getMinDistance_loop_spec (nodes : list Element) :
  forall (m : R) (b : Element) (σ : Store),
  exists r,
    getMinDistance_loop nodes x y (Num m) (Some b) σ
      = Returns (Some r, scan nodes x y σ) /\
    ((r = b /\ Forall (fun e => m <= de e) nodes) \/
     (first_least de nodes r /\ de r < m)).
Proof.
  induction nodes as [|n nodes IH]; intros m b σ.
  - exists b. split; [reflexivity|]. left. split; [reflexivity | constructor].
  - cbn [getMinDistance_loop scan foldl]. rewrite bind_unfold.
    unfold set_distance at 1. rewrite distanceToRectangle_dR, js_lt_Num.
    fold (de n). case_bool_decide as Hlt.
    + destruct (IH (de n) n (<[eid n := Num (de n)]> σ)) as (r & Hr & Hcase).
      exists r. split; [exact Hr|]. right.
      destruct Hcase as [[-> Hall] | [Hfl Hlt']].
      * split; [apply first_least_head; exact Hall | exact Hlt].
      * split; [apply first_least_later; assumption | lra].
    + destruct (IH m b (<[eid n := Num (de n)]> σ)) as (r & Hr & Hcase).
      exists r. split; [exact Hr|].
      destruct Hcase as [[-> Hall] | [Hfl Hlt']].
      * left. split; [reflexivity|]. constructor; [lra | exact Hall].
      * right. split; [apply first_least_later; [assumption | lra] | exact Hlt'].
Qed.

(** [getMinDistance] returns [null] on an empty array and otherwise the
    first element of least distance; it writes the distance of every
    element. *)
Lemma getMinDistance_spec (nodes : list Element) (σ : Store) :
  exists r,
    getMinDistance nodes x y σ = Returns (r, scan nodes x y σ) /\
    match r with
    | None => nodes = []
    | Some e => first_least de nodes e
    end.
Proof.
  unfold getMinDistance. destruct nodes as [|n nodes].
  - exists None. split; reflexivity.
  - cbn [getMinDistance_loop scan foldl]. rewrite bind_unfold.
    unfold set_distance at 1. rewrite distanceToRectangle_dR, js_lt_Num_PosInf.
    destruct (getMinDistance_loop_spec nodes (de n) n (<[eid n := Num (de n)]> σ))
      as (r & Hr & Hcase).
    exists (Some r). split; [exact Hr|].
    destruct Hcase as [[-> Hall] | [Hfl Hlt']].
    + apply first_least_head; exact Hall.
    + apply first_least_later; assumption.
Qed.

Lemma fullScan_each_spec (this : list JQuery) :
  forall (m : R) (b : JQuery),
  exists r m',
    fullScan_each this x y (Num m) (Some b) = (Num m', Some r) /\
    ((r = b /\ m' = m /\ Forall (fun e => m <= dj e) this) \/
     (first_least dj this r /\ m' = dj r /\ dj r < m)).
Proof.
  induction this as [|n this IH]; intros m b.
  - exists b, m. split; [reflexivity|]. left. repeat split; constructor.
  - cbn [fullScan_each]. rewrite distanceToRectangle_dR, js_lt_Num.
    fold (dj n). case_bool_decide as Hlt.
    + destruct (IH (dj n) n) as (r & m' & Hr & Hcase).
      exists r, m'. split; [exact Hr|]. right.
      destruct Hcase as [(-> & -> & Hall) | (Hfl & -> & Hlt')].
      * repeat split; [apply first_least_head; exact Hall | exact Hlt].
      * repeat split; [apply first_least_later; assumption | lra].
    + destruct (IH m b) as (r & m' & Hr & Hcase).
      exists r, m'. split; [exact Hr|].
      destruct Hcase as [(-> & -> & Hall) | (Hfl & -> & Hlt')].
      * left. repeat split. constructor; [lra | exact Hall].
      * right. repeat split;
          [apply first_least_later; [assumption | lra] | exact Hlt'].
Qed.

(** [fullScan] returns [null] on an empty set and otherwise the first
    element of least distance. *)
Lemma fullScan_spec (this : list JQuery) :
  match fullScan this x y with
  | None => this = []
  | Some e => first_least dj this e
  end.
Proof.
  unfold fullScan. destruct this as [|n this]; [reflexivity|].
  cbn [fullScan_each]. rewrite distanceToRectangle_dR, js_lt_Num_PosInf.
  fold (dj n).
  destruct (fullScan_each_spec this (dj n) n) as (r & m' & -> & Hcase).
  cbn [snd]. destruct Hcase as [(-> & _ & Hall) | (Hfl & _ & Hlt')].
  - apply first_least_head; exact Hall.
  - apply first_least_later; assumption.
Qed.

End scans.

(** C8: at every point, [getMinDistance] on a bucket and [fullScan] on a
    set return, when the list is not empty, the first element of least
    distance in iteration order: every earlier element is strictly farther
    and no later element is closer, so of two elements at the same least
    distance the earlier one is returned. *)
Theorem first_seen_wins_on_ties (x y : R) (nodes : list Element)
    (this : list JQuery) (σ : Store) :
  (exists r σ',
     getMinDistance nodes x y σ = Returns (r, σ') /\
     match r with
     | None => nodes = []
     | Some e => first_least (fun e => dR (elem_rectangle e) x y) nodes e
     end) /\
  match fullScan this x y with
  | None => this = []
  | Some e => first_least (fun e => dR (boundingBox e) x y) this e
  end.
Proof.
  split.
  - destruct (getMinDistance_spec x y nodes σ) as (r & Hr & Hspec).
    exists r, (scan nodes x y σ). split; assumption.
  - apply fullScan_spec.
Qed.

(** C6 (as amended): on an absent node the search returns [null], whatever
    best is passed, and writes nothing; the best of a caller survives absent
    children because the search is not called on them: a node with an empty
    bucket and no child returns the best it was given. *)
Theorem nearestNeighbor_absent_node (x y : R) (best : option Best) (σ : Store) :
  nearestNeighbor null x y best σ = Returns (None, σ) /\
  forall rectangle distance b,
    nearestNeighbor (mkNode rectangle distance [] null null null null) x y (Some b) σ
    = Returns (Some b, σ).
Proof. split; reflexivity. Qed.

(** C6 (counterexample): called on an absent node with a best, the search
    does not return that best. *)
Lemma nearestNeighbor_absent_node_drops_best :
  nearestNeighbor null 0 0 (Some FreshNode) ∅ <> Returns (Some FreshNode, ∅).
Proof. cbn. discriminate. Qed.

Lemma nearestNeighbor_unfold rectangle distance elements nw ne sw se x y best :
  nearestNeighbor (mkNode rectangle distance elements nw ne sw se) x y best =
  (let best := match best with None => Some FreshNode | Some _ => best end in
   best ← scanBucket elements x y best;
   let pointQuad := quadWithPoint rectangle x y in
   best ← visitChild nw NW pointQuad x y best;
   best ← visitChild ne NE pointQuad x y best;
   best ← visitChild sw SW pointQuad x y best;
   best ← visitChild se SE pointQuad x y best;
   mret best).
Proof. destruct nw, ne, sw, se; reflexivity. Qed.

Lemma dist_le_refl a : is_dist a -> dist_le a a.
Proof. destruct a; cbn; intros; try lra; auto. Qed.

Lemma dist_le_trans a b c : dist_le a b -> dist_le b c -> dist_le a c.
Proof. destruct a, b, c; cbn; intros; try lra; auto; contradiction. Qed.

Lemma dist_le_is_dist a b : dist_le a b -> is_dist a.
Proof. destruct a, b; cbn; auto. Qed.

Lemma js_lt_dist_le a b : is_dist b -> js_lt (Num a) b = true -> dist_le (Num a) b.
Proof.
  destruct b; cbn; try contradiction; auto.
  intros _ H. apply bool_decide_eq_true_1 in H. lra.
Qed.

Lemma elem_distance_lookup (σ : Store) e v :
  σ !! eid e = Some v -> elem_distance σ e = v.
Proof. unfold elem_distance. intros ->. reflexivity. Qed.

Section search.
Variables x y : R.

Let de (e : Element) : R := dR (elem_rectangle e) x y.

Lemma written_by_refl S' σ : written_by x y S' σ σ.
Proof. intros i. left. reflexivity. Qed.

Lemma written_by_trans S1 S2 σ σ1 σ2 :
  written_by x y S1 σ σ1 -> written_by x y S2 σ1 σ2 -> written_by x y (S1 ++ S2) σ σ2.
Proof.
  intros H1 H2 i. destruct (H2 i) as [H2i | (e & He & Hi & Hv)].
  - rewrite H2i. destruct (H1 i) as [H1i | (e & He & Hi & Hv)]; [left; exact H1i|].
    right. exists e. rewrite elem_of_app. auto.
  - right. exists e. rewrite elem_of_app. auto.
Qed.

Lemma written_by_mono S1 S2 σ σ' :
  S1 ⊆ S2 -> written_by x y S1 σ σ' -> written_by x y S2 σ σ'.
Proof.
  intros Hsub H i. destruct (H i) as [Hi | (e & He & Hi & Hv)]; [left; exact Hi|].
  right. exists e. auto.
Qed.

Lemma scan_written_by nodes : forall σ, written_by x y nodes σ (scan nodes x y σ).
Proof.
  induction nodes as [|n nodes IH]; intros σ; [apply written_by_refl|].
  rewrite scan_cons.
  apply (written_by_trans [n] nodes _
           (<[eid n := distanceToRectangle (elem_rectangle n) x y]> σ)); [|apply IH].
  intros i. destruct (decide (eid n = i)) as [<- | Hne].
  - right. exists n. rewrite lookup_insert_eq, distanceToRectangle_dR.
    split; [apply list_elem_of_singleton; reflexivity | auto].
  - left. apply lookup_insert_ne. exact Hne.
Qed.

(** After the scan of a bucket the distance of each of its elements is
    the one written last under its identity. *)
Lemma scan_lookup nodes : forall σ e, e ∈ nodes ->
  exists e', e' ∈ nodes /\ eid e' = eid e /\
    scan nodes x y σ !! eid e = Some (Num (de e')).
Proof.
  induction nodes as [|n nodes IH]; intros σ e He; [inversion He|].
  rewrite scan_cons.
  destruct (scan_written_by nodes (<[eid n := distanceToRectangle (elem_rectangle n) x y]> σ) (eid e))
    as [Heq | (e' & He' & Hi & Hv)].
  - apply elem_of_cons in He as [-> | He].
    + exists n. split; [left|]. split; [reflexivity|].
      rewrite Heq, lookup_insert_eq, distanceToRectangle_dR. reflexivity.
    + destruct (IH (<[eid n := distanceToRectangle (elem_rectangle n) x y]> σ) e He)
        as (e' & He' & Hi & Hv).
      exists e'. split; [right; exact He' | auto].
  - exists e'. split; [right; exact He' | auto].
Qed.

Lemma stable_frame S S' σ σ' b :
  written_by x y S' σ σ' -> S' ⊆ S -> stable x y S σ b ->
  best_distance σ' b = best_distance σ b /\ stable x y S σ' b.
Proof.
  intros Hw Hsub Hst. destruct b as [|e]; [split; [reflexivity | exact I]|].
  assert (Heq : σ' !! eid e = σ !! eid e).
  { destruct (Hw (eid e)) as [Heq | (e' & He' & Hi & Hv)]; [exact Heq|].
    rewrite Hv. symmetry. apply Hst; [apply Hsub; exact He' | exact Hi]. }
  split.
  - cbn [best_distance]. unfold elem_distance. rewrite Heq. reflexivity.
  - intros e' He' Hi. rewrite Heq. apply Hst; assumption.
Qed.

Lemma Post_skip S S' b σ :
  (b = FreshNode -> S' = []) -> Post x y S S' b σ b σ.
Proof.
  intros Hb. split.
  - left. reflexivity.
  - apply written_by_refl.
  - intros Hf Hne. destruct (Hne (Hb Hf)).
  - intros _ _ Hst Hd. split; [apply dist_le_refl; exact Hd | exact Hst].
Qed.

Lemma Post_trans S S1 S2 b σ b1 σ1 b2 σ2 :
  Post x y S S1 b σ b1 σ1 -> Post x y S S2 b1 σ1 b2 σ2 -> Post x y S (S1 ++ S2) b σ b2 σ2.
Proof.
  intros [R1 F1 N1 M1] [R2 F2 N2 M2]. split.
  - destruct R2 as [-> | (e & -> & He)].
    + destruct R1 as [-> | (e & -> & He)]; [left; reflexivity|].
      right. exists e. rewrite elem_of_app. auto.
    + right. exists e. rewrite elem_of_app. auto.
  - eapply written_by_trans; eassumption.
  - intros Hb Hne. destruct S1 as [|s S1].
    + destruct R1 as [-> | (e & _ & He)]; [|inversion He].
      apply N2; assumption.
    + assert (Hb1 : b1 <> FreshNode) by (apply N1; [exact Hb | discriminate]).
      destruct R2 as [-> | (e & -> & He)]; [exact Hb1 | discriminate].
  - intros Hc Hsub Hst Hd.
    assert (Hsub1 : S1 ⊆ S) by (intros e He; apply Hsub, elem_of_app; auto).
    assert (Hsub2 : S2 ⊆ S) by (intros e He; apply Hsub, elem_of_app; auto).
    destruct (M1 Hc Hsub1 Hst Hd) as [Hle1 Hst1].
    destruct (M2 Hc Hsub2 Hst1 (dist_le_is_dist _ _ Hle1)) as [Hle2 Hst2].
    split; [eapply dist_le_trans; eassumption | exact Hst2].
Qed.

Lemma scanBucket_post S elements b σ :
  exists r σ',
    scanBucket elements x y (Some b) σ = Returns (Some r, σ') /\
    Post x y S elements b σ r σ'.
Proof.
  unfold scanBucket. destruct elements as [|n elements].
  { exists b, σ. split; [reflexivity|]. apply Post_skip. reflexivity. }
  cbn [length Nat.ltb Nat.leb]. rewrite bind_unfold.
  destruct (getMinDistance_spec x y (n :: elements) σ) as (r & -> & Hr).
  destruct r as [e|]; [|discriminate Hr].
  set (σ1 := scan (n :: elements) x y σ).
  assert (He : e ∈ n :: elements).
  { destruct Hr as (l1 & l2 & -> & _). rewrite elem_of_app. right. left. }
  destruct (scan_lookup (n :: elements) σ e He) as (e' & He' & Hid & Hv).
  fold σ1 in Hv.
  assert (Hw : written_by x y (n :: elements) σ σ1) by apply scan_written_by.
  rewrite bind_unfold. cbn [get_elem_distance]. rewrite bind_unfold.
  cbn [get_distance]. rewrite (elem_distance_lookup _ _ _ Hv).
  destruct (js_lt (Num (de e')) (best_distance σ1 b)) eqn:Hlt.
  - exists (BElem e), σ1. split; [reflexivity|]. split.
    + right. exists e. auto.
    + exact Hw.
    + discriminate.
    + intros Hc Hsub Hst Hd.
      destruct (stable_frame S _ σ σ1 b Hw Hsub Hst) as [Hbd Hst1].
      split.
      * cbn [best_distance]. rewrite (elem_distance_lookup _ _ _ Hv).
        rewrite <- Hbd. apply js_lt_dist_le; [rewrite Hbd; exact Hd | exact Hlt].
      * intros e'' He'' Hid''. rewrite Hv. do 2 f_equal. unfold de.
        rewrite (Hc e' e''); [reflexivity | apply Hsub; exact He' | exact He'' | congruence].
  - exists b, σ1. split; [reflexivity|]. split.
    + left. reflexivity.
    + exact Hw.
    + intros -> _. cbn in Hlt. discriminate.
    + intros Hc Hsub Hst Hd.
      destruct (stable_frame S _ σ σ1 b Hw Hsub Hst) as [Hbd Hst1].
      split; [rewrite Hbd; apply dist_le_refl; exact Hd | exact Hst1].
Qed.

Lemma visitChild_post S child q pointQuad b σ :
  (child <> null -> forall best σ,
     exists r σ', nearestNeighbor child x y best σ = Returns (Some r, σ') /\
       Post x y S (allElements child) (default FreshNode best) σ r σ') ->
  exists r σ',
    visitChild child q pointQuad x y (Some b) σ = Returns (Some r, σ') /\
    Post x y S (allElements child) b σ r σ'.
Proof.
  intros IH. destruct child as [|rc dc ec c1 c2 c3 c4].
  { exists b, σ. split; [reflexivity|]. apply Post_skip. reflexivity. }
  specialize (IH ltac:(discriminate) (Some b) σ). cbn [default from_option] in IH.
  unfold visitChild. rewrite bind_unfold.
  case_bool_decide.
  - rewrite ret_unfold. exact IH.
  - rewrite bind_unfold. cbn [get_distance]. rewrite ret_unfold.
    destruct (js_lt (distanceToRectangle rc x y) (best_distance σ b)) eqn:Hlt.
    + exact IH.
    + exists b, σ. split; [reflexivity|]. apply Post_skip.
      intros ->. rewrite distanceToRectangle_dR in Hlt. discriminate Hlt.
Qed.

(** The search of a present node returns a best, and what it has done
    is described by [Post] over the elements of the subtree. *)
Lemma nearestNeighbor_post S (n : Node) :
  n <> null -> forall best σ,
  exists r σ',
    nearestNeighbor n x y best σ = Returns (Some r, σ') /\
    Post x y S (allElements n) (default FreshNode best) σ r σ'.
Proof.
  induction n as [|rectangle distance elements nw IHnw ne IHne sw IHsw se IHse];
    intros Hn best σ; [congruence|].
  rewrite nearestNeighbor_unfold. cbn zeta.
  set (b := default FreshNode best).
  replace (match best with Some _ => best | None => Some FreshNode end)
    with (Some b) by (destruct best; reflexivity).
  destruct (scanBucket_post S elements b σ) as (b0 & σ0 & E0 & P0).
  rewrite bind_unfold, E0.
  destruct (visitChild_post S nw NW (quadWithPoint rectangle x y) b0 σ0 IHnw)
    as (b1 & σ1 & E1 & P1).
  rewrite bind_unfold, E1.
  destruct (visitChild_post S ne NE (quadWithPoint rectangle x y) b1 σ1 IHne)
    as (b2 & σ2 & E2 & P2).
  rewrite bind_unfold, E2.
  destruct (visitChild_post S sw SW (quadWithPoint rectangle x y) b2 σ2 IHsw)
    as (b3 & σ3 & E3 & P3).
  rewrite bind_unfold, E3.
  destruct (visitChild_post S se SE (quadWithPoint rectangle x y) b3 σ3 IHse)
    as (b4 & σ4 & E4 & P4).
  rewrite bind_unfold, E4.
  exists b4, σ4. split; [reflexivity|].
  cbn [allElements].
  eapply Post_trans; [exact P0|].
  eapply Post_trans; [exact P1|].
  eapply Post_trans; [exact P2|].
  eapply Post_trans; [exact P3 | exact P4].
Qed.

End search.

(** One call of [addElement] on a present node: it recurses into the child
    of a quadrant whose test the element passes, or it stores the element in
    the bucket when the element passes no test. *)
Lemma addElement_step fuel boundry d elements nw ne sw se e :
  (exists q,
     fits boundry (elem_rectangle e) q /\
     addElement (S fuel) (mkNode boundry d elements nw ne sw se) e =
     match addElement fuel (child_or_new boundry q (slot q nw ne sw se)) e with
     | Returns c' => Returns (with_slot q c' boundry d elements nw ne sw se)
     | TypeError => TypeError
     | StackOverflow => StackOverflow
     end) \/
  ((forall q, ~ fits boundry (elem_rectangle e) q) /\
   addElement (S fuel) (mkNode boundry d elements nw ne sw se) e =
   Returns (mkNode boundry d (elements ++ [e]) nw ne sw se)).
Proof.
  cbn [addElement].
  fold (xDiv boundry). fold (yDiv boundry).
  fold (child_or_new boundry NW nw). fold (child_or_new boundry NE ne).
  fold (child_or_new boundry SW sw). fold (child_or_new boundry SE se).
  rsplit;
    try (right; split;
         [ intros q; destruct q; cbn [fits]; lra | reflexivity ]);
    match goal with
    | |- context [addElement fuel (child_or_new boundry ?q _) e] =>
        left; exists q; cbn [fits slot with_slot]; split; [lra | reflexivity]
    end.
Qed.

Lemma addElement_inv fuel boundry d elements nw ne sw se e node' :
  addElement (S fuel) (mkNode boundry d elements nw ne sw se) e = Returns node' ->
  (exists q c',
     fits boundry (elem_rectangle e) q /\
     addElement fuel (child_or_new boundry q (slot q nw ne sw se)) e = Returns c' /\
     node' = with_slot q c' boundry d elements nw ne sw se) \/
  ((forall q, ~ fits boundry (elem_rectangle e) q) /\
   node' = mkNode boundry d (elements ++ [e]) nw ne sw se).
Proof.
  destruct (addElement_step fuel boundry d elements nw ne sw se e)
    as [(q & Hfit & ->) | (Hno & ->)]; intros H.
  - left. exists q.
    destruct (addElement fuel (child_or_new boundry q (slot q nw ne sw se)) e)
      as [c'| |]; try discriminate H.
    exists c'. split; [exact Hfit|]. split; [reflexivity | congruence].
  - right. split; [exact Hno | congruence].
Qed.

Lemma allElements_child_or_new boundry q child :
  allElements (child_or_new boundry q child) = allElements child.
Proof. destruct child; reflexivity. Qed.

Lemma allElements_with_slot q c boundry d elements nw ne sw se e :
  e ∈ allElements (with_slot q c boundry d elements nw ne sw se) <->
  e ∈ elements \/ e ∈ allElements c \/
  exists q', q' <> q /\ e ∈ allElements (slot q' nw ne sw se).
Proof.
  destruct q; cbn [with_slot allElements]; rewrite !elem_of_app; split.
  all: try (intros [H | [H | [H | [H | H]]]]; auto;
            right; right;
            first [ exists NW; split; [discriminate | exact H]
                  | exists NE; split; [discriminate | exact H]
                  | exists SW; split; [discriminate | exact H]
                  | exists SE; split; [discriminate | exact H] ]).
  all: intros [H | [H | (q' & Hq & H)]]; auto; destruct q'; cbn [slot] in H;
       try congruence; auto 6.
Qed.

Lemma allElements_slots boundry d elements nw ne sw se e :
  e ∈ allElements (mkNode boundry d elements nw ne sw se) <->
  e ∈ elements \/ exists q, e ∈ allElements (slot q nw ne sw se).
Proof.
  cbn [allElements]. rewrite !elem_of_app. split.
  - intros [H | [H | [H | [H | H]]]]; auto; right;
      [exists NW | exists NE | exists SW | exists SE]; exact H.
  - intros [H | (q & H)]; auto. destruct q; cbn [slot] in H; auto 6.
Qed.

(** [addElement] returns a present node over the same rectangle, which
    stores the new element and the ones stored before. *)
Lemma addElement_elements fuel : forall node e node',
  addElement fuel node e = Returns node' ->
  node' <> null /\ node_rectangle node' = node_rectangle node /\
  forall e', e' ∈ allElements node' <-> e' = e \/ e' ∈ allElements node.
Proof.
  induction fuel as [|fuel IH]; intros node e node' H; [discriminate H|].
  destruct node as [|boundry d elements nw ne sw se]; [discriminate H|].
  apply addElement_inv in H as [(q & c' & Hfit & Hrec & ->) | (Hno & ->)].
  - apply IH in Hrec as (_ & _ & Hmem).
    split; [destruct q; discriminate|]. split; [destruct q; reflexivity|].
    intros e'. rewrite allElements_with_slot, Hmem, allElements_child_or_new.
    rewrite allElements_slots. split.
    + intros [H | [[H | H] | (q' & Hq' & H)]]; eauto.
    + intros [H | [H | (q' & H)]]; auto.
      destruct (decide (q' = q)) as [-> | Hne]; eauto 6.
  - split; [discriminate|]. split; [reflexivity|].
    intros e'. cbn [allElements]. rewrite !elem_of_app, list_elem_of_singleton.
    tauto.
Qed.

Lemma fits_strictly boundry rect q :
  within boundry rect -> fits boundry rect q -> strictlyInQuadrant boundry q rect.
Proof.
  unfold strictlyInQuadrant, within.
  destruct q; cbn [fits getQuadrant left right top bottom]; unfold xDiv, yDiv; lra.
Qed.

Lemma strictly_fits boundry rect q :
  strictlyInQuadrant boundry q rect -> fits boundry rect q.
Proof.
  unfold strictlyInQuadrant. destruct q; cbn [fits]; lra.
Qed.

Lemma no_fit_straddles boundry rect :
  (forall q, ~ fits boundry rect q) -> straddles boundry rect.
Proof.
  intros H. unfold straddles.
  pose proof (H NW) as H1. pose proof (H NE) as H2.
  pose proof (H SW) as H3. pose proof (H SE) as H4.
  cbn [fits] in *.
  destruct (Rlt_dec (right rect) (xDiv boundry)); [right; lra|].
  destruct (Rlt_dec (xDiv boundry) (left rect)); [right; lra|].
  left; lra.
Qed.

(** [addElement] keeps the containment invariant when the element lies in
    the rectangle of the node. *)
Lemma addElement_containment fuel : forall node e node' r,
  node_rectangle node = Some r -> within r (elem_rectangle e) ->
  containment node ->
  addElement fuel node e = Returns node' -> containment node'.
Proof.
  induction fuel as [|fuel IH]; intros node e node' r Hr Hin Hc H; [discriminate H|].
  destruct node as [|boundry d elements nw ne sw se]; [discriminate H|].
  cbn [node_rectangle] in Hr. injection Hr as ->.
  destruct Hc as (Hb & Hch & Hnw & Hne & Hsw & Hse).
  apply addElement_inv in H as [(q & c' & Hfit & Hrec & ->) | (Hno & ->)].
  - pose proof (fits_strictly _ _ _ Hin Hfit) as Hstrict.
    pose proof (addElement_elements _ _ _ _ Hrec) as (Hnn & Hrect & Hmem).
    assert (Hrq : node_rectangle (child_or_new r q (slot q nw ne sw se))
                  = Some (getQuadrant r q)).
    { specialize (Hch q). unfold child_ok in Hch.
      destruct (slot q nw ne sw se); cbn in *; [reflexivity|].
      destruct Hch as [-> _]. reflexivity. }
    assert (Hcq : containment (child_or_new r q (slot q nw ne sw se))).
    { destruct q; cbn [slot]; 
        match goal with |- containment (child_or_new _ _ ?c) =>
          destruct c; [cbn; repeat split; try constructor; intros []; exact I | assumption]
        end. }
    assert (Hc' : containment c').
    { eapply IH; [exact Hrq | apply Hstrict | exact Hcq | exact Hrec]. }
    assert (Hok : child_ok r q c').
    { unfold child_ok. rewrite Hrect, Hrq. split; [reflexivity|].
      apply Forall_forall. intros e' He'. apply Hmem in He' as [-> | He'];
        [exact Hstrict|].
      rewrite allElements_child_or_new in He'.
      specialize (Hch q). unfold child_ok in Hch.
      destruct (slot q nw ne sw se); [inversion He'|].
      cbn [node_rectangle] in Hch. destruct Hch as [_ Hall].
      rewrite Forall_forall in Hall. apply Hall. exact He'. }
    destruct q; cbn [with_slot containment]; (split; [exact Hb|]);
      (split; [intros q'; destruct q'; cbn [slot];
               first [exact Hok | exact (Hch NW) | exact (Hch NE)
                     | exact (Hch SW) | exact (Hch SE)] |]);
      auto.
  - cbn [containment]. split; [|auto].
    apply Forall_app. split; [exact Hb|]. constructor; [|constructor].
    split; [|apply no_fit_straddles; exact Hno].
    intros q Hs. apply (Hno q), strictly_fits, Hs.
Qed.

(** ** The builder returns *)

Lemma child_or_new_rectangle r q nw ne sw se :
  (forall q, child_ok r q (slot q nw ne sw se)) ->
  node_rectangle (child_or_new r q (slot q nw ne sw se)) = Some (getQuadrant r q).
Proof.
  intros Hch. specialize (Hch q). unfold child_ok in Hch.
  destruct (slot q nw ne sw se); cbn in *; [reflexivity|].
  destruct Hch as [-> _]. reflexivity.
Qed.

Lemma child_or_new_containment r q nw ne sw se :
  containment nw -> containment ne -> containment sw -> containment se ->
  containment (child_or_new r q (slot q nw ne sw se)).
Proof.
  intros Hnw Hne Hsw Hse.
  destruct q; cbn [slot];
    match goal with |- containment (child_or_new _ _ ?c) =>
      destruct c; [cbn; repeat split; try constructor; intros []; exact I | assumption]
    end.
Qed.

Lemma stops_within_quadrant fuel r q rect :
  stops_within (S fuel) r rect -> stops_within fuel (getQuadrant r q) rect.
Proof.
  unfold stops_within, width, height. cbn [pow].
  destruct q; cbn [getQuadrant left right top bottom]; intros [H | H];
    [left | right | left | right | left | right | left | right]; lra.
Qed.

(** [addElement] returns when the element lies in the rectangle of the
    node and the fuel is enough for it. *)
Lemma addElement_returns fuel : forall node e r,
  node_rectangle node = Some r -> containment node ->
  within r (elem_rectangle e) -> stops_within fuel r (elem_rectangle e) ->
  exists node', addElement fuel node e = Returns node'.
Proof.
  induction fuel as [|fuel IH]; intros node e r Hr Hc Hin Hstop.
  - exfalso. unfold stops_within, width, height, within in *.
    cbn [pow] in Hstop. lra.
  - destruct node as [|boundry d elements nw ne sw se]; [discriminate Hr|].
    cbn [node_rectangle] in Hr. injection Hr as ->.
    destruct Hc as (Hb & Hch & Hnw & Hne & Hsw & Hse).
    destruct (addElement_step fuel r d elements nw ne sw se e)
      as [(q & Hfit & ->) | (Hno & ->)]; [|eexists; reflexivity].
    destruct (IH (child_or_new r q (slot q nw ne sw se)) e (getQuadrant r q))
      as [c' ->].
    + apply child_or_new_rectangle; exact Hch.
    + apply child_or_new_containment; assumption.
    + apply (fits_strictly r (elem_rectangle e) q Hin Hfit).
    + apply stops_within_quadrant; exact Hstop.
    + eexists; reflexivity.
Qed.

Lemma quadtree_loop_returns fuel : forall elements i root r,
  node_rectangle root = Some r -> containment root ->
  Forall (fun e => within r (boundingBox e) /\ stops_within fuel r (boundingBox e))
    elements ->
  exists root', quadtree_loop fuel i elements root = Returns root'.
Proof.
  induction elements as [|e elements IH]; intros i root r Hr Hc Hall.
  - eexists; reflexivity.
  - inversion Hall as [|? ? [Hin Hstop] Hall']; subst.
    cbn [quadtree_loop].
    destruct (addElement_returns fuel root (mkElement i e (boundingBox e)) r
                Hr Hc Hin Hstop) as [root1 E].
    rewrite E.
    pose proof (addElement_elements _ _ _ _ E) as (_ & Hrect & _).
    apply (IH (S i) root1 r); [congruence | | exact Hall'].
    apply (addElement_containment fuel root (mkElement i e (boundingBox e)) root1 r
             Hr Hin Hc E).
Qed.

Lemma containment_new_Node r : containment (new_Node r).
Proof. cbn. repeat split; try constructor. intros []; exact I. Qed.

(** [quadtree] returns when the elements lie in the bounding rectangle and
    the fuel is enough for each of them. *)
Lemma quadtree_returns fuel elements B :
  Forall (fun e => within B (boundingBox e) /\ stops_within fuel B (boundingBox e))
    elements ->
  exists root, quadtree fuel elements B = Returns root.
Proof.
  intros Hall. unfold quadtree.
  destruct (length elements =? 0)%nat; [eexists; reflexivity|].
  apply (quadtree_loop_returns fuel elements 0 (new_Node B) B);
    [reflexivity | apply containment_new_Node | exact Hall].
Qed.

Lemma pow2_unbounded W w :
  0 < w -> exists n, forall m, (n <= m)%nat -> W < 2 ^ m * w.
Proof.
  intros Hw.
  destruct (Pow_x_infinity 2 ltac:(rewrite Rabs_pos_eq; lra) (W / w + 1)) as [N HN].
  exists N. intros m Hm. specialize (HN m ltac:(lia)).
  rewrite Rabs_pos_eq in HN by (apply pow_le; lra).
  assert (HW : W / w * w = W) by (field; lra).
  assert (Hge : (W / w + 1) * w <= 2 ^ m * w)
    by (apply Rmult_le_compat_r; lra).
  lra.
Qed.

Lemma stops_within_exists B rect :
  0 < width rect \/ 0 < height rect ->
  exists n, forall m, (n <= m)%nat -> stops_within m B rect.
Proof.
  intros [H | H].
  - destruct (pow2_unbounded (width B) (width rect) H) as [n Hn].
    exists n. intros m Hm. left. apply Hn, Hm.
  - destruct (pow2_unbounded (height B) (height rect) H) as [n Hn].
    exists n. intros m Hm. right. apply Hn, Hm.
Qed.

(** For elements that lie in the bounding rectangle and are not a single
    point or negative in extent, some depth of the call stack is enough:
    [quadtree] returns a tree. *)
Lemma quadtree_terminates elements B :
  Forall (fun e => within B (boundingBox e) /\
                   (0 < innerWidth e \/ 0 < innerHeight e)) elements ->
  exists fuel, forall fuel', (fuel <= fuel')%nat ->
    exists root, quadtree fuel' elements B = Returns root.
Proof.
  intros Hall.
  assert (Hn : exists n, forall m, (n <= m)%nat ->
            Forall (fun e => within B (boundingBox e) /\
                             stops_within m B (boundingBox e)) elements).
  { induction Hall as [|e elements [Hin Hpos] _ IH].
    - exists 0%nat. intros; constructor.
    - destruct IH as [n1 Hn1].
      destruct (stops_within_exists B (boundingBox e)) as [n2 Hn2].
      { unfold width, height, boundingBox. cbn [left right top bottom].
        destruct Hpos; [left | right]; lra. }
      exists (Nat.max n1 n2). intros m Hm. constructor.
      + split; [exact Hin | apply Hn2; lia].
      + apply Hn1; lia. }
  destruct Hn as [n Hn]. exists n. intros m Hm.
  apply quadtree_returns, Hn, Hm.
Qed.

(** ** The example pages, evaluated *)

(** Unfold the search and the scans on a closed tree. *)
Ltac run :=
  cbv [nearestNeighbor getMinDistance getMinDistance_loop mbind M_bind mret M_ret
       set_distance get_distance get_elem_distance length Nat.ltb Nat.leb
       fmap option_fmap option_map best_distance elem_distance default from_option
       Datatypes.id js_lt fullScan fullScan_each snd visitChild].

(** Settle the comparisons of [pointQuad] with a quadrant. *)
Ltac qdecide :=
  repeat match goal with
  | |- context [bool_decide (@eq (option Quadrant) ?a ?b)] =>
      first [ rewrite (bool_decide_eq_true_2 (a = b)) by reflexivity
            | rewrite (bool_decide_eq_false_2 (a = b)) by discriminate ]
  end.

(** Unfold the builder on closed elements. *)
Ltac build :=
  repeat (cbn [quadtree quadtree_loop addElement new_Node boundingBox getQuadrant
               elem_rectangle position_left position_top innerWidth innerHeight
               top left bottom right length Nat.eqb app]; rdecide).

(** Compute a distance to a closed rectangle that falls in a band. *)
Ltac band :=
  unfold distanceToRectangle;
  cbn [elemA elemB elemC linkA linkB linkC page elem_rectangle boundingBox getQuadrant
       position_left position_top innerWidth innerHeight top left bottom right];
  rdecide; f_equal; rabs.

Lemma quadtree_AB : quadtree 2 [linkA; linkB] page = Returns treeAB.
Proof. unfold page, linkA, linkB, treeAB, elemA, elemB. build. reflexivity. Qed.

Lemma quadtree_C : quadtree 1 [linkC] page = Returns treeC.
Proof. unfold page, linkC, treeC, elemC. build. reflexivity. Qed.

Lemma within_page_AB : Forall (fun e => within page (boundingBox e)) [linkA; linkB].
Proof.
  repeat constructor;
    cbn [page linkA linkB boundingBox position_left position_top innerWidth
         innerHeight top left bottom right]; lra.
Qed.

Lemma wellFormed_AB : Forall (fun e => wellFormed (boundingBox e)) [linkA; linkB].
Proof.
  repeat constructor;
    cbn [linkA linkB boundingBox position_left position_top innerWidth
         innerHeight top left bottom right]; lra.
Qed.

Lemma distance_A : distanceToRectangle (elem_rectangle elemA) 50 25 = Num 10.
Proof. band. Qed.

Lemma distance_B : distanceToRectangle (elem_rectangle elemB) 50 25 = Num 1.
Proof. band. Qed.

Lemma distance_C : distanceToRectangle (elem_rectangle elemC) 50 50 = Num 10.
Proof. band. Qed.

Lemma distance_NE : distanceToRectangle (getQuadrant page NE) 50 25 = Num 25.
Proof. band. Qed.

Lemma quadWithPoint_page : quadWithPoint page 50 25 = Some NW.
Proof.
  unfold quadWithPoint; cbn [page getQuadrant top left bottom right].
  rdecide. reflexivity.
Qed.

Lemma search_AB :
  nearestNeighbor treeAB 50 25 None ∅
  = Returns (Some (BElem elemA), <[eid elemA := Num 10]> ∅).
Proof.
  unfold treeAB. run.
  rewrite quadWithPoint_page, distance_A, distance_NE. qdecide. run.
  repeat (rewrite !lookup_insert_eq; run; rdecide). reflexivity.
Qed.

Lemma fullScan_AB : fullScan [linkA; linkB] 50 25 = Some linkB.
Proof.
  run. change (boundingBox linkA) with (elem_rectangle elemA).
  change (boundingBox linkB) with (elem_rectangle elemB).
  rewrite distance_A, distance_B. run. rdecide. reflexivity.
Qed.

Lemma search_C :
  nearestNeighbor treeC 50 50 None ∅
  = Returns (Some (BElem elemC), <[eid elemC := Num 10]> ∅).
Proof.
  unfold treeC. run. rewrite distance_C. run.
  repeat (rewrite !lookup_insert_eq; run; rdecide). reflexivity.
Qed.


Lemma quadtree_loop_containment fuel : forall elements i root root' r,
  node_rectangle root = Some r ->
  Forall (fun e => within r (boundingBox e)) elements ->
  containment root ->
  quadtree_loop fuel i elements root = Returns root' -> containment root'.
Proof.
  induction elements as [|e elements IH]; intros i root root' r Hr Hall Hc H.
  - cbn in H. congruence.
  - cbn [quadtree_loop] in H.
    destruct (addElement fuel root (mkElement i e (boundingBox e))) as [root1| |] eqn:E;
      try discriminate H.
    inversion Hall as [|? ? He Hall']; subst.
    pose proof (addElement_elements _ _ _ _ E) as (_ & Hrect & _).
    eapply (IH (S i) root1 root' r); [congruence | exact Hall' | | exact H].
    apply (addElement_containment fuel root (mkElement i e (boundingBox e)) root1 r
             Hr He Hc E).
Qed.

(** The loop of [quadtree] returns a present node that stores an element
    for each member of a non-empty input. *)
Lemma quadtree_loop_elements fuel : forall elements i root root',
  root <> null ->
  quadtree_loop fuel i elements root = Returns root' ->
  root' <> null /\
  (elements <> [] \/ allElements root <> [] -> allElements root' <> []).
Proof.
  induction elements as [|e elements IH]; intros i root root' Hn H.
  - cbn in H. injection H as <-. split; [exact Hn|]. intros [Hne | Hne]; congruence.
  - cbn [quadtree_loop] in H.
    destruct (addElement fuel root (mkElement i e (boundingBox e))) as [root1| |] eqn:E;
      try discriminate H.
    pose proof (addElement_elements _ _ _ _ E) as (Hn1 & _ & Hmem).
    destruct (IH (S i) root1 root' Hn1 H) as (Hn' & Hne').
    split; [exact Hn'|]. intros _. apply Hne'. right.
    intros Hnil. specialize (Hmem (mkElement i e (boundingBox e))).
    rewrite Hnil in Hmem. destruct Hmem as [_ Hmem].
    specialize (Hmem (or_introl eq_refl)). inversion Hmem.
Qed.

Lemma length_eqb_0 {A} (l : list A) : (length l =? 0)%nat = true <-> l = [].
Proof. destruct l; cbn; split; congruence. Qed.

(** C5: in a tree that [quadtree] returns for elements whose rectangles lie
    in the bounding rectangle, at every node, every element of the bucket is
    strictly contained in none of the four quadrants of the node (it touches
    or crosses a dividing line), every child covers its quadrant, and every
    element stored under a child is strictly contained in the rectangle of
    that child: inside it, and off the dividing lines. *)
Theorem quadtree_containment (fuel : nat) (elements : list JQuery) (B : Rectangle)
    (root : Node) :
  Forall (fun e => within B (boundingBox e)) elements ->
  quadtree fuel elements B = Returns root ->
  containment root.
Proof.
  intros Hall H. unfold quadtree in H.
  destruct (length elements =? 0)%nat; [injection H as <-; exact I|].
  eapply (quadtree_loop_containment fuel elements 0 (new_Node B) root B);
    [reflexivity | exact Hall | | exact H].
  cbn. repeat split; try constructor. intros []; exact I.
Qed.

(** C7: [quadtree] returns no tree for an empty list, and only then; the
    search of what [quadtree] returns is [null] exactly when there is no
    tree, and on a tree it is an element stored in the tree, at every
    point. *)
Theorem search_null_iff_no_tree (fuel : nat) (elements : list JQuery) (B : Rectangle)
    (root : Node) (x y : R) (σ : Store) :
  quadtree fuel elements B = Returns root ->
  quadtree fuel [] B = Returns null /\
  (root = null <-> elements = []) /\
  exists res σ',
    nearestNeighbor root x y None σ = Returns (res, σ') /\
    (res = None <-> root = null) /\
    (root <> null -> exists e, e ∈ allElements root /\ res = Some (BElem e)).
Proof.
  intros H. split; [reflexivity|]. unfold quadtree in H.
  destruct (length elements =? 0)%nat eqn:Hlen.
  - injection H as <-. apply length_eqb_0 in Hlen. split; [tauto|].
    exists None, σ. split; [reflexivity|]. split; [tauto|]. congruence.
  - assert (Hne : elements <> []).
    { intros Hnil. apply length_eqb_0 in Hnil. congruence. }
    destruct (quadtree_loop_elements fuel elements 0 (new_Node B) root
                ltac:(discriminate) H) as (Hn & Hel).
    specialize (Hel (or_introl Hne)).
    split; [tauto|].
    destruct (nearestNeighbor_post x y [] root Hn None σ) as (r & σ' & E & P).
    cbn [default from_option] in P.
    destruct (post_result _ _ _ _ _ _ _ _ P) as [-> | (e & -> & He)].
    { destruct (post_found _ _ _ _ _ _ _ _ P eq_refl Hel). reflexivity. }
    exists (Some (BElem e)), σ'.
    split; [exact E|]. split; [split; [discriminate | tauto]|].
    intros _. exists e. auto.
Qed.

(** ** The search on the object graph *)

Lemma objects_bind_unfold {A B} (m : objects.H A) (k : A -> objects.H B) h :
  (m ≫= k) h =
  match m h with
  | Returns (a, h') => k a h'
  | TypeError => TypeError
  | StackOverflow => StackOverflow
  end.
Proof. reflexivity. Qed.

Lemma objects_nearestNeighbor_unfold fuel quadtree x y best :
  objects.nearestNeighbor (S fuel) (Some quadtree) x y best =
  (best ← match best with
          | None => b ← objects.new_Node; mret (Some b)
          | Some _ => mret best
          end;
   elements ← objects.get_elements quadtree;
   best ← scanBucket_objects elements x y best;
   rectangle ← objects.get_rectangle quadtree;
   let pointQuad := quadWithPoint rectangle x y in
   nw ← objects.get_child NW quadtree;
   best ← visitChild_objects fuel nw NW pointQuad x y best;
   ne ← objects.get_child NE quadtree;
   best ← visitChild_objects fuel ne NE pointQuad x y best;
   sw ← objects.get_child SW quadtree;
   best ← visitChild_objects fuel sw SW pointQuad x y best;
   se ← objects.get_child SE quadtree;
   best ← visitChild_objects fuel se SE pointQuad x y best;
   mret best).
Proof. reflexivity. Qed.

Section objects_search.
Variables (x y : R) (S : list Element).

Lemma stored_same h e e' :
  stored h e -> stored h e' -> eid e = eid e' ->
  element e = element e' /\ elem_rectangle e = elem_rectangle e'.
Proof.
  intros [d Hd] [d' Hd'] Hid. rewrite Hid in Hd. rewrite Hd in Hd'.
  injection Hd' as -> -> _. split; reflexivity.
Qed.

Lemma written_stored h e : written x y h e -> stored h e.
Proof. intros H. eexists. exact H. Qed.

Lemma written_same h e e' :
  stored h e -> written x y h e' -> eid e = eid e' -> written x y h e.
Proof.
  intros He He' Hid.
  destruct (stored_same h e e' He (written_stored _ _ He') Hid) as [Hel Hrc].
  unfold written in *. rewrite Hid, Hel, Hrc. exact He'.
Qed.

Lemma kept_refl h : kept x y S h h.
Proof. intros i o Hi. left. exact Hi. Qed.

Lemma kept_written h h' e : kept x y S h h' -> written x y h e -> written x y h' e.
Proof.
  intros Hk He. destruct (Hk _ _ He) as [Hi | (e' & _ & Hid & He' & Hw)];
    [exact Hi|].
  apply (written_same h' e e'); [|exact Hw | exact Hid].
  destruct (stored_same h e e' (written_stored _ _ He) He' Hid) as [Hel Hrc].
  destruct (written_stored _ _ Hw) as [d Hd].
  exists d. rewrite Hid, Hel, Hrc. exact Hd.
Qed.

Lemma kept_stored h h' e : kept x y S h h' -> stored h e -> stored h' e.
Proof.
  intros Hk [d Hd]. destruct (Hk _ _ Hd) as [Hi | (e' & _ & Hid & He' & Hw)].
  - exists d. exact Hi.
  - destruct (stored_same h e e' (ex_intro _ d Hd) He' Hid) as [Hel Hrc].
    destruct (written_stored _ _ Hw) as [d' Hd'].
    exists d'. rewrite Hid, Hel, Hrc. exact Hd'.
Qed.

Lemma kept_trans h1 h2 h3 :
  kept x y S h1 h2 -> kept x y S h2 h3 -> kept x y S h1 h3.
Proof.
  intros H12 H23 i o Hi.
  destruct (H12 _ _ Hi) as [Hi2 | (e & He & Hid & Hs & Hw)].
  - destruct (H23 _ _ Hi2) as [Hi3 | (e & He & Hid & Hs & Hw)];
      [left; exact Hi3|].
    right. exists e. repeat split; try assumption.
    destruct Hs as [d Hd]. exists d. rewrite <- Hid in *. congruence.
  - right. exists e. repeat split; try assumption.
    apply (kept_written h2); assumption.
Qed.

Lemma kept_node h h' o r d elements nw ne sw se :
  kept x y S h h' ->
  h !! o = Some (objects.ONode r d elements nw ne sw se) ->
  h' !! o = Some (objects.ONode r d elements nw ne sw se).
Proof.
  intros Hk Ho. destruct (Hk _ _ Ho) as [Hi | (e & _ & Hid & [d' Hd'] & _)];
    [exact Hi|].
  rewrite <- Hid in Hd'. congruence.
Qed.

Lemma kept_alive h h' best : kept x y S h h' -> alive h best -> alive h' best.
Proof.
  intros Hk (b & -> & [o Ho]). exists b. split; [reflexivity|].
  destruct (Hk _ _ Ho) as [Hi | (e & _ & Hid & _ & Hw)].
  - eexists. exact Hi.
  - rewrite Hid. eexists. exact Hw.
Qed.

Lemma kept_lays_out h h' t :
  kept x y S h h' -> forall l, lays_out h l t -> lays_out h' l t.
Proof.
  intros Hk. induction t as [|rectangle distance elements nw IHnw ne IHne sw IHsw se IHse];
    intros l Hl; [exact Hl|].
  destruct Hl as (o & lnw & lne & lsw & lse & -> & Ho & Hel & Hnw & Hne & Hsw & Hse).
  exists o, lnw, lne, lsw, lse. split; [reflexivity|].
  split; [exact (kept_node _ _ _ _ _ _ _ _ _ _ Hk Ho)|].
  split; [eapply Forall_impl; [exact Hel | intros e; apply kept_stored; exact Hk]|].
  auto.
Qed.

Lemma kept_set_distance h e :
  e ∈ S -> stored h e ->
  objects.set_distance (eid e) (distanceToRectangle (elem_rectangle e) x y) h
  = Returns (tt, <[eid e := objects.OElement (element e) (elem_rectangle e)
                              (distanceToRectangle (elem_rectangle e) x y)]> h) /\
  kept x y S h (<[eid e := objects.OElement (element e) (elem_rectangle e)
                              (distanceToRectangle (elem_rectangle e) x y)]> h).
Proof.
  intros He [d Hd]. unfold objects.set_distance. rewrite Hd. split; [reflexivity|].
  intros i o Hi. destruct (decide (i = eid e)) as [-> | Hne].
  - right. exists e. repeat split; [exact He | exists d; exact Hd |].
    unfold written. apply lookup_insert_eq.
  - left. rewrite lookup_insert_ne by congruence. exact Hi.
Qed.

Lemma get_rectangle_stored h e :
  stored h e -> objects.get_rectangle (eid e) h = Returns (elem_rectangle e, h).
Proof. intros [d Hd]. unfold objects.get_rectangle. rewrite Hd. reflexivity. Qed.

(** The loop of [getMinDistance] returns the best it was given or the
    reference of an element of the array, and writes the distance of each
    of them. *)
Lemma objects_getMinDistance_loop elements :
  forall min best h,
  Forall (stored h) elements -> (forall e, e ∈ elements -> e ∈ S) ->
  exists r h',
    objects.getMinDistance_loop (eid <$> elements) x y min best h = Returns (r, h') /\
    kept x y S h h' /\
    (forall e, e ∈ elements -> written x y h' e) /\
    (r = best \/ exists e, e ∈ elements /\ r = Some (eid e)).
Proof.
  induction elements as [|n elements IH]; intros min best h Hst HS.
  { exists best, h. split; [reflexivity|]. split; [apply kept_refl|].
    split; [|left; reflexivity]. intros e He. inversion He. }
  apply Forall_cons in Hst as [Hn Hst].
  assert (HnS : n ∈ S) by (apply HS; left).
  destruct (kept_set_distance h n HnS Hn) as [Eset Hk1].
  set (h1 := <[eid n := _]> h) in *.
  assert (Hst1 : Forall (stored h1) elements).
  { eapply Forall_impl; [exact Hst | intros e; apply kept_stored; exact Hk1]. }
  assert (HS1 : forall e, e ∈ elements -> e ∈ S) by (intros e He; apply HS; right; exact He).
  assert (Hw1 : written x y h1 n) by (unfold written, h1; apply lookup_insert_eq).
  cbn [fmap list_fmap objects.getMinDistance_loop].
  rewrite objects_bind_unfold, (get_rectangle_stored h n Hn).
  rewrite objects_bind_unfold, Eset.
  destruct (js_lt (distanceToRectangle (elem_rectangle n) x y) min).
  - destruct (IH (distanceToRectangle (elem_rectangle n) x y) (Some (eid n)) h1 Hst1 HS1)
      as (r & h' & E & Hk & Hw & Hr).
    exists r, h'. split; [exact E|]. split; [exact (kept_trans _ _ _ Hk1 Hk)|]. split.
    + intros e He. apply elem_of_cons in He as [-> | He]; [|exact (Hw e He)].
      exact (kept_written _ _ _ Hk Hw1).
    + right. destruct Hr as [-> | (e & He & ->)].
      * exists n. split; [left | reflexivity].
      * exists e. split; [right; exact He | reflexivity].
  - destruct (IH min best h1 Hst1 HS1) as (r & h' & E & Hk & Hw & Hr).
    exists r, h'. split; [exact E|]. split; [exact (kept_trans _ _ _ Hk1 Hk)|]. split.
    + intros e He. apply elem_of_cons in He as [-> | He]; [|exact (Hw e He)].
      exact (kept_written _ _ _ Hk Hw1).
    + destruct Hr as [-> | (e & He & ->)]; [left; reflexivity|].
      right. exists e. split; [right; exact He | reflexivity].
Qed.

Lemma objects_get_distance_alive h best :
  alive h best -> exists d, objects.get_distance best h = Returns (d, h).
Proof.
  intros (b & -> & [o Ho]). unfold objects.get_distance. rewrite Ho.
  destruct o; eexists; reflexivity.
Qed.

Lemma stored_alive h e : stored h e -> alive h (Some (eid e)).
Proof. intros [d Hd]. exists (eid e). split; [reflexivity | eexists; exact Hd]. Qed.

(** The scan of a bucket. *)
Lemma objects_scanBucket elements best h :
  Forall (stored h) elements -> (forall e, e ∈ elements -> e ∈ S) -> alive h best ->
  exists r h',
    scanBucket_objects (eid <$> elements) x y best h = Returns (r, h') /\
    kept x y S h h' /\ alive h' r /\
    (forall e, e ∈ elements -> written x y h' e) /\
    (r = best \/ exists e, e ∈ elements /\ r = Some (eid e)).
Proof.
  intros Hst HS Hb. unfold scanBucket_objects.
  destruct elements as [|n elements].
  { exists best, h. split; [reflexivity|]. split; [apply kept_refl|].
    split; [exact Hb|]. split; [|left; reflexivity]. intros e He. inversion He. }
  cbn [fmap list_fmap length Nat.ltb Nat.leb].
  pose proof Hst as Hst0. apply Forall_cons in Hst as [Hn Hst].
  assert (HnS : n ∈ S) by (apply HS; left).
  destruct (kept_set_distance h n HnS Hn) as [Eset Hk1].
  set (h1 := <[eid n := _]> h) in *.
  assert (Hst1 : Forall (stored h1) elements).
  { eapply Forall_impl; [exact Hst | intros e; apply kept_stored; exact Hk1]. }
  assert (HS1 : forall e, e ∈ elements -> e ∈ S) by (intros e He; apply HS; right; exact He).
  assert (Hw1 : written x y h1 n) by (unfold written, h1; apply lookup_insert_eq).
  rewrite objects_bind_unfold. unfold objects.getMinDistance.
  cbn [objects.getMinDistance_loop].
  rewrite objects_bind_unfold, (get_rectangle_stored h n Hn).
  rewrite objects_bind_unfold, Eset.
  assert (Hlt : js_lt (distanceToRectangle (elem_rectangle n) x y) PosInf = true)
    by (rewrite distanceToRectangle_dR; reflexivity).
  cbv zeta. rewrite Hlt.
  destruct (objects_getMinDistance_loop elements
              (distanceToRectangle (elem_rectangle n) x y) (Some (eid n)) h1 Hst1 HS1)
    as (r & h' & E & Hk & Hw & Hr).
  rewrite E.
  assert (Hk' : kept x y S h h') by exact (kept_trans _ _ _ Hk1 Hk).
  assert (Hst' : Forall (stored h') (n :: elements)).
  { eapply Forall_impl; [exact Hst0 | intros e; apply kept_stored; exact Hk']. }
  assert (Hr' : exists e, e ∈ n :: elements /\ r = Some (eid e)).
  { destruct Hr as [-> | (e & He & ->)].
    - exists n. split; [left | reflexivity].
    - exists e. split; [right; exact He | reflexivity]. }
  destruct Hr' as (e0 & He0 & ->).
  assert (Ha0 : alive h' (Some (eid e0))).
  { apply stored_alive. exact (proj1 (Forall_forall _ _) Hst' e0 He0). }
  destruct (objects_get_distance_alive h' _ Ha0) as [d Ed].
  destruct (objects_get_distance_alive h' best (kept_alive _ _ _ Hk' Hb)) as [bd Ebd].
  rewrite objects_bind_unfold, Ed, objects_bind_unfold, Ebd.
  assert (Hall : forall e, e ∈ n :: elements -> written x y h' e).
  { intros e He. apply elem_of_cons in He as [-> | He]; [|exact (Hw e He)].
    exact (kept_written _ _ _ Hk Hw1). }
  destruct (js_lt d bd).
  - exists (Some (eid e0)), h'. split; [reflexivity|]. split; [exact Hk'|].
    split; [exact Ha0|]. split; [exact Hall|]. right. exists e0. auto.
  - exists best, h'. split; [reflexivity|]. split; [exact Hk'|].
    split; [exact (kept_alive _ _ _ Hk' Hb)|]. split; [exact Hall|]. left. reflexivity.
Qed.

(** The visit of a child slot, given what the search does on the child. *)
Lemma objects_visitChild fuel c lc q pointQuad best h :
  (c <> null -> forall best h, lays_out h lc c -> alive h best ->
   exists r h',
     objects.nearestNeighbor fuel lc x y best h = Returns (r, h') /\
     kept x y S h h' /\ alive h' r /\
     (forall e, on_path x y e c -> written x y h' e) /\
     (r = best \/ exists e, e ∈ allElements c /\ r = Some (eid e))) ->
  lays_out h lc c -> alive h best ->
  exists r h',
    visitChild_objects fuel lc q pointQuad x y best h = Returns (r, h') /\
    kept x y S h h' /\ alive h' r /\
    (pointQuad = Some q -> forall e, on_path x y e c -> written x y h' e) /\
    (r = best \/ exists e, e ∈ allElements c /\ r = Some (eid e)).
Proof.
  intros IH Hl Hb. destruct c as [|rectangle distance elements nw ne sw se].
  { cbn [lays_out] in Hl. subst lc. exists best, h. split; [reflexivity|].
    split; [apply kept_refl|]. split; [exact Hb|].
    split; [intros _ e [] | left; reflexivity]. }
  pose proof Hl as Hl0.
  destruct Hl as (o & lnw & lne & lsw & lse & -> & Ho & _).
  unfold visitChild_objects. rewrite objects_bind_unfold.
  unfold objects.get_rectangle at 1. rewrite Ho. cbv zeta.
  rewrite objects_bind_unfold.
  destruct (IH ltac:(discriminate) best h Hl0 Hb) as (r & h' & E & Hk & Ha & Hw & Hr).
  case_bool_decide as Hq.
  - change ((mret true : objects.H bool) h) with (Returns (true, h) : outcome (bool * objects.Heap)).
    cbv iota. exists r, h'. split; [exact E|]. auto.
  - rewrite objects_bind_unfold.
    destruct (objects_get_distance_alive h best Hb) as [bd ->].
    change ((mret (js_lt (distanceToRectangle rectangle x y) bd) : objects.H bool) h)
      with (Returns (js_lt (distanceToRectangle rectangle x y) bd, h)
            : outcome (bool * objects.Heap)).
    cbv iota. destruct (js_lt _ bd).
    + exists r, h'. split; [exact E|]. split; [exact Hk|]. split; [exact Ha|].
      split; [|exact Hr]. intros Hq'. contradiction.
    + exists best, h. split; [reflexivity|]. split; [apply kept_refl|].
      split; [exact Hb|]. split; [|left; reflexivity]. intros Hq'. contradiction.
Qed.

End objects_search.

Lemma objects_get_child h o r d elements nw ne sw se q :
  h !! o = Some (objects.ONode r d elements nw ne sw se) ->
  objects.get_child q o h
  = Returns (match q with NW => nw | NE => ne | SW => sw | SE => se end, h).
Proof. intros Ho. unfold objects.get_child. rewrite Ho. reflexivity. Qed.

Lemma kept_new_Node x y S h :
  exists o,
    objects.new_Node h
    = Returns (o, <[o := objects.ONode None PosInf [] None None None None]> h) /\
    kept x y S h (<[o := objects.ONode None PosInf [] None None None None]> h) /\
    alive (<[o := objects.ONode None PosInf [] None None None None]> h) (Some o) /\
    h !! o = None.
Proof.
  exists (fresh (base.dom h)). split; [reflexivity|].
  assert (Hf : h !! fresh (base.dom h) = None).
  { apply not_elem_of_dom, is_fresh. }
  split; [|split; [|exact Hf]].
  - intros i o Hi. left. rewrite lookup_insert_ne; [exact Hi|].
    intros <-. congruence.
  - eexists. split; [reflexivity|]. rewrite lookup_insert_eq. eexists. reflexivity.
Qed.

Lemma returned_alive h best t r :
  alive h best -> returned h best t r ->
  r = best \/ exists e, e ∈ allElements t /\ r = Some (eid e).
Proof. intros (b & -> & _) [-> | Hr]; [left; reflexivity | right; exact Hr]. Qed.

(** On a tree laid out in the heap, with a stack deep enough for its
    levels, the search returns; it keeps every object but for the
    distances it writes, and it writes the distance of the elements on the
    path of the point. *)
Lemma objects_nearestNeighbor_post x y S t :
  forall fuel l best h,
  (levels t <= fuel)%nat -> t <> null -> lays_out h l t ->
  (forall e, e ∈ allElements t -> e ∈ S) ->
  best = None \/ alive h best ->
  exists r h',
    objects.nearestNeighbor fuel l x y best h = Returns (r, h') /\
    kept x y S h h' /\ alive h' r /\
    (forall e, on_path x y e t -> written x y h' e) /\
    returned h best t r.
Proof.
  induction t as [|rectangle distance elements nw IHnw ne IHne sw IHsw se IHse];
    intros fuel l best h Hfuel Hn Hl HS Hb; [contradiction|].
  cbn [levels] in Hfuel. destruct fuel as [|fuel]; [lia|].
  destruct Hl as (o & lnw & lne & lsw & lse & -> & Ho & Hel & Hnw & Hne & Hsw & Hse).
  cbn [allElements] in HS.
  assert (HSel : forall e, e ∈ elements -> e ∈ S)
    by (intros e He; apply HS; rewrite !elem_of_app; auto).
  assert (HSnw : forall e, e ∈ allElements nw -> e ∈ S)
    by (intros e He; apply HS; rewrite !elem_of_app; auto).
  assert (HSne : forall e, e ∈ allElements ne -> e ∈ S)
    by (intros e He; apply HS; rewrite !elem_of_app; auto).
  assert (HSsw : forall e, e ∈ allElements sw -> e ∈ S)
    by (intros e He; apply HS; rewrite !elem_of_app; auto).
  assert (HSse : forall e, e ∈ allElements se -> e ∈ S)
    by (intros e He; apply HS; rewrite !elem_of_app; auto 6).
  assert (child_post : forall c lc best h,
            (exists r h',
               objects.nearestNeighbor fuel lc x y best h = Returns (r, h') /\
               kept x y S h h' /\ alive h' r /\
               (forall e, on_path x y e c -> written x y h' e) /\
               returned h best c r) ->
            alive h best ->
            exists r h',
              objects.nearestNeighbor fuel lc x y best h = Returns (r, h') /\
              kept x y S h h' /\ alive h' r /\
              (forall e, on_path x y e c -> written x y h' e) /\
              (r = best \/ exists e, e ∈ allElements c /\ r = Some (eid e))).
  { intros c lc best' h' (r & h'' & E & Hk & Har & Hw & Hr) Ha.
    exists r, h''. split; [exact E|]. split; [exact Hk|]. split; [exact Har|].
    split; [exact Hw|]. exact (returned_alive _ _ _ _ Ha Hr). }
  rewrite objects_nearestNeighbor_unfold, objects_bind_unfold.
  (* the best on entry *)
  assert (exists b0 h0,
            match best with
            | None => objects.new_Node ≫= λ b, mret (Some b)
            | Some _ => mret best
            end h = Returns (b0, h0) /\ kept x y S h h0 /\ alive h0 b0 /\
            forall t, returned h best t b0)
    as (b0 & h0 & -> & Hk0 & Ha0 & Hr0).
  { destruct Hb as [-> | Hb].
    - destruct (kept_new_Node x y S h) as (b & E & Hk & Ha & Hf).
      exists (Some b). eexists. rewrite objects_bind_unfold, E.
      split; [reflexivity|]. split; [exact Hk|]. split; [exact Ha|].
      intros t. left. exists b. auto.
    - destruct Hb as (b & -> & Hb). exists (Some b), h.
      split; [reflexivity|]. split; [apply kept_refl|].
      split; [exists b; auto|]. intros t. left. reflexivity. }
  (* the bucket *)
  pose proof (kept_node _ _ _ _ _ _ _ _ _ _ _ _ _ Hk0 Ho) as Ho0.
  rewrite objects_bind_unfold. unfold objects.get_elements at 1. rewrite Ho0.
  assert (Hel0 : Forall (stored h0) elements).
  { eapply Forall_impl; [exact Hel | intros e; apply kept_stored with (1 := Hk0)]. }
  destruct (objects_scanBucket x y S elements b0 h0 Hel0 HSel Ha0)
    as (b1 & h1 & E1 & Hk1 & Ha1 & Hw1 & Hr1).
  rewrite objects_bind_unfold, E1.
  pose proof (kept_node _ _ _ _ _ _ _ _ _ _ _ _ _ Hk1 Ho0) as Ho1.
  rewrite objects_bind_unfold. unfold objects.get_rectangle at 1. rewrite Ho1.
  cbv zeta. set (pq := quadWithPoint rectangle x y).
  pose proof (kept_trans _ _ _ _ _ _ Hk0 Hk1) as Hk01.
  (* the north-west child *)
  rewrite objects_bind_unfold, (objects_get_child _ _ _ _ _ _ _ _ _ NW Ho1).
  destruct (objects_visitChild x y S fuel nw lnw NW pq b1 h1
              (fun Hc best h Hl Ha =>
                 child_post _ _ _ _ (IHnw fuel lnw best h ltac:(lia) Hc Hl HSnw (or_intror Ha)) Ha)
              (kept_lays_out _ _ _ _ _ _ Hk01 _ Hnw) Ha1)
    as (b2 & h2 & E2 & Hk2 & Ha2 & Hw2 & Hr2).
  rewrite objects_bind_unfold, E2.
  pose proof (kept_node _ _ _ _ _ _ _ _ _ _ _ _ _ Hk2 Ho1) as Ho2.
  pose proof (kept_trans _ _ _ _ _ _ Hk01 Hk2) as Hk02.
  (* the north-east child *)
  rewrite objects_bind_unfold, (objects_get_child _ _ _ _ _ _ _ _ _ NE Ho2).
  destruct (objects_visitChild x y S fuel ne lne NE pq b2 h2
              (fun Hc best h Hl Ha =>
                 child_post _ _ _ _ (IHne fuel lne best h ltac:(lia) Hc Hl HSne (or_intror Ha)) Ha)
              (kept_lays_out _ _ _ _ _ _ Hk02 _ Hne) Ha2)
    as (b3 & h3 & E3 & Hk3 & Ha3 & Hw3 & Hr3).
  rewrite objects_bind_unfold, E3.
  pose proof (kept_node _ _ _ _ _ _ _ _ _ _ _ _ _ Hk3 Ho2) as Ho3.
  pose proof (kept_trans _ _ _ _ _ _ Hk02 Hk3) as Hk03.
  (* the south-west child *)
  rewrite objects_bind_unfold, (objects_get_child _ _ _ _ _ _ _ _ _ SW Ho3).
  destruct (objects_visitChild x y S fuel sw lsw SW pq b3 h3
              (fun Hc best h Hl Ha =>
                 child_post _ _ _ _ (IHsw fuel lsw best h ltac:(lia) Hc Hl HSsw (or_intror Ha)) Ha)
              (kept_lays_out _ _ _ _ _ _ Hk03 _ Hsw) Ha3)
    as (b4 & h4 & E4 & Hk4 & Ha4 & Hw4 & Hr4).
  rewrite objects_bind_unfold, E4.
  pose proof (kept_node _ _ _ _ _ _ _ _ _ _ _ _ _ Hk4 Ho3) as Ho4.
  pose proof (kept_trans _ _ _ _ _ _ Hk03 Hk4) as Hk04.
  (* the south-east child *)
  rewrite objects_bind_unfold, (objects_get_child _ _ _ _ _ _ _ _ _ SE Ho4).
  destruct (objects_visitChild x y S fuel se lse SE pq b4 h4
              (fun Hc best h Hl Ha =>
                 child_post _ _ _ _ (IHse fuel lse best h ltac:(lia) Hc Hl HSse (or_intror Ha)) Ha)
              (kept_lays_out _ _ _ _ _ _ Hk04 _ Hse) Ha4)
    as (b5 & h5 & E5 & Hk5 & Ha5 & Hw5 & Hr5).
  rewrite objects_bind_unfold, E5.
  pose proof (kept_trans _ _ _ _ _ _ Hk04 Hk5) as Hk05.
  exists b5, h5. split; [reflexivity|]. split; [exact Hk05|]. split; [exact Ha5|].
  split; cycle 1.
  { assert (Hin : forall e b, e ∈ elements ++ allElements nw ++ allElements ne
                                ++ allElements sw ++ allElements se ->
                  b = Some (eid e) ->
                  returned h best (mkNode rectangle distance elements nw ne sw se) b).
    { intros e b He ->. right. exists e. auto. }
    destruct Hr5 as [-> | (e & He & ->)];
      [|apply (Hin e); [rewrite !elem_of_app; auto 6 | reflexivity]].
    destruct Hr4 as [-> | (e & He & ->)];
      [|apply (Hin e); [rewrite !elem_of_app; auto 6 | reflexivity]].
    destruct Hr3 as [-> | (e & He & ->)];
      [|apply (Hin e); [rewrite !elem_of_app; auto 6 | reflexivity]].
    destruct Hr2 as [-> | (e & He & ->)];
      [|apply (Hin e); [rewrite !elem_of_app; auto 6 | reflexivity]].
    destruct Hr1 as [-> | (e & He & ->)];
      [|apply (Hin e); [rewrite !elem_of_app; auto 6 | reflexivity]].
    apply Hr0. }
  intros e He. cbn [on_path] in He. fold pq in He.
  pose proof (kept_trans _ _ _ _ _ _ Hk4 Hk5) as Hk35.
  pose proof (kept_trans _ _ _ _ _ _ Hk3 Hk35) as Hk25.
  pose proof (kept_trans _ _ _ _ _ _ Hk2 Hk25) as Hk15.
  destruct He as [He | (q & Hq & He)].
  - exact (kept_written _ _ _ _ _ _ Hk15 (Hw1 e He)).
  - destruct q.
    + exact (kept_written _ _ _ _ _ _ Hk25 (Hw2 Hq e He)).
    + exact (kept_written _ _ _ _ _ _ Hk35 (Hw3 Hq e He)).
    + exact (kept_written _ _ _ _ _ _ Hk5 (Hw4 Hq e He)).
    + exact (Hw5 Hq e He).
Qed.

(** C9 (as amended): on a tree laid out in the heap as [Node] and
    [Element] objects, with a best that, when one is passed, is an object
    of the heap, and a stack deep enough for the levels of the tree, a
    search returns.  Every object it was given is afterwards what it was
    before, but for elements of the tree, whose [distance] alone may have
    become their distance from the query point: the heap lays out the same
    tree.  The [distance] of every element on the path of the query point,
    the bucket of the root first, is its distance from the query point.
    With no tree nothing is written and [null] is returned; otherwise the
    best that is returned is the one passed in, a new object when none was
    passed, or an element of the tree. *)
Theorem nearestNeighbor_writes_distances (h : objects.Heap) (l : option objects.ref)
    (t : Node) (x y : R) (best : option objects.ref) (fuel : nat) :
  lays_out h l t ->
  (forall b, best = Some b -> is_Some (h !! b)) ->
  (levels t < fuel)%nat ->
  exists r h',
    objects.nearestNeighbor fuel l x y best h = Returns (r, h') /\
    (forall i o, h !! i = Some o ->
       h' !! i = Some o \/
       exists e d, e ∈ allElements t /\ i = eid e /\
         o = objects.OElement (element e) (elem_rectangle e) d /\
         h' !! i = Some (objects.OElement (element e) (elem_rectangle e)
                           (distanceToRectangle (elem_rectangle e) x y))) /\
    lays_out h' l t /\
    (forall e, on_path x y e t ->
       h' !! eid e = Some (objects.OElement (element e) (elem_rectangle e)
                             (distanceToRectangle (elem_rectangle e) x y))) /\
    match t with
    | null => r = None /\ h' = h
    | _ => returned h best t r
    end.
Proof.
  intros Hl Hb Hfuel.
  destruct t as [|rectangle distance elements nw ne sw se].
  { cbn [lays_out] in Hl. subst l. destruct fuel as [|fuel]; [cbn in Hfuel; lia|].
    exists None, h. split; [reflexivity|]. split; [intros i o Hi; left; exact Hi|].
    split; [reflexivity|]. split; [intros e []|]. split; reflexivity. }
  set (t := mkNode rectangle distance elements nw ne sw se) in *.
  destruct (objects_nearestNeighbor_post x y (allElements t) t fuel l best h)
    as (r & h' & E & Hk & _ & Hw & Hr).
  - lia.
  - discriminate.
  - exact Hl.
  - auto.
  - destruct best as [b|]; [right | left; reflexivity].
    exists b. split; [reflexivity | apply Hb; reflexivity].
  - exists r, h'. split; [exact E|]. split; [|split; [|split]].
    + intros i o Hi. destruct (Hk i o Hi) as [Hi' | (e & He & Hid & [d Hd] & Hwe)];
        [left; exact Hi'|].
      right. exists e, d. split; [exact He|]. split; [exact Hid|].
      split; [rewrite <- Hid in Hd; congruence|]. rewrite Hid. exact Hwe.
    + exact (kept_lays_out _ _ _ _ _ _ Hk _ Hl).
    + exact Hw.
    + exact Hr.
Qed.


(** ** The claims on the example pages *)

Lemma quadtree_containment_witness :
  Forall (fun e => within page (boundingBox e)) [linkA; linkB] /\
  quadtree 2 [linkA; linkB] page = Returns treeAB /\
  containment treeAB.
Proof.
  split; [exact within_page_AB|]. split; [exact quadtree_AB|].
  exact (quadtree_containment 2 [linkA; linkB] page treeAB within_page_AB quadtree_AB).
Defined.

Lemma search_null_iff_no_tree_witness :
  quadtree 2 [linkA; linkB] page = Returns treeAB /\
  exists res σ',
    nearestNeighbor treeAB 50 25 None ∅ = Returns (res, σ') /\
    (res = None <-> treeAB = null) /\
    (treeAB <> null -> exists e, e ∈ allElements treeAB /\ res = Some (BElem e)).
Proof.
  split; [exact quadtree_AB|].
  exact (proj2 (proj2 (search_null_iff_no_tree 2 [linkA; linkB] page treeAB 50 25 ∅
                         quadtree_AB))).
Defined.

Lemma lays_out_C : lays_out heapC (Some 1%nat) treeC.
Proof.
  exists 1%nat, None, None, None, None. split; [reflexivity|].
  split; [unfold heapC; apply lookup_insert_eq|].
  split; [|cbn [lays_out]; auto].
  repeat constructor. exists Undefined. unfold heapC.
  rewrite lookup_insert_ne by (cbn; lia). apply lookup_insert_eq.
Qed.

Lemma lays_out_AB : lays_out heapAB (Some 2%nat) treeAB.
Proof.
  assert (HA : stored heapAB elemA).
  { exists Undefined. unfold heapAB.
    rewrite !lookup_insert_ne by (cbn; lia). apply lookup_insert_eq. }
  assert (HB : stored heapAB elemB).
  { exists Undefined. unfold heapAB.
    rewrite !lookup_insert_ne by (cbn; lia). apply lookup_insert_eq. }
  exists 2%nat, (Some 3%nat), (Some 4%nat), None, None. split; [reflexivity|].
  split; [unfold heapAB; rewrite !lookup_insert_ne by lia; apply lookup_insert_eq|].
  split; [constructor|]. split; [|split; [|split; reflexivity]].
  - exists 3%nat, None, None, None, None. split; [reflexivity|].
    split; [unfold heapAB; rewrite !lookup_insert_ne by lia; apply lookup_insert_eq|].
    split; [repeat constructor; exact HA | cbn [lays_out]; auto].
  - exists 4%nat, None, None, None, None. split; [reflexivity|].
    split; [unfold heapAB; apply lookup_insert_eq|].
    split; [repeat constructor; exact HB | cbn [lays_out]; auto].
Qed.

Lemma on_path_A : on_path 50 25 elemA treeAB.
Proof.
  right. exists NW. split; [exact quadWithPoint_page|]. left. left.
Qed.

(** Unfold the search on a closed heap. *)
Ltac run_objects :=
  cbv [mbind objects.H_bind mret objects.H_ret objects.new_Node objects.get_rectangle
       objects.set_distance objects.get_distance objects.get_elements
       objects.get_child objects.getMinDistance objects.getMinDistance_loop
       objects.nearestNeighbor length Nat.ltb Nat.leb js_lt].

Lemma fresh_heapC : fresh (base.dom heapC) = 2%nat.
Proof. unfold heapC. rewrite !dom_insert_L, dom_empty_L. vm_compute. reflexivity. Qed.

Lemma fresh_heapAB : fresh (base.dom heapAB) = 5%nat.
Proof. unfold heapAB. rewrite !dom_insert_L, dom_empty_L. vm_compute. reflexivity. Qed.

(** On the object graph of the page with [linkA] and [linkB] the search
    from (50,25) makes its [new Node()], writes the distance of [linkA]
    alone, and returns the element of [linkA], as the search on the tree
    value does. *)
Lemma search_heapAB :
  objects.nearestNeighbor 2 (Some 2%nat) 50 25 None heapAB
  = Returns (Some (eid elemA),
             <[eid elemA := objects.OElement linkA (boundingBox linkA) (Num 10)]>
               (<[5%nat := objects.ONode None PosInf [] None None None None]> heapAB)).
Proof.
  run_objects. rewrite fresh_heapAB. unfold heapAB.
  change (boundingBox linkA) with (elem_rectangle elemA).
  repeat (first [ rewrite lookup_insert_eq
                | rewrite lookup_insert_ne by lia
                | rewrite quadWithPoint_page
                | rewrite distance_A
                | rewrite distance_NE ];
          qdecide; run_objects; rdecide).
  reflexivity.
Qed.

Lemma nearestNeighbor_writes_distances_witness :
  quadtree 2 [linkA; linkB] page = Returns treeAB /\
  lays_out heapAB (Some 2%nat) treeAB /\
  heapAB !! eid elemB = Some (objects.OElement linkB (boundingBox linkB) Undefined) /\
  on_path 50 25 elemA treeAB /\
  exists r h',
    objects.nearestNeighbor 3 (Some 2%nat) 50 25 (Some (eid elemB)) heapAB
    = Returns (r, h') /\
    lays_out h' (Some 2%nat) treeAB /\
    h' !! eid elemA = Some (objects.OElement linkA (boundingBox linkA) (Num 10)).
Proof.
  assert (HB : heapAB !! eid elemB
               = Some (objects.OElement linkB (boundingBox linkB) Undefined)).
  { unfold heapAB. rewrite !lookup_insert_ne by (cbn; lia). apply lookup_insert_eq. }
  split; [exact quadtree_AB|].
  split; [exact lays_out_AB|]. split; [exact HB|]. split; [exact on_path_A|].
  destruct (nearestNeighbor_writes_distances heapAB (Some 2%nat) treeAB 50 25
              (Some (eid elemB)) 3 lays_out_AB)
    as (r & h' & E & _ & Hl & Hw & _).
  - intros b [= <-]. eexists. exact HB.
  - cbn. lia.
  - exists r, h'. split; [exact E|]. split; [exact Hl|].
    rewrite <- distance_A. exact (Hw elemA on_path_A).
Defined.

(** C9 (counterexample): the search of the one-link page from (50,50)
    gives the stored [Element] object a [distance], 10, where it had
    none. *)
Lemma nearestNeighbor_writes_store :
  lays_out heapC (Some 1%nat) treeC /\
  heapC !! eid elemC = Some (objects.OElement linkC (boundingBox linkC) Undefined) /\
  objects.nearestNeighbor 1 (Some 1%nat) 50 50 None heapC
  = Returns (Some (eid elemC),
             <[eid elemC := objects.OElement linkC (boundingBox linkC) (Num 10)]>
               (<[2%nat := objects.ONode None PosInf [] None None None None]> heapC)).
Proof.
  split; [exact lays_out_C|]. split.
  { unfold heapC. rewrite lookup_insert_ne by (cbn; lia). apply lookup_insert_eq. }
  run_objects. rewrite fresh_heapC. unfold heapC.
  change (boundingBox linkC) with (elem_rectangle elemC).
  repeat (first [ rewrite lookup_insert_eq
                | rewrite lookup_insert_ne by lia
                | rewrite distance_C ];
          run_objects).
  reflexivity.
Qed.




(** C2 (evaluation at the failing input): on the page with [linkA] and
    [linkB], both well-formed and inside the page, the tree search from
    (50,25) returns the element of [linkA], at distance 10, and the full
    scan returns [linkB], at distance 1. *)
Theorem tree_search_differs_from_fullScan :
  Forall (fun e => wellFormed (boundingBox e)) [linkA; linkB] /\
  Forall (fun e => within page (boundingBox e)) [linkA; linkB] /\
  quadtree 2 [linkA; linkB] page = Returns treeAB /\
  nearestNeighbor treeAB 50 25 None ∅
    = Returns (Some (BElem elemA), <[eid elemA := Num 10]> ∅) /\
  element elemA = linkA /\
  fullScan [linkA; linkB] 50 25 = Some linkB /\
  distanceToRectangle (boundingBox linkA) 50 25 = Num 10 /\
  distanceToRectangle (boundingBox linkB) 50 25 = Num 1.
Proof.
  split; [exact wellFormed_AB|]. split; [exact within_page_AB|].
  split; [exact quadtree_AB|]. split; [exact search_AB|].
  split; [reflexivity|].
  split; [exact fullScan_AB|]. split; [exact distance_A | exact distance_B].
Qed.

(** C3 (evaluation at the failing input): on the same page the north-east
    child stores [elemB], which lies in its region; from (50,25), a point of
    the north-west quadrant on the left edge of that region, the distance
    of the region is 25 and the distance of [elemB] is 1, and with a best at
    distance 10 the search skips the child. *)
Theorem region_distance_not_lower_bound :
  quadtree 2 [linkA; linkB] page = Returns treeAB /\
  within (getQuadrant page NE) (elem_rectangle elemB) /\
  distanceToRectangle (getQuadrant page NE) 50 25 = Num 25 /\
  distanceToRectangle (elem_rectangle elemB) 50 25 = Num 1 /\
  quadWithPoint page 50 25 = Some NW /\
  visitChild (mkNode (getQuadrant page NE) PosInf [elemB] null null null null)
    NE (quadWithPoint page 50 25) 50 25 (Some (BElem elemA)) (<[eid elemA := Num 10]> ∅)
  = Returns (Some (BElem elemA), <[eid elemA := Num 10]> ∅).
Proof.
  split; [exact quadtree_AB|]. split.
  { unfold within.
    cbn [page elemB linkB elem_rectangle boundingBox getQuadrant position_left
         position_top innerWidth innerHeight top left bottom right]. lra. }
  split; [exact distance_NE|]. split; [exact distance_B|].
  split; [exact quadWithPoint_page|].
  rewrite quadWithPoint_page. run. rewrite distance_NE. qdecide. run.
  rewrite !lookup_insert_eq. run. rdecide. reflexivity.
Qed.

(** * Further properties *)

(** ** The quadrants of a rectangle *)

Lemma getQuadrant_within rect q : wellFormed rect -> within rect (getQuadrant rect q).
Proof.
  intros [Hv Hh]. unfold within.
  destruct q; cbn [getQuadrant left right top bottom]; lra.
Qed.

Lemma getQuadrant_wellFormed rect q : wellFormed rect -> wellFormed (getQuadrant rect q).
Proof.
  intros [Hv Hh]. unfold wellFormed.
  destruct q; cbn [getQuadrant left right top bottom]; lra.
Qed.

(** X1: the four quadrants of a well-formed rectangle tile it: each is a
    well-formed rectangle inside it of half its width and half its height,
    a point is in or on the rectangle exactly when it is in or on one of
    the quadrants, and two different quadrants share only points of the
    dividing lines. *)
Theorem getQuadrant_tiles (rect : Rectangle) :
  wellFormed rect ->
  (forall q, wellFormed (getQuadrant rect q) /\ within rect (getQuadrant rect q) /\
             width (getQuadrant rect q) = width rect / 2 /\
             height (getQuadrant rect q) = height rect / 2) /\
  (forall x y, insideOrOn rect x y <-> exists q, insideOrOn (getQuadrant rect q) x y) /\
  (forall q q' x y, q <> q' ->
     insideOrOn (getQuadrant rect q) x y -> insideOrOn (getQuadrant rect q') x y ->
     x = xDiv rect \/ y = yDiv rect).
Proof.
  intros Hwf. pose proof Hwf as [Hv Hh]. split; [|split].
  - intros q. split; [apply getQuadrant_wellFormed, Hwf|].
    split; [apply getQuadrant_within, Hwf|].
    unfold width, height. destruct q; cbn [getQuadrant left right top bottom]; lra.
  - intros x y. split.
    + intros [Hx Hy].
      destruct (Rle_dec x (xDiv rect)), (Rle_dec y (yDiv rect));
        [exists NW | exists SW | exists NE | exists SE];
        unfold insideOrOn, xDiv, yDiv in *;
        cbn [getQuadrant left right top bottom]; lra.
    + intros [q Hq]. unfold insideOrOn in *.
      destruct q; cbn [getQuadrant left right top bottom] in Hq; lra.
  - intros q q' x y Hne Hq Hq'. unfold insideOrOn, xDiv, yDiv in *.
    destruct q, q'; try congruence;
      cbn [getQuadrant left right top bottom] in Hq, Hq'; lra.
Qed.

Lemma quadWithPoint_cases rectangle x y :
  quadWithPoint rectangle x y =
  Some (if bool_decide (x <= xDiv rectangle)
        then if bool_decide (y <= yDiv rectangle) then NW else SW
        else if bool_decide (y <= yDiv rectangle) then NE else SE).
Proof.
  unfold quadWithPoint, xDiv, yDiv. cbn [getQuadrant right bottom].
  repeat case_bool_decide; cbn [andb]; try reflexivity; lra.
Qed.

(** X2: [quadWithPoint] never returns the [null] it starts with; a point in
    or on the rectangle is in or on the quadrant returned; a point in the
    interior of a quadrant is given that quadrant; a point on a dividing
    line is given the upper or left quadrant, so the centre is in NW. *)
Theorem quadWithPoint_total (rectangle : Rectangle) (x y : R) :
  exists q,
    quadWithPoint rectangle x y = Some q /\
    (insideOrOn rectangle x y -> insideOrOn (getQuadrant rectangle q) x y) /\
    (forall q', strictlyInside (getQuadrant rectangle q') x y -> q' = q) /\
    (x = xDiv rectangle -> q = NW \/ q = SW) /\
    (y = yDiv rectangle -> q = NW \/ q = NE).
Proof.
  rewrite quadWithPoint_cases. eexists. split; [reflexivity|].
  unfold insideOrOn, strictlyInside, xDiv, yDiv.
  repeat case_bool_decide; (split; [|split; [|split]]);
    try (intros q'; destruct q'); cbn [getQuadrant left right top bottom];
    try lra; auto; try (intros; exfalso; lra).
Qed.

Lemma fits_quadWithPoint boundry rect q x y :
  fits boundry rect q -> insideOrOn rect x y -> quadWithPoint boundry x y = Some q.
Proof.
  intros Hfit [Hx Hy]. rewrite quadWithPoint_cases.
  destruct q; cbn [fits] in Hfit; rdecide; reflexivity.
Qed.

Lemma child_with_slot q c boundry d elements nw ne sw se :
  child q (with_slot q c boundry d elements nw ne sw se) = c.
Proof. destruct q; reflexivity. Qed.

(** X3: insertion and point classification agree: after [addElement] has
    stored an element, the element is in the bucket of the node or under
    the child of the quadrant that [quadWithPoint] gives to any point in or
    on the rectangle of the element. *)
Theorem addElement_agrees_with_quadWithPoint (fuel : nat) (node : Node)
    (e : Element) (node' : Node) (x y : R) :
  addElement fuel node e = Returns node' ->
  insideOrOn (elem_rectangle e) x y ->
  exists r q,
    node_rectangle node = Some r /\ quadWithPoint r x y = Some q /\
    (e ∈ bucket node' \/ e ∈ allElements (child q node')).
Proof.
  intros H Hin. destruct fuel as [|fuel]; [discriminate H|].
  destruct node as [|boundry d elements nw ne sw se]; [discriminate H|].
  exists boundry.
  apply addElement_inv in H as [(q & c' & Hfit & Hrec & ->) | (Hno & ->)].
  - exists q. split; [reflexivity|].
    split; [exact (fits_quadWithPoint _ _ _ _ _ Hfit Hin)|].
    right. rewrite child_with_slot.
    apply (addElement_elements _ _ _ _ Hrec). left. reflexivity.
  - eexists.
    split; [reflexivity|]. split; [rewrite quadWithPoint_cases; reflexivity|].
    left. cbn [bucket]. rewrite elem_of_app, list_elem_of_singleton. auto.
Qed.

(** ** The distance between two points *)

Lemma pythagoreanDistance_sqr x0 y0 x1 y1 :
  pythagoreanDistance x0 y0 x1 y1 * pythagoreanDistance x0 y0 x1 y1
  = (y1 - y0) * (y1 - y0) + (x1 - x0) * (x1 - x0).
Proof.
  unfold pythagoreanDistance. cbv zeta. apply sqrt_sqrt.
  pose proof (Rle_0_sqr (y1 - y0)). pose proof (Rle_0_sqr (x1 - x0)).
  unfold Rsqr in *. lra.
Qed.

Lemma pythagoreanDistance_nonneg x0 y0 x1 y1 : 0 <= pythagoreanDistance x0 y0 x1 y1.
Proof. unfold pythagoreanDistance. apply sqrt_pos. Qed.

(** X4: [pythagoreanDistance] is not negative, it is zero exactly between a
    point and itself, it is the same in both directions, and it does not
    decrease when the two points move apart on both axes. *)
Theorem pythagoreanDistance_monotone (x0 y0 x1 y1 x2 y2 x3 y3 : R) :
  0 <= pythagoreanDistance x0 y0 x1 y1 /\
  (pythagoreanDistance x0 y0 x1 y1 = 0 <-> x0 = x1 /\ y0 = y1) /\
  pythagoreanDistance x0 y0 x1 y1 = pythagoreanDistance x1 y1 x0 y0 /\
  (Rabs (x1 - x0) <= Rabs (x3 - x2) -> Rabs (y1 - y0) <= Rabs (y3 - y2) ->
   pythagoreanDistance x0 y0 x1 y1 <= pythagoreanDistance x2 y2 x3 y3).
Proof.
  split; [apply pythagoreanDistance_nonneg|]. split; [|split].
  - split.
    + intros H0. pose proof (pythagoreanDistance_sqr x0 y0 x1 y1) as Hs.
      rewrite H0 in Hs.
      pose proof (Rle_0_sqr (y1 - y0)) as Hy. pose proof (Rle_0_sqr (x1 - x0)) as Hx.
      unfold Rsqr in *.
      assert (Hx0 : (x1 - x0) * (x1 - x0) = 0) by lra.
      assert (Hy0 : (y1 - y0) * (y1 - y0) = 0) by lra.
      apply Rmult_integral in Hx0, Hy0. lra.
    + intros [-> ->]. unfold pythagoreanDistance. cbv zeta.
      replace ((y1 - y1) * (y1 - y1) + (x1 - x1) * (x1 - x1)) with 0 by ring.
      apply sqrt_0.
  - unfold pythagoreanDistance. cbv zeta. f_equal. ring.
  - intros Hx Hy. unfold pythagoreanDistance. cbv zeta. apply sqrt_le_1_alt.
    apply Rsqr_le_abs_1 in Hx, Hy. unfold Rsqr in Hx, Hy. lra.
Qed.

Lemma pythagoreanDistance_monotone_witness :
  Rabs (3 - 0) <= Rabs (5 - 1) /\ Rabs (4 - 0) <= Rabs (6 - 1) /\
  pythagoreanDistance 0 0 3 4 <= pythagoreanDistance 1 1 5 6.
Proof.
  assert (Hx : Rabs (3 - 0) <= Rabs (5 - 1)) by rabs.
  assert (Hy : Rabs (4 - 0) <= Rabs (6 - 1)) by rabs.
  split; [exact Hx|]. split; [exact Hy|].
  exact (proj2 (proj2 (proj2 (pythagoreanDistance_monotone 0 0 3 4 1 1 5 6))) Hx Hy).
Defined.

(** ** What the builder stores *)

Lemma allElements_with_slot_perm q c boundry d elements nw ne sw se e :
  allElements c ≡ₚ allElements (slot q nw ne sw se) ++ [e] ->
  allElements (with_slot q c boundry d elements nw ne sw se)
  ≡ₚ allElements (mkNode boundry d elements nw ne sw se) ++ [e].
Proof.
  intros Hc. destruct q; cbn [with_slot allElements slot] in *; rewrite Hc;
    solve_Permutation.
Qed.

(** [addElement] stores the new element once and keeps what was stored. *)
Lemma addElement_perm fuel : forall node e node',
  addElement fuel node e = Returns node' ->
  allElements node' ≡ₚ allElements node ++ [e].
Proof.
  induction fuel as [|fuel IH]; intros node e node' H; [discriminate H|].
  destruct node as [|boundry d elements nw ne sw se]; [discriminate H|].
  apply addElement_inv in H as [(q & c' & Hfit & Hrec & ->) | (Hno & ->)].
  - apply allElements_with_slot_perm. apply IH in Hrec.
    rewrite allElements_child_or_new in Hrec. exact Hrec.
  - cbn [allElements]. solve_Permutation.
Qed.

Lemma quadtree_loop_perm fuel : forall elements i root root',
  quadtree_loop fuel i elements root = Returns root' ->
  allElements root' ≡ₚ allElements root ++ created i elements.
Proof.
  induction elements as [|e elements IH]; intros i root root' H.
  - cbn in H. injection H as <-. cbn [created]. rewrite app_nil_r. reflexivity.
  - cbn [quadtree_loop] in H.
    destruct (addElement fuel root (mkElement i e (boundingBox e))) as [root1| |] eqn:E;
      try discriminate H.
    rewrite (IH _ _ _ H), (addElement_perm _ _ _ _ E). cbn [created].
    rewrite <- app_assoc. reflexivity.
Qed.

Lemma quadtree_perm fuel elements B root :
  quadtree fuel elements B = Returns root ->
  allElements root ≡ₚ created 0 elements.
Proof.
  unfold quadtree. destruct elements as [|e elements].
  - cbn. intros [= <-]. reflexivity.
  - cbn [length Nat.eqb]. intros H. apply quadtree_loop_perm in H. exact H.
Qed.

Lemma created_element i elements : map element (created i elements) = elements.
Proof.
  revert i. induction elements as [|e elements IH]; intros i; [reflexivity|].
  cbn [created map element]. rewrite IH. reflexivity.
Qed.

Lemma created_eid i elements : map eid (created i elements) = seq i (length elements).
Proof.
  revert i. induction elements as [|e elements IH]; intros i; [reflexivity|].
  cbn [created map eid length seq]. rewrite IH. reflexivity.
Qed.

Lemma created_rectangle i elements :
  Forall (fun e => elem_rectangle e = boundingBox (element e)) (created i elements).
Proof.
  revert i. induction elements as [|e elements IH]; intros i; constructor;
    [reflexivity | apply IH].
Qed.

(** X5: the tree [quadtree] returns stores each member of its input
    exactly once and nothing else: the payloads of the stored elements
    are a permutation of the input list, each stored element has the
    bounding box of its payload as rectangle, and the stored element
    objects are pairwise distinct. *)
Theorem quadtree_stores_input (fuel : nat) (elements : list JQuery) (B : Rectangle)
    (root : Node) :
  quadtree fuel elements B = Returns root ->
  map element (allElements root) ≡ₚ elements /\
  Forall (fun e => elem_rectangle e = boundingBox (element e)) (allElements root) /\
  NoDup (map eid (allElements root)).
Proof.
  intros H. apply quadtree_perm in H. split; [|split].
  - rewrite H. rewrite created_element. reflexivity.
  - rewrite H. apply created_rectangle.
  - rewrite H, created_eid. apply NoDup_seq.
Qed.

Lemma populated_child_or_new r q c :
  populated c -> children_populated (child_or_new r q c).
Proof.
  intros Hc q'. destruct c as [|rc dc ec c1 c2 c3 c4].
  - destruct q'; exact I.
  - cbn [child_or_new child]. destruct Hc as (_ & H1 & H2 & H3 & H4).
    destruct q'; assumption.
Qed.

(** [addElement] leaves no node without an element below it. *)
Lemma addElement_populated fuel : forall node e node',
  children_populated node ->
  addElement fuel node e = Returns node' -> populated node'.
Proof.
  induction fuel as [|fuel IH]; intros node e node' Hch H; [discriminate H|].
  destruct node as [|boundry d elements nw ne sw se]; [discriminate H|].
  pose proof (addElement_perm _ _ _ _ H) as Hperm.
  assert (Hne : allElements node' <> []).
  { intros Hnil. rewrite Hnil in Hperm. symmetry in Hperm.
    apply Permutation_nil_r in Hperm. destruct (allElements _); discriminate. }
  apply addElement_inv in H as [(q & c' & Hfit & Hrec & ->) | (Hno & ->)].
  - assert (Hc' : populated c').
    { eapply IH; [|exact Hrec]. apply populated_child_or_new. exact (Hch q). }
    pose proof (Hch NW) as H1. pose proof (Hch NE) as H2.
    pose proof (Hch SW) as H3. pose proof (Hch SE) as H4.
    cbn [child slot] in H1, H2, H3, H4.
    destruct q; cbn [with_slot populated allElements] in *; auto.
  - pose proof (Hch NW) as H1. pose proof (Hch NE) as H2.
    pose proof (Hch SW) as H3. pose proof (Hch SE) as H4.
    cbn [child slot] in H1, H2, H3, H4.
    cbn [populated allElements] in *. auto.
Qed.

Lemma populated_children n : populated n -> children_populated n.
Proof.
  destruct n as [|r d els c1 c2 c3 c4]; intros H q; [exact I|].
  destruct H as (_ & H1 & H2 & H3 & H4). destruct q; assumption.
Qed.

Lemma quadtree_loop_populated fuel : forall elements i root root',
  children_populated root -> (elements = [] -> populated root) ->
  quadtree_loop fuel i elements root = Returns root' -> populated root'.
Proof.
  induction elements as [|e elements IH]; intros i root root' Hch Hnil H.
  - cbn in H. injection H as <-. apply Hnil. reflexivity.
  - cbn [quadtree_loop] in H.
    destruct (addElement fuel root (mkElement i e (boundingBox e))) as [root1| |] eqn:E;
      try discriminate H.
    pose proof (addElement_populated _ _ _ _ Hch E) as Hp.
    apply (IH (S i) root1 root'); [apply populated_children, Hp | intros _; exact Hp | exact H].
Qed.

(** X6: children are made only when an element is sent into them: in the
    tree [quadtree] returns, every node, the root included, stores at least
    one element in its bucket or below it. *)
Theorem quadtree_populated (fuel : nat) (elements : list JQuery) (B : Rectangle)
    (root : Node) :
  quadtree fuel elements B = Returns root -> populated root.
Proof.
  unfold quadtree. destruct elements as [|e elements].
  - cbn. intros [= <-]. exact I.
  - cbn [length Nat.eqb]. apply quadtree_loop_populated.
    + intros q; destruct q; exact I.
    + discriminate.
Qed.

(** ** Elements beyond the bounding rectangle *)

Lemma shaped_child_or_new r q nw ne sw se :
  shaped (mkNode r PosInf [] nw ne sw se) ->
  node_rectangle (child_or_new r q (slot q nw ne sw se)) = Some (getQuadrant r q) /\
  shaped (child_or_new r q (slot q nw ne sw se)).
Proof.
  intros (Hq & H1 & H2 & H3 & H4). specialize (Hq q).
  assert (Hs : shaped (slot q nw ne sw se)) by (destruct q; assumption).
  destruct (slot q nw ne sw se) as [|rc dc ec c1 c2 c3 c4].
  - split; [reflexivity|]. cbn. repeat split; try exact I. intros []; exact I.
  - cbn in Hq. subst rc. split; [reflexivity | exact Hs].
Qed.

(** [addElement] keeps every child on the quadrant of its slot. *)
Lemma addElement_shaped fuel : forall node e node',
  shaped node -> addElement fuel node e = Returns node' -> shaped node'.
Proof.
  induction fuel as [|fuel IH]; intros node e node' Hs H; [discriminate H|].
  destruct node as [|boundry d elements nw ne sw se]; [discriminate H|].
  apply addElement_inv in H as [(q & c' & Hfit & Hrec & ->) | (Hno & ->)];
    [|exact Hs].
  destruct (shaped_child_or_new boundry q nw ne sw se Hs) as [Hr Hsc].
  pose proof (IH _ _ _ Hsc Hrec) as Hc'.
  pose proof (addElement_elements _ _ _ _ Hrec) as (_ & Hrect & _).
  rewrite Hr in Hrect.
  destruct Hs as (Hq & H1 & H2 & H3 & H4).
  destruct q; cbn [with_slot shaped]; (split; [|auto]);
    intros q'; specialize (Hq q'); destruct q'; cbn [slot] in *;
    try exact Hq; rewrite Hrect; reflexivity.
Qed.

Lemma beyond_corner_fits boundry rect :
  wellFormed boundry -> beyond_corner boundry rect -> exists q, fits boundry rect q.
Proof.
  intros [Hv Hh] [[Hy | Hy] [Hx | Hx]];
    [exists NW | exists NE | exists SW | exists SE];
    cbn [fits]; unfold xDiv, yDiv; lra.
Qed.

Lemma beyond_corner_quadrant boundry rect q :
  wellFormed boundry -> beyond_corner boundry rect ->
  beyond_corner (getQuadrant boundry q) rect.
Proof.
  intros [Hv Hh]. unfold beyond_corner.
  destruct q; cbn [getQuadrant left right top bottom]; lra.
Qed.

(** [addElement] never stores an element that lies beyond a corner of the
    rectangle of the node: it recurses until the stack is exhausted. *)
Lemma addElement_beyond_corner fuel : forall node r e,
  node_rectangle node = Some r -> shaped node -> wellFormed r ->
  beyond_corner r (elem_rectangle e) ->
  addElement fuel node e = StackOverflow.
Proof.
  induction fuel as [|fuel IH]; intros node r e Hr Hs Hwf Hb; [reflexivity|].
  destruct node as [|boundry d elements nw ne sw se]; [discriminate Hr|].
  cbn [node_rectangle] in Hr. injection Hr as ->.
  destruct (addElement_step fuel r d elements nw ne sw se e)
    as [(q & Hfit & ->) | (Hno & _)].
  - assert (Hs' : shaped (mkNode r PosInf [] nw ne sw se)) by exact Hs.
    destruct (shaped_child_or_new r q nw ne sw se Hs') as [Hrq Hsq].
    rewrite (IH _ (getQuadrant r q) e Hrq Hsq).
    + reflexivity.
    + apply getQuadrant_wellFormed, Hwf.
    + apply beyond_corner_quadrant; assumption.
  - destruct (beyond_corner_fits r (elem_rectangle e) Hwf Hb) as [q Hq].
    destruct (Hno q Hq).
Qed.

Lemma addElement_no_TypeError fuel : forall node e,
  node <> null -> addElement fuel node e <> TypeError.
Proof.
  induction fuel as [|fuel IH]; intros node e Hn; [discriminate|].
  destruct node as [|boundry d elements nw ne sw se]; [congruence|].
  destruct (addElement_step fuel boundry d elements nw ne sw se e)
    as [(q & Hfit & ->) | (Hno & ->)]; [|discriminate].
  specialize (IH (child_or_new boundry q (slot q nw ne sw se)) e).
  destruct (addElement fuel _ e); try discriminate.
  apply IH. destruct (slot q nw ne sw se); discriminate.
Qed.

Lemma quadtree_loop_beyond_corner fuel : forall elements i root r,
  node_rectangle root = Some r -> shaped root -> wellFormed r ->
  Exists (fun e => beyond_corner r (boundingBox e)) elements ->
  quadtree_loop fuel i elements root = StackOverflow.
Proof.
  induction elements as [|e elements IH]; intros i root r Hr Hs Hwf Hex;
    [inversion Hex|].
  cbn [quadtree_loop].
  apply Exists_cons in Hex as [Hb | Hex].
  - rewrite (addElement_beyond_corner fuel root r (mkElement i e (boundingBox e))
               Hr Hs Hwf Hb). reflexivity.
  - destruct (addElement fuel root (mkElement i e (boundingBox e))) as [root1| |] eqn:E;
      try reflexivity.
    + pose proof (addElement_elements _ _ _ _ E) as (_ & Hrect & _).
      apply (IH (S i) root1 r); [congruence | | exact Hwf | exact Hex].
      eapply addElement_shaped; [exact Hs | exact E].
    + exfalso. apply (addElement_no_TypeError fuel root (mkElement i e (boundingBox e)));
        [intros ->; discriminate Hr | exact E].
Qed.

(** X7: [quadtree] does not return when an element lies beyond a corner of
    a well-formed bounding rectangle (apart from it on both axes, as an
    element at a negative position is from the document window): whatever
    the depth of the stack, [addElement] exhausts it. *)
Theorem quadtree_overflows_beyond_corner (fuel : nat) (elements : list JQuery)
    (B : Rectangle) :
  wellFormed B ->
  Exists (fun e => beyond_corner B (boundingBox e)) elements ->
  quadtree fuel elements B = StackOverflow.
Proof.
  intros Hwf Hex. unfold quadtree.
  destruct elements as [|e elements]; [inversion Hex|].
  cbn [length Nat.eqb].
  apply (quadtree_loop_beyond_corner fuel _ 0 (new_Node B) B);
    [reflexivity | | exact Hwf | exact Hex].
  cbn. repeat split; try exact I. intros []; exact I.
Qed.

(** ** What the pruned search finds *)

Lemma js_lt_false_dist_le a b : is_dist b -> js_lt (Num a) b = false -> dist_le b (Num a).
Proof.
  destruct b; cbn; try contradiction; try discriminate.
  intros _ H. apply bool_decide_eq_false_1 in H. lra.
Qed.

Lemma first_least_min {A} (d : A -> R) (l : list A) (e : A) :
  first_least d l e -> e ∈ l /\ forall e', e' ∈ l -> d e <= d e'.
Proof.
  intros (l1 & l2 & -> & H1 & H2). split.
  - rewrite elem_of_app. right. left.
  - intros e' He'. rewrite Forall_forall in H1, H2.
    apply elem_of_app in He' as [He' | He'].
    + left. apply H1, He'.
    + apply elem_of_cons in He' as [-> | He']; [lra | apply H2, He'].
Qed.

Lemma NoDup_ids_consistent (S : list Element) : NoDup (map eid S) -> ids_consistent S.
Proof.
  intros Hnd e1 e2 H1 H2 Hid.
  apply list_elem_of_lookup in H1 as [i1 H1], H2 as [i2 H2].
  assert (i1 = i2).
  { eapply NoDup_lookup; [exact Hnd | |].
    - rewrite list_lookup_fmap, H1. reflexivity.
    - rewrite list_lookup_fmap, H2. cbn. rewrite Hid. reflexivity. }
  subst. congruence.
Qed.

Section low.
Variables x y : R.

Local Abbreviation de e := (dR (elem_rectangle e) x y).

Lemma Post_step S S' b σ r σ' :
  Post x y S S' b σ r σ' -> ids_consistent S -> S' ⊆ S ->
  stable x y S σ b -> is_dist (best_distance σ b) ->
  dist_le (best_distance σ' r) (best_distance σ b) /\
  stable x y S σ' r /\ is_dist (best_distance σ' r).
Proof.
  intros P Hc Hsub Hst Hd.
  destruct (post_mono _ _ _ _ _ _ _ _ P Hc Hsub Hst Hd) as [Hle Hst'].
  split; [exact Hle|]. split; [exact Hst' | exact (dist_le_is_dist _ _ Hle)].
Qed.

(** After the scan of a bucket the best is at most as far as any element
    of the bucket. *)
Lemma scanBucket_low S elements b σ r σ' e :
  scanBucket elements x y (Some b) σ = Returns (Some r, σ') ->
  ids_consistent S -> elements ⊆ S ->
  stable x y S σ b -> is_dist (best_distance σ b) ->
  e ∈ elements -> dist_le (best_distance σ' r) (Num (de e)).
Proof.
  intros H Hc Hsub Hst Hd He. unfold scanBucket in H.
  destruct elements as [|n elements]; [inversion He|].
  cbn [length Nat.ltb Nat.leb] in H. rewrite bind_unfold in H.
  destruct (getMinDistance_spec x y (n :: elements) σ) as (m & Hm & Hfl).
  rewrite Hm in H. destruct m as [e0|]; [|discriminate Hfl].
  apply first_least_min in Hfl as [He0 Hmin].
  set (σ1 := scan (n :: elements) x y σ) in *.
  destruct (scan_lookup x y (n :: elements) σ e0 He0) as (e' & He' & Hid & Hv).
  fold σ1 in Hv.
  assert (Hde : de e' = de e0).
  { rewrite (Hc e' e0); auto. }
  rewrite Hde in Hv.
  pose proof (scan_written_by x y (n :: elements) σ) as Hw. fold σ1 in Hw.
  destruct (stable_frame x y S _ σ σ1 b Hw Hsub Hst) as [Hbd Hst1].
  rewrite bind_unfold in H. cbn [get_elem_distance] in H.
  rewrite bind_unfold in H. cbn [get_distance] in H.
  rewrite (elem_distance_lookup _ _ _ Hv) in H.
  specialize (Hmin e He). cbv beta in Hmin.
  destruct (js_lt (Num (de e0)) (best_distance σ1 b)) eqn:Hlt;
    rewrite ret_unfold in H; injection H as <- <-.
  - cbn [best_distance]. rewrite (elem_distance_lookup _ _ _ Hv). cbn [dist_le]. lra.
  - apply (dist_le_trans _ (Num (de e0))); [|cbn [dist_le]; lra].
    apply js_lt_false_dist_le; [rewrite Hbd; exact Hd | exact Hlt].
Qed.

(** After the visit of a child slot the best is at most as far as an
    element below the child, when the child is the quadrant of the point or
    its region is not nearer than the element. *)
Lemma visitChild_low c q pointQuad b σ r σ' e :
  visitChild c q pointQuad x y (Some b) σ = Returns (Some r, σ') ->
  is_dist (best_distance σ b) ->
  (pointQuad = Some q \/
   match node_rectangle c with
   | Some rc => dR rc x y <= de e
   | None => False
   end) ->
  c <> null ->
  (nearestNeighbor c x y (Some b) σ = Returns (Some r, σ') ->
   dist_le (best_distance σ' r) (Num (de e))) ->
  dist_le (best_distance σ' r) (Num (de e)).
Proof.
  intros H Hd Hq Hn IH. destruct c as [|rc dc ec c1 c2 c3 c4]; [congruence|].
  unfold visitChild in H. rewrite bind_unfold in H.
  case_bool_decide as Hpq.
  - rewrite ret_unfold in H. apply IH, H.
  - rewrite bind_unfold in H. cbn [get_distance] in H. rewrite ret_unfold in H.
    destruct (js_lt (distanceToRectangle rc x y) (best_distance σ b)) eqn:Hlt.
    + apply IH, H.
    + rewrite ret_unfold in H. injection H as <- <-.
      destruct Hq as [Hq | Hq]; [congruence|]. cbn [node_rectangle] in Hq.
      rewrite distanceToRectangle_dR in Hlt.
      apply (dist_le_trans _ (Num (dR rc x y))); [|exact Hq].
      apply js_lt_false_dist_le; assumption.
Qed.

Lemma reach_allElements e n : reach x y e n -> e ∈ allElements n.
Proof.
  induction n as [|r d els nw IHnw ne IHne sw IHsw se IHse]; [intros []|].
  cbn [reach allElements]. rewrite !elem_of_app.
  intros [H | (q & _ & H)]; [auto|]. destruct q; auto 6.
Qed.

(** The search of a subtree returns a best at most as far as any stored
    element it cannot pass by. *)
Lemma nearestNeighbor_low S (n : Node) : forall e b σ r σ',
  reach x y e n ->
  ids_consistent S -> allElements n ⊆ S ->
  stable x y S σ b -> is_dist (best_distance σ b) ->
  nearestNeighbor n x y (Some b) σ = Returns (Some r, σ') ->
  dist_le (best_distance σ' r) (Num (de e)).
Proof.
  induction n as [|rectangle distance elements nw IHnw ne IHne sw IHsw se IHse];
    intros e b σ r σ' Hreach Hc Hsub Hst Hd H; [destruct Hreach|].
  rewrite nearestNeighbor_unfold in H. cbn zeta in H.
  cbn [allElements] in Hsub.
  assert (Hs0 : elements ⊆ S) by (intros a Ha; apply Hsub; rewrite !elem_of_app; auto 6).
  assert (Hs1 : allElements nw ⊆ S) by (intros a Ha; apply Hsub; rewrite !elem_of_app; auto 6).
  assert (Hs2 : allElements ne ⊆ S) by (intros a Ha; apply Hsub; rewrite !elem_of_app; auto 6).
  assert (Hs3 : allElements sw ⊆ S) by (intros a Ha; apply Hsub; rewrite !elem_of_app; auto 6).
  assert (Hs4 : allElements se ⊆ S) by (intros a Ha; apply Hsub; rewrite !elem_of_app; auto 6).
  set (pq := quadWithPoint rectangle x y) in *.
  destruct (scanBucket_post x y S elements b σ) as (b0 & σ0 & E0 & P0).
  rewrite bind_unfold, E0 in H.
  destruct (Post_step _ _ _ _ _ _ P0 Hc Hs0 Hst Hd) as (L0 & St0 & D0).
  destruct (visitChild_post x y S nw NW pq b0 σ0
              (fun Hn => nearestNeighbor_post x y S nw Hn)) as (b1 & σ1 & E1 & P1).
  rewrite bind_unfold, E1 in H.
  destruct (Post_step _ _ _ _ _ _ P1 Hc Hs1 St0 D0) as (L1 & St1 & D1).
  destruct (visitChild_post x y S ne NE pq b1 σ1
              (fun Hn => nearestNeighbor_post x y S ne Hn)) as (b2 & σ2 & E2 & P2).
  rewrite bind_unfold, E2 in H.
  destruct (Post_step _ _ _ _ _ _ P2 Hc Hs2 St1 D1) as (L2 & St2 & D2).
  destruct (visitChild_post x y S sw SW pq b2 σ2
              (fun Hn => nearestNeighbor_post x y S sw Hn)) as (b3 & σ3 & E3 & P3).
  rewrite bind_unfold, E3 in H.
  destruct (Post_step _ _ _ _ _ _ P3 Hc Hs3 St2 D2) as (L3 & St3 & D3).
  destruct (visitChild_post x y S se SE pq b3 σ3
              (fun Hn => nearestNeighbor_post x y S se Hn)) as (b4 & σ4 & E4 & P4).
  rewrite bind_unfold, E4 in H. rewrite ret_unfold in H.
  destruct (Post_step _ _ _ _ _ _ P4 Hc Hs4 St3 D3) as (L4 & St4 & D4).
  injection H as <- <-.
  destruct Hreach as [He | (q & Hq & Hr)].
  - pose proof (scanBucket_low S elements b σ b0 σ0 e E0 Hc Hs0 Hst Hd He) as Hlow.
    eauto using dist_le_trans.
  - destruct q; cbn [slot] in Hq.
    + assert (Hlow : dist_le (best_distance σ1 b1) (Num (de e))).
      { apply (visitChild_low nw NW pq b0 σ0 b1 σ1 e E1 D0 Hq).
        - intros ->; destruct Hr.
        - intros Hrun. apply (IHnw e b0 σ0 b1 σ1 Hr Hc Hs1 St0 D0 Hrun). }
      eauto using dist_le_trans.
    + assert (Hlow : dist_le (best_distance σ2 b2) (Num (de e))).
      { apply (visitChild_low ne NE pq b1 σ1 b2 σ2 e E2 D1 Hq).
        - intros ->; destruct Hr.
        - intros Hrun. apply (IHne e b1 σ1 b2 σ2 Hr Hc Hs2 St1 D1 Hrun). }
      eauto using dist_le_trans.
    + assert (Hlow : dist_le (best_distance σ3 b3) (Num (de e))).
      { apply (visitChild_low sw SW pq b2 σ2 b3 σ3 e E3 D2 Hq).
        - intros ->; destruct Hr.
        - intros Hrun. apply (IHsw e b2 σ2 b3 σ3 Hr Hc Hs3 St2 D2 Hrun). }
      eauto using dist_le_trans.
    + apply (visitChild_low se SE pq b3 σ3 b4 σ4 e E4 D3 Hq).
      * intros ->; destruct Hr.
      * intros Hrun. apply (IHse e b3 σ3 b4 σ4 Hr Hc Hs4 St3 D3 Hrun).
Qed.

(** From no best, the search of a tree whose element objects are distinct
    returns a stored element, with its own distance as [distance], that is
    at most as far as any stored element the search cannot pass by. *)
Lemma nearestNeighbor_finds (n : Node) (σ : Store) :
  n <> null -> allElements n <> [] -> NoDup (map eid (allElements n)) ->
  exists e0 σ',
    nearestNeighbor n x y None σ = Returns (Some (BElem e0), σ') /\
    e0 ∈ allElements n /\
    σ' !! eid e0 = Some (Num (de e0)) /\
    forall e, reach x y e n -> de e0 <= de e.
Proof.
  intros Hn Hne Hnd.
  pose proof (NoDup_ids_consistent _ Hnd) as Hc.
  destruct (nearestNeighbor_post x y (allElements n) n Hn None σ) as (r & σ' & E & P).
  cbn [default from_option] in P.
  destruct (Post_step _ _ _ _ _ _ P Hc ltac:(reflexivity) I I) as (_ & St & _).
  destruct (post_result _ _ _ _ _ _ _ _ P) as [-> | (e0 & -> & He0)].
  { destruct (post_found _ _ _ _ _ _ _ _ P eq_refl Hne). reflexivity. }
  pose proof (St e0 He0 eq_refl) as Hv.
  exists e0, σ'. split; [exact E|]. split; [exact He0|]. split; [exact Hv|].
  intros e Hr.
  assert (E' : nearestNeighbor n x y (Some FreshNode) σ = Returns (Some (BElem e0), σ')).
  { destruct n; [congruence|]. exact E. }
  pose proof (nearestNeighbor_low (allElements n) n e FreshNode σ (BElem e0) σ'
                Hr Hc ltac:(reflexivity) I I E') as Hlow.
  cbn [best_distance] in Hlow. rewrite (elem_distance_lookup _ _ _ Hv) in Hlow.
  exact Hlow.
Qed.

Lemma child_ok_elem r q c e :
  child_ok r q c -> e ∈ allElements c ->
  node_rectangle c = Some (getQuadrant r q) /\
  strictlyInQuadrant r q (elem_rectangle e).
Proof.
  unfold child_ok. intros Hok He.
  destruct c as [|rc dc ec c1 c2 c3 c4]; [inversion He|].
  cbn [node_rectangle] in *. destruct Hok as [-> Hall].
  rewrite Forall_forall in Hall. split; [reflexivity | apply Hall, He].
Qed.

Lemma containment_slot r d els nw ne sw se q :
  containment (mkNode r d els nw ne sw se) -> containment (slot q nw ne sw se).
Proof. intros (_ & _ & H1 & H2 & H3 & H4). destruct q; assumption. Qed.

Lemma reach_slot e r d els nw ne sw se q :
  (quadWithPoint r x y = Some q \/
   match node_rectangle (slot q nw ne sw se) with
   | Some rc => dR rc x y <= de e
   | None => False
   end) ->
  reach x y e (slot q nw ne sw se) ->
  reach x y e (mkNode r d els nw ne sw se).
Proof.
  intros Hq Hr. cbn [reach]. right. exists q. split; [exact Hq|].
  destruct q; exact Hr.
Qed.

(** In a tree that keeps the containment invariant the search cannot pass
    by a stored element whose rectangle holds the query point: the
    element is on the path of the quadrants of the point. *)
Lemma containment_reach_under_point (n : Node) (e : Element) :
  containment n -> e ∈ allElements n -> insideOrOn (elem_rectangle e) x y ->
  reach x y e n.
Proof.
  induction n as [|r d els nw IHnw ne IHne sw IHsw se IHse]; intros Hc He Hin;
    [inversion He|].
  apply allElements_slots in He as [He | (q & He)]; [left; exact He|].
  pose proof Hc as (_ & Hch & _).
  destruct (child_ok_elem r q _ e (Hch q) He) as [_ Hstrict].
  pose proof (containment_slot r d els nw ne sw se q Hc) as Hcq.
  apply (reach_slot e r d els nw ne sw se q).
  - left. apply (fits_quadWithPoint r (elem_rectangle e) q x y); [|exact Hin].
    apply strictly_fits, Hstrict.
  - destruct q; cbn [slot] in *; auto.
Qed.

Lemma off_lines_slot r d els nw ne sw se q :
  off_lines x y (mkNode r d els nw ne sw se) -> off_lines x y (slot q nw ne sw se).
Proof. intros (_ & _ & H1 & H2 & H3 & H4). destruct q; assumption. Qed.

Lemma off_lines_outside r q :
  quadWithPoint r x y <> Some q -> x <> xDiv r -> y <> yDiv r ->
  ~ insideOrOn (getQuadrant r q) x y.
Proof.
  rewrite quadWithPoint_cases. unfold insideOrOn, xDiv, yDiv.
  intros Hq Hx Hy Hin.
  repeat case_bool_decide; destruct q; try congruence;
    cbn [getQuadrant left right top bottom] in Hin; unfold xDiv, yDiv in *; lra.
Qed.

(** In a tree of well-formed elements that keeps the containment
    invariant, the search from a point on no dividing line cannot pass by
    any stored element. *)
Lemma containment_reach_off_lines (n : Node) (e : Element) :
  containment n -> Forall (fun e => wellFormed (elem_rectangle e)) (allElements n) ->
  off_lines x y n -> e ∈ allElements n -> reach x y e n.
Proof.
  induction n as [|r d els nw IHnw ne IHne sw IHsw se IHse]; intros Hc Hwf Hoff He;
    [inversion He|].
  apply allElements_slots in He as [He | (q & He)]; [left; exact He|].
  pose proof Hc as (_ & Hch & _).
  destruct (child_ok_elem r q _ e (Hch q) He) as [Hrq [Hin _]].
  pose proof (containment_slot r d els nw ne sw se q Hc) as Hcq.
  pose proof (off_lines_slot r d els nw ne sw se q Hoff) as Hoq.
  assert (Hwfq : Forall (fun e => wellFormed (elem_rectangle e))
                   (allElements (slot q nw ne sw se))).
  { rewrite Forall_forall in *. intros a Ha. apply Hwf.
    apply allElements_slots. right. exists q. exact Ha. }
  assert (Hwe : wellFormed (elem_rectangle e)).
  { rewrite Forall_forall in Hwfq. apply Hwfq, He. }
  apply (reach_slot e r d els nw ne sw se q).
  - destruct (decide (quadWithPoint r x y = Some q)) as [Hq | Hq]; [left; exact Hq|].
    right. rewrite Hrq. destruct Hoff as (Hx & Hy & _).
    apply region_distance_outside; [| exact Hwe | exact Hin |].
    + unfold wellFormed, within in *. lra.
    + apply off_lines_outside; assumption.
  - destruct q; cbn [slot] in *; auto.
Qed.

End low.

Lemma created_elem_of i elements e :
  e ∈ created i elements ->
  element e ∈ elements /\ elem_rectangle e = boundingBox (element e).
Proof.
  revert i. induction elements as [|j elements IH]; intros i He; [inversion He|].
  cbn [created] in He. apply elem_of_cons in He as [-> | He].
  - split; [left | reflexivity].
  - destruct (IH _ He) as [H1 H2]. split; [right; exact H1 | exact H2].
Qed.

Lemma created_of_elem i elements j :
  j ∈ elements -> exists e, e ∈ created i elements /\ element e = j.
Proof.
  revert i. induction elements as [|k elements IH]; intros i Hj; [inversion Hj|].
  apply elem_of_cons in Hj as [-> | Hj].
  - eexists. split; [left | reflexivity].
  - destruct (IH (S i) Hj) as (e & He & Hej). exists e. split; [right; exact He | exact Hej].
Qed.

(** What [quadtree] establishes, for elements inside the bounding
    rectangle. *)
Lemma quadtree_invariants fuel elements B root :
  quadtree fuel elements B = Returns root ->
  Forall (fun e => within B (boundingBox e)) elements ->
  containment root /\ allElements root ≡ₚ created 0 elements /\
  (elements <> [] -> root <> null).
Proof.
  intros H Hall. split; [|split].
  - unfold quadtree in H.
    destruct (length elements =? 0)%nat; [injection H as <-; exact I|].
    eapply (quadtree_loop_containment fuel elements 0 (new_Node B) root B);
      [reflexivity | exact Hall | apply containment_new_Node | exact H].
  - apply (quadtree_perm _ _ _ _ H).
  - intros Hne. unfold quadtree in H. destruct elements as [|e elements]; [congruence|].
    cbn [length Nat.eqb] in H.
    apply (quadtree_loop_elements fuel _ 0 (new_Node B) root ltac:(discriminate) H).
Qed.

(** X8: the search cannot pass by an element under the query point: on the
    tree [quadtree] returns for elements inside the bounding rectangle, if
    the point is in or on the bounding box of a member of the input, the
    search returns a stored element at most as far from the point as that
    member, in the distance of the code. *)
Theorem tree_search_under_point (fuel : nat) (elements : list JQuery) (B : Rectangle)
    (root : Node) (x y : R) (σ : Store) (j : JQuery) :
  quadtree fuel elements B = Returns root ->
  Forall (fun e => within B (boundingBox e)) elements ->
  j ∈ elements -> insideOrOn (boundingBox j) x y ->
  exists e0 σ',
    nearestNeighbor root x y None σ = Returns (Some (BElem e0), σ') /\
    element e0 ∈ elements /\
    dR (elem_rectangle e0) x y <= dR (boundingBox j) x y.
Proof.
  intros H Hall Hj Hin.
  destruct (quadtree_invariants _ _ _ _ H Hall) as (Hc & Hperm & Hn).
  assert (Hne : elements <> []) by (intros ->; inversion Hj).
  destruct (created_of_elem 0 elements j Hj) as (e & He & Hej).
  destruct (created_elem_of _ _ _ He) as [_ Hre]. rewrite Hej in Hre.
  rewrite <- Hperm in He.
  destruct (nearestNeighbor_finds x y root σ (Hn Hne)) as (e0 & σ' & E & He0 & _ & Hlow).
  { intros Hnil. rewrite Hnil in He. inversion He. }
  { rewrite Hperm, created_eid. apply NoDup_seq. }
  exists e0, σ'. split; [exact E|]. split.
  - rewrite Hperm in He0. apply (created_elem_of _ _ _ He0).
  - rewrite <- Hre. apply Hlow. apply containment_reach_under_point; [exact Hc | exact He|].
    rewrite Hre. exact Hin.
Qed.

(** X9: off the dividing lines the tree search is exact: on the tree
    [quadtree] returns for a non-empty list of well-formed elements inside
    the bounding rectangle, from a point on no dividing line of the tree,
    the search returns a stored element of least distance, and that
    distance is the distance of the element [fullScan] returns. *)
Theorem tree_search_exact_off_lines (fuel : nat) (elements : list JQuery)
    (B : Rectangle) (root : Node) (x y : R) (σ : Store) :
  quadtree fuel elements B = Returns root ->
  elements <> [] ->
  Forall (fun e => within B (boundingBox e)) elements ->
  Forall (fun e => wellFormed (boundingBox e)) elements ->
  off_lines x y root ->
  exists e0 j σ',
    nearestNeighbor root x y None σ = Returns (Some (BElem e0), σ') /\
    element e0 ∈ elements /\
    fullScan elements x y = Some j /\
    dR (elem_rectangle e0) x y = dR (boundingBox j) x y /\
    forall k, k ∈ elements -> dR (elem_rectangle e0) x y <= dR (boundingBox k) x y.
Proof.
  intros H Hne Hall Hwf Hoff.
  destruct (quadtree_invariants _ _ _ _ H Hall) as (Hc & Hperm & Hn).
  assert (Hwfe : Forall (fun e => wellFormed (elem_rectangle e)) (allElements root)).
  { rewrite Hperm. apply Forall_forall. intros e He.
    destruct (created_elem_of _ _ _ He) as [Hel ->].
    apply (proj1 (Forall_forall _ _) Hwf), Hel. }
  destruct (nearestNeighbor_finds x y root σ (Hn Hne)) as (e0 & σ' & E & He0 & _ & Hlow).
  { intros Hnil. rewrite Hnil in Hperm. symmetry in Hperm.
    apply Permutation_nil_r in Hperm. destruct elements; [congruence | discriminate]. }
  { rewrite Hperm, created_eid. apply NoDup_seq. }
  assert (Hmin : forall k, k ∈ elements ->
            dR (elem_rectangle e0) x y <= dR (boundingBox k) x y).
  { intros k Hk. destruct (created_of_elem 0 elements k Hk) as (e & He & Hek).
    destruct (created_elem_of _ _ _ He) as [_ Hre]. rewrite Hek in Hre.
    rewrite <- Hperm in He. rewrite <- Hre.
    apply Hlow, containment_reach_off_lines; assumption. }
  pose proof He0 as He0'. rewrite Hperm in He0'.
  destruct (created_elem_of _ _ _ He0') as [Hel0 Hr0].
  pose proof (fullScan_spec x y elements) as Hfs.
  destruct (fullScan elements x y) as [j|]; [|congruence].
  apply first_least_min in Hfs as [Hj Hjmin].
  exists e0, j, σ'. split; [exact E|]. split; [exact Hel0|]. split; [reflexivity|].
  split; [|exact Hmin].
  apply Rle_antisym; [apply Hmin, Hj|].
  rewrite Hr0. apply Hjmin, Hel0.
Qed.

(** ** The search as an accumulator *)

Lemma getMinDistance_loop_pure nodes x y : forall min best σ,
  getMinDistance_loop nodes x y min best σ
  = Returns (minLoop nodes x y min best, scan nodes x y σ).
Proof.
  induction nodes as [|n nodes IH]; intros min best σ; [reflexivity|].
  cbn [getMinDistance_loop minLoop]. rewrite bind_unfold, scan_cons.
  unfold set_distance at 1. destruct (js_lt _ min); apply IH.
Qed.

Lemma minLoop_elem nodes x y : forall min best e,
  minLoop nodes x y min best = Some e -> best = Some e \/ e ∈ nodes.
Proof.
  induction nodes as [|n nodes IH]; intros min best e H; [left; exact H|].
  cbn [minLoop] in H. destruct (js_lt _ min).
  - apply IH in H as [[= ->] | H]; right; [left | right; exact H].
  - apply IH in H as [H | H]; [left; exact H | right; right; exact H].
Qed.

Section pure.
Variables x y : R.

Local Abbreviation de e := (dR (elem_rectangle e) x y).

Lemma scanBucket_pure S elements b σ r σ' :
  scanBucket elements x y (Some b) σ = Returns (Some r, σ') ->
  ids_consistent S -> elements ⊆ S -> stable x y S σ b ->
  pure_scan elements x y (b, best_distance σ b) = (r, best_distance σ' r).
Proof.
  intros H Hc Hsub Hst. unfold scanBucket, pure_scan in *.
  destruct elements as [|n elements].
  { cbn in H. injection H as <- <-. reflexivity. }
  cbn [length Nat.ltb Nat.leb] in H. rewrite bind_unfold in H.
  unfold getMinDistance in H. rewrite getMinDistance_loop_pure in H.
  set (σ1 := scan (n :: elements) x y σ) in *.
  pose proof (scan_written_by x y (n :: elements) σ) as Hw. fold σ1 in Hw.
  destruct (stable_frame x y S _ σ σ1 b Hw Hsub Hst) as [Hbd Hst1].
  destruct (minLoop (n :: elements) x y PosInf None) as [e0|] eqn:Hm.
  2: { rewrite bind_unfold in H. discriminate H. }
  apply minLoop_elem in Hm as [Hm | He0]; [discriminate Hm|].
  destruct (scan_lookup x y (n :: elements) σ e0 He0) as (e' & He' & Hid & Hv).
  fold σ1 in Hv.
  rewrite (Hc e' e0) in Hv by auto.
  rewrite bind_unfold in H. cbn [get_elem_distance] in H.
  rewrite bind_unfold in H. cbn [get_distance] in H.
  rewrite (elem_distance_lookup _ _ _ Hv) in H.
  cbn [snd]. rewrite distanceToRectangle_dR, <- Hbd.
  destruct (js_lt (Num (de e0)) (best_distance σ1 b));
    rewrite ret_unfold in H; injection H as <- <-.
  - cbn [best_distance]. rewrite (elem_distance_lookup _ _ _ Hv). reflexivity.
  - reflexivity.
Qed.

Lemma visitChild_pure c q pointQuad b σ r σ' :
  visitChild c q pointQuad x y (Some b) σ = Returns (Some r, σ') ->
  (nearestNeighbor c x y (Some b) σ = Returns (Some r, σ') ->
   pure_search c x y (b, best_distance σ b) = (r, best_distance σ' r)) ->
  pure_visit (pure_search c x y) c q pointQuad x y (b, best_distance σ b)
  = (r, best_distance σ' r).
Proof.
  intros H IH. unfold pure_visit. destruct c as [|rc dc ec c1 c2 c3 c4].
  { cbn in H. injection H as <- <-. reflexivity. }
  cbn [node_rectangle snd]. unfold visitChild in H. rewrite bind_unfold in H.
  case_bool_decide as Hpq; cbn [orb].
  - rewrite ret_unfold in H. apply IH, H.
  - rewrite bind_unfold in H. cbn [get_distance] in H. rewrite ret_unfold in H.
    destruct (js_lt (distanceToRectangle rc x y) (best_distance σ b)).
    + apply IH, H.
    + rewrite ret_unfold in H. injection H as <- <-. reflexivity.
Qed.

(** On a tree whose element objects are consistent, from a best that no
    scan can change, the search returns the best that [pure_search]
    computes, with the same distance. *)
Lemma nearestNeighbor_pure S (n : Node) : forall b σ r σ',
  ids_consistent S -> allElements n ⊆ S ->
  stable x y S σ b -> is_dist (best_distance σ b) ->
  nearestNeighbor n x y (Some b) σ = Returns (Some r, σ') ->
  pure_search n x y (b, best_distance σ b) = (r, best_distance σ' r).
Proof.
  induction n as [|rectangle distance elements nw IHnw ne IHne sw IHsw se IHse];
    intros b σ r σ' Hc Hsub Hst Hd H; [discriminate H|].
  rewrite nearestNeighbor_unfold in H. cbn zeta in H.
  cbn [allElements] in Hsub.
  assert (Hs0 : elements ⊆ S) by (intros a Ha; apply Hsub; rewrite !elem_of_app; auto 6).
  assert (Hs1 : allElements nw ⊆ S) by (intros a Ha; apply Hsub; rewrite !elem_of_app; auto 6).
  assert (Hs2 : allElements ne ⊆ S) by (intros a Ha; apply Hsub; rewrite !elem_of_app; auto 6).
  assert (Hs3 : allElements sw ⊆ S) by (intros a Ha; apply Hsub; rewrite !elem_of_app; auto 6).
  assert (Hs4 : allElements se ⊆ S) by (intros a Ha; apply Hsub; rewrite !elem_of_app; auto 6).
  cbn [pure_search]. cbv zeta.
  set (pq := quadWithPoint rectangle x y) in *.
  destruct (scanBucket_post x y S elements b σ) as (b0 & σ0 & E0 & P0).
  rewrite bind_unfold, E0 in H.
  destruct (Post_step x y _ _ _ _ _ _ P0 Hc Hs0 Hst Hd) as (_ & St0 & D0).
  rewrite (scanBucket_pure S elements b σ b0 σ0 E0 Hc Hs0 Hst).
  destruct (visitChild_post x y S nw NW pq b0 σ0
              (fun Hn => nearestNeighbor_post x y S nw Hn)) as (b1 & σ1 & E1 & P1).
  rewrite bind_unfold, E1 in H.
  destruct (Post_step x y _ _ _ _ _ _ P1 Hc Hs1 St0 D0) as (_ & St1 & D1).
  rewrite (visitChild_pure nw NW pq b0 σ0 b1 σ1 E1 (IHnw b0 σ0 b1 σ1 Hc Hs1 St0 D0)).
  destruct (visitChild_post x y S ne NE pq b1 σ1
              (fun Hn => nearestNeighbor_post x y S ne Hn)) as (b2 & σ2 & E2 & P2).
  rewrite bind_unfold, E2 in H.
  destruct (Post_step x y _ _ _ _ _ _ P2 Hc Hs2 St1 D1) as (_ & St2 & D2).
  rewrite (visitChild_pure ne NE pq b1 σ1 b2 σ2 E2 (IHne b1 σ1 b2 σ2 Hc Hs2 St1 D1)).
  destruct (visitChild_post x y S sw SW pq b2 σ2
              (fun Hn => nearestNeighbor_post x y S sw Hn)) as (b3 & σ3 & E3 & P3).
  rewrite bind_unfold, E3 in H.
  destruct (Post_step x y _ _ _ _ _ _ P3 Hc Hs3 St2 D2) as (_ & St3 & D3).
  rewrite (visitChild_pure sw SW pq b2 σ2 b3 σ3 E3 (IHsw b2 σ2 b3 σ3 Hc Hs3 St2 D2)).
  destruct (visitChild_post x y S se SE pq b3 σ3
              (fun Hn => nearestNeighbor_post x y S se Hn)) as (b4 & σ4 & E4 & P4).
  rewrite bind_unfold, E4 in H. rewrite ret_unfold in H.
  injection H as <- <-.
  apply (visitChild_pure se SE pq b3 σ3 b4 σ4 E4 (IHse b3 σ3 b4 σ4 Hc Hs4 St3 D3)).
Qed.

End pure.

(** X10: a query does not see what earlier queries wrote: on a present
    tree whose element objects are distinct, the search from no best
    returns the best that the accumulator-passing [pure_search] computes
    from a best at distance infinity, whatever [distance] properties the
    store holds on entry; so two searches of the tree from the same point
    return the same element. *)
Theorem search_ignores_stale_distances (n : Node) (x y : R) (σ1 σ2 : Store) :
  n <> null -> NoDup (map eid (allElements n)) ->
  exists r σ1' σ2',
    nearestNeighbor n x y None σ1 = Returns (Some r, σ1') /\
    nearestNeighbor n x y None σ2 = Returns (Some r, σ2') /\
    r = fst (pure_search n x y (FreshNode, PosInf)).
Proof.
  intros Hn Hnd. pose proof (NoDup_ids_consistent _ Hnd) as Hc.
  destruct (nearestNeighbor_post x y [] n Hn None σ1) as (r1 & σ1' & E1 & _).
  destruct (nearestNeighbor_post x y [] n Hn None σ2) as (r2 & σ2' & E2 & _).
  assert (F : forall σ r σ', nearestNeighbor n x y None σ = Returns (Some r, σ') ->
            r = fst (pure_search n x y (FreshNode, PosInf))).
  { intros σ r σ' E.
    assert (E' : nearestNeighbor n x y (Some FreshNode) σ = Returns (Some r, σ')).
    { destruct n; [congruence | exact E]. }
    pose proof (nearestNeighbor_pure x y (allElements n) n FreshNode σ r σ'
                  Hc ltac:(reflexivity) I I E') as Hp.
    cbn [best_distance] in Hp. rewrite Hp. reflexivity. }
  exists r1, σ1', σ2'. split; [exact E1|].
  rewrite (F _ _ _ E1), <- (F _ _ _ E2). split; [exact E2 | reflexivity].
Qed.

(** ** The entry points *)

Lemma find_cached fuel this dw dh root x y σ :
  root <> null ->
  find fuel this dw dh root x y σ =
  match nearestNeighbor root x y None σ with
  | Returns (node, σ') =>
    Returns (match node with
             | Some (BElem e) => found (element e)
             | Some FreshNode => found_undefined
             | None => found_null
             end, root, σ')
  | TypeError => TypeError
  | StackOverflow => StackOverflow
  end.
Proof.
  intros Hn. destruct root; [congruence|]. unfold find.
  rewrite bind_unfold, ret_unfold, bind_unfold.
  generalize (nearestNeighbor (mkNode rectangle distance elements root1 root2 root3 root4)
                x y None σ).
  intros [[node σ']| |]; reflexivity.
Qed.

Lemma find_fresh fuel this dw dh x y σ :
  find fuel this dw dh null x y σ =
  match buildTree fuel this dw dh with
  | Returns root =>
    match nearestNeighbor root x y None ∅ with
    | Returns (node, σ') =>
      Returns (match node with
               | Some (BElem e) => found (element e)
               | Some FreshNode => found_undefined
               | None => found_null
               end, root, σ')
    | TypeError => TypeError
    | StackOverflow => StackOverflow
    end
  | TypeError => TypeError
  | StackOverflow => StackOverflow
  end.
Proof.
  unfold find. rewrite !bind_unfold. unfold lift.
  destruct (buildTree fuel this dw dh) as [root| |]; [|reflexivity|reflexivity].
  unfold new_objects. rewrite bind_unfold, ret_unfold, bind_unfold.
  generalize (nearestNeighbor root x y None ∅).
  intros [[node σ']| |]; reflexivity.
Qed.

(** The search of a tree [quadtree] has returned gives a payload of the
    input, or [null] when there is no tree; never [undefined]. *)
Lemma search_result_member fuel elements B root x y σ :
  quadtree fuel elements B = Returns root ->
  exists node σ',
    nearestNeighbor root x y None σ = Returns (node, σ') /\
    match node with
    | Some (BElem e) => element e ∈ elements
    | Some FreshNode => False
    | None => elements = []
    end.
Proof.
  intros H. pose proof (quadtree_perm _ _ _ _ H) as Hperm.
  destruct elements as [|j elements].
  - cbn in H. injection H as <-. exists None, σ. split; reflexivity.
  - unfold quadtree in H. cbn [length Nat.eqb] in H.
    destruct (quadtree_loop_elements fuel _ 0 (new_Node B) root ltac:(discriminate) H)
      as (Hn & Hel).
    assert (Hne : j :: elements <> []) by discriminate.
    specialize (Hel (or_introl Hne)).
    destruct (nearestNeighbor_post x y [] root Hn None σ) as (r & σ' & E & P).
    cbn [default from_option] in P.
    exists (Some r), σ'. split; [exact E|].
    destruct (post_result _ _ _ _ _ _ _ _ P) as [-> | (e & -> & He)].
    + destruct (post_found _ _ _ _ _ _ _ _ P eq_refl Hel). reflexivity.
    + rewrite Hperm in He. apply (created_elem_of _ _ _ He).
Qed.

(** X11: the first [find] of a set builds the tree over the document
    window and keeps it: when it returns, the root it leaves in the data of
    the set is the tree [buildTree] makes, and its result is [null] exactly
    when the set is empty and otherwise a member of the set, never
    [undefined]. *)
Theorem find_builds_and_returns_member (fuel : nat) (this : list JQuery)
    (dw dh x y : R) (σ : Store) (res : Found) (root : Node) (σ' : Store) :
  find fuel this dw dh null x y σ = Returns (res, root, σ') ->
  buildTree fuel this dw dh = Returns root /\
  (res = found_null <-> this = []) /\
  (root = null <-> this = []) /\
  (this <> [] -> exists j, j ∈ this /\ res = found j).
Proof.
  rewrite find_fresh. destruct (buildTree fuel this dw dh) as [root0| |] eqn:Hb;
    try discriminate.
  unfold buildTree in Hb. cbv zeta in Hb.
  destruct (search_result_member _ _ _ _ x y ∅ Hb) as (node & σ0 & E & Hnode).
  rewrite E. intros [= <- <- <-]. split; [reflexivity|].
  assert (Hroot : root0 = null <-> this = []).
  { unfold quadtree in Hb. destruct this as [|j this].
    - cbn in Hb. injection Hb as <-. tauto.
    - cbn [length Nat.eqb] in Hb.
      destruct (quadtree_loop_elements fuel _ 0 (new_Node _) root0 ltac:(discriminate) Hb)
        as (Hn & _).
      split; [congruence | discriminate]. }
  destruct node as [[|e]|].
  - destruct Hnode.
  - split; [split; [discriminate | intros ->; inversion Hnode]|].
    split; [exact Hroot|]. intros _. exists (element e). auto.
  - split; [tauto|]. split; [exact Hroot|]. congruence.
Qed.

(** X12: [find] searches the tree it finds in the data of the set and
    does not look at the set again: with a root in the data, its result and
    the root it leaves are the same for every set, document size and stack
    depth it is called with, so after a first [find] has built the tree of a
    non-empty set, later calls search that tree whatever has become of the
    elements. *)
Theorem find_reuses_tree (fuel fuel' : nat) (this this' : list JQuery)
    (dw dh dw' dh' x y x' y' : R) (σ : Store) (res : Found) (root : Node)
    (σ1 : Store) :
  find fuel this dw dh null x y σ = Returns (res, root, σ1) ->
  this <> [] ->
  exists res' σ2,
    find fuel' this' dw' dh' root x' y' σ1 = Returns (res', root, σ2) /\
    find fuel this dw dh root x' y' σ1 = Returns (res', root, σ2) /\
    exists j, j ∈ this /\ res' = found j.
Proof.
  intros H Hne. rewrite find_fresh in H.
  destruct (buildTree fuel this dw dh) as [root0| |] eqn:Hb; try discriminate.
  unfold buildTree in Hb. cbv zeta in Hb.
  destruct (nearestNeighbor root0 x y None ∅) as [[node σ0]| |]; try discriminate.
  injection H as _ <- _.
  assert (Hn : root0 <> null).
  { unfold quadtree in Hb. destruct this as [|j this]; [congruence|].
    cbn [length Nat.eqb] in Hb.
    apply (quadtree_loop_elements fuel _ 0 (new_Node _) root0 ltac:(discriminate) Hb). }
  destruct (search_result_member _ _ _ _ x' y' σ1 Hb) as (node' & σ2 & E & Hnode).
  rewrite !find_cached by exact Hn. rewrite E.
  destruct node' as [[|e]|]; [destruct Hnode | | congruence].
  eexists _, σ2. split; [reflexivity|]. split; [reflexivity|]. eauto.
Qed.

(** ** The depth of the stack and the order of insertion *)

Lemma addElement_route fuel boundry d elements nw ne sw se e :
  addElement (S fuel) (mkNode boundry d elements nw ne sw se) e =
  match route boundry (elem_rectangle e) with
  | Some q =>
    match addElement fuel (child_or_new boundry q (slot q nw ne sw se)) e with
    | Returns c' => Returns (with_slot q c' boundry d elements nw ne sw se)
    | TypeError => TypeError
    | StackOverflow => StackOverflow
    end
  | None => Returns (mkNode boundry d (elements ++ [e]) nw ne sw se)
  end.
Proof.
  cbn [addElement]. unfold route.
  fold (xDiv boundry). fold (yDiv boundry).
  repeat (case_match; try reflexivity).
Qed.

(** A deeper stack does not change what [addElement] returns. *)
Lemma addElement_more_fuel fuel : forall node e node',
  addElement fuel node e = Returns node' ->
  addElement (S fuel) node e = Returns node'.
Proof.
  induction fuel as [|fuel IH]; intros node e node' H; [discriminate H|].
  destruct node as [|boundry d elements nw ne sw se]; [discriminate H|].
  rewrite addElement_route in H. rewrite addElement_route.
  destruct (route boundry (elem_rectangle e)) as [q|]; [|exact H].
  destruct (addElement fuel (child_or_new boundry q (slot q nw ne sw se)) e)
    as [c'| |] eqn:E; try discriminate H.
  rewrite (IH _ _ _ E). exact H.
Qed.

Lemma addElement_fuel_le fuel fuel' node e node' :
  (fuel <= fuel')%nat -> addElement fuel node e = Returns node' ->
  addElement fuel' node e = Returns node'.
Proof.
  induction 1 as [|fuel' _ IH]; intros H; [exact H|].
  apply addElement_more_fuel, IH, H.
Qed.

Lemma quadtree_loop_fuel_le fuel fuel' : (fuel <= fuel')%nat ->
  forall elements i root root',
  quadtree_loop fuel i elements root = Returns root' ->
  quadtree_loop fuel' i elements root = Returns root'.
Proof.
  intros Hle. induction elements as [|e elements IH]; intros i root root' H;
    [exact H|].
  cbn [quadtree_loop] in *.
  destruct (addElement fuel root (mkElement i e (boundingBox e))) as [root1| |] eqn:E;
    try discriminate H.
  rewrite (addElement_fuel_le _ _ _ _ _ Hle E). apply IH, H.
Qed.

(** X13: [quadtree] returns, given stack enough, for elements that lie in
    the bounding rectangle and have a positive width or height, and the
    tree it returns does not depend on how much deeper the stack is. *)
Theorem quadtree_returns_with_enough_stack (elements : list JQuery) (B : Rectangle) :
  Forall (fun e => within B (boundingBox e) /\
                   (0 < innerWidth e \/ 0 < innerHeight e)) elements ->
  exists fuel root, forall fuel', (fuel <= fuel')%nat ->
    quadtree fuel' elements B = Returns root.
Proof.
  intros Hall. destruct (quadtree_terminates elements B Hall) as [fuel Hfuel].
  destruct (Hfuel fuel (Nat.le_refl _)) as [root Hroot].
  exists fuel, root. intros fuel' Hle. unfold quadtree in *.
  destruct (length elements =? 0)%nat; [exact Hroot|].
  apply (quadtree_loop_fuel_le fuel fuel' Hle), Hroot.
Qed.

Lemma same_tree_refl n : same_tree n n.
Proof.
  induction n as [|r d els nw IHnw ne IHne sw IHsw se IHse]; [exact I|].
  cbn. auto 10.
Qed.

Lemma same_tree_with_slot q c c' boundry d elements nw ne sw se :
  same_tree c c' ->
  same_tree (with_slot q c boundry d elements nw ne sw se)
            (with_slot q c' boundry d elements nw ne sw se).
Proof.
  intros H. destruct q; cbn [with_slot same_tree];
    repeat split; try reflexivity; try apply same_tree_refl; exact H.
Qed.

Lemma child_or_new_present r q c : c <> null -> child_or_new r q c = c.
Proof. destruct c; [congruence | reflexivity]. Qed.

(** X14: the result of inserting two elements does not depend on their
    order: if [addElement] stores [e1] and then [e2], it also stores [e2]
    and then [e1], and the two trees have the same nodes, rectangles and
    children and hold the same elements in each bucket, up to their order
    in the bucket. *)
Theorem addElement_order_independent (fuel : nat) (node : Node) (e1 e2 : Element)
    (n1 n12 : Node) :
  addElement fuel node e1 = Returns n1 ->
  addElement fuel n1 e2 = Returns n12 ->
  exists n2 n21,
    addElement fuel node e2 = Returns n2 /\
    addElement fuel n2 e1 = Returns n21 /\
    same_tree n12 n21.
Proof.
  revert node e1 e2 n1 n12.
  induction fuel as [|fuel IH]; intros node e1 e2 n1 n12 H1 H2; [discriminate H1|].
  destruct node as [|boundry d elements nw ne sw se]; [discriminate H1|].
  rewrite addElement_route in H1.
  destruct (route boundry (elem_rectangle e1)) as [q1|] eqn:R1.
  - destruct (addElement fuel (child_or_new boundry q1 (slot q1 nw ne sw se)) e1)
      as [c1| |] eqn:E1; try discriminate H1.
    injection H1 as <-.
    pose proof (addElement_elements _ _ _ _ E1) as (Hc1 & _ & _).
    assert (Hn1 : exists nw1 ne1 sw1 se1,
               with_slot q1 c1 boundry d elements nw ne sw se
               = mkNode boundry d elements nw1 ne1 sw1 se1 /\
               slot q1 nw1 ne1 sw1 se1 = c1 /\
               forall q, q <> q1 -> slot q nw1 ne1 sw1 se1 = slot q nw ne sw se).
    { destruct q1; cbn [with_slot]; do 4 eexists; (split; [reflexivity|]);
        (split; [reflexivity|]); intros q Hq; destruct q; cbn [slot]; congruence. }
    destruct Hn1 as (nw1 & ne1 & sw1 & se1 & Hn1 & Hs1 & Ho1).
    rewrite Hn1 in H2. rewrite addElement_route in H2. rewrite addElement_route.
    destruct (route boundry (elem_rectangle e2)) as [q2|] eqn:R2.
    + destruct (decide (q2 = q1)) as [-> | Hne].
      * rewrite Hs1, (child_or_new_present _ _ _ Hc1) in H2.
        destruct (addElement fuel c1 e2) as [c12| |] eqn:E12; try discriminate H2.
        injection H2 as <-.
        destruct (IH _ _ _ _ _ E1 E12) as (c2 & c21 & E2 & E21 & Hsame).
        rewrite E2.
        pose proof (addElement_elements _ _ _ _ E2) as (Hc2 & _ & _).
        exists (with_slot q1 c2 boundry d elements nw ne sw se).
        exists (with_slot q1 c21 boundry d elements nw ne sw se).
        split; [reflexivity|]. split.
        -- destruct q1; cbn [with_slot]; rewrite addElement_route, R1; cbn [slot];
             rewrite (child_or_new_present _ _ _ Hc2), E21; reflexivity.
        -- destruct q1; cbn [with_slot] in *; injection Hn1 as <- <- <- <-;
             cbn [with_slot same_tree]; repeat split; try reflexivity;
             try apply same_tree_refl; exact Hsame.
      * rewrite (Ho1 q2 Hne) in H2.
        destruct (addElement fuel (child_or_new boundry q2 (slot q2 nw ne sw se)) e2)
          as [c2| |] eqn:E2; try discriminate H2.
        injection H2 as <-.
        exists (with_slot q2 c2 boundry d elements nw ne sw se).
        eexists. split; [reflexivity|].
        assert (Hgoal : addElement (S fuel) (with_slot q2 c2 boundry d elements nw ne sw se) e1
                  = Returns (with_slot q2 c2 boundry d elements nw1 ne1 sw1 se1)).
        { destruct q1, q2; try congruence; cbn [with_slot] in *;
            injection Hn1 as <- <- <- <-;
            rewrite addElement_route, R1; cbn [slot] in E1 |- *; rewrite E1; reflexivity. }
        split; [exact Hgoal | apply same_tree_refl].
    + injection H2 as <-.
      exists (mkNode boundry d (elements ++ [e2]) nw ne sw se).
      exists (mkNode boundry d ((elements ++ [e2])) nw1 ne1 sw1 se1).
      split; [reflexivity|]. split.
      * rewrite addElement_route, R1, E1.
        destruct q1; cbn [with_slot] in *; injection Hn1 as <- <- <- <-; reflexivity.
      * apply same_tree_refl.
  - injection H1 as <-. rewrite addElement_route in H2. rewrite addElement_route.
    destruct (route boundry (elem_rectangle e2)) as [q2|] eqn:R2.
    + destruct (addElement fuel (child_or_new boundry q2 (slot q2 nw ne sw se)) e2)
        as [c2| |] eqn:E2; try discriminate H2.
      injection H2 as <-.
      exists (with_slot q2 c2 boundry d elements nw ne sw se).
      exists (with_slot q2 c2 boundry d (elements ++ [e1]) nw ne sw se).
      split; [reflexivity|]. split; [|apply same_tree_refl].
      destruct q2; cbn [with_slot]; rewrite addElement_route, R1; reflexivity.
    + injection H2 as <-.
      exists (mkNode boundry d (elements ++ [e2]) nw ne sw se).
      exists (mkNode boundry d ((elements ++ [e2]) ++ [e1]) nw ne sw se).
      split; [reflexivity|]. split; [rewrite addElement_route, R1; reflexivity|].
      cbn [same_tree]. repeat split; try reflexivity; try apply same_tree_refl.
      solve_Permutation.
Qed.

(** ** The distance, where it is right *)

(** X15: outside of a well-formed rectangle [distanceToRectangle] is
    right: its value is positive and is the distance to the nearest point
    of the rectangle, which no point of the rectangle is closer than; and
    it returns 0 only for a point in or on the rectangle. *)
Theorem distanceToRectangle_exact_outside (rect : Rectangle) (x y : R) :
  wellFormed rect ->
  (~ insideOrOn rect x y ->
   let p := nearestPoint rect x y in
   insideOrOn rect (fst p) (snd p) /\
   distanceToRectangle rect x y = Num (pythagoreanDistance x y (fst p) (snd p)) /\
   0 < pythagoreanDistance x y (fst p) (snd p) /\
   forall qx qy, insideOrOn rect qx qy ->
     pythagoreanDistance x y (fst p) (snd p) <= pythagoreanDistance x y qx qy) /\
  (distanceToRectangle rect x y = Num 0 -> insideOrOn rect x y).
Proof.
  intros Hwf. split.
  - intros Hout. exact (distanceToRectangle_outside rect x y Hwf Hout).
  - intros H0. exact (distanceToRectangle_zero rect x y Hwf H0).
Qed.

(** X16: pruning is sound for a point outside of the region of the child:
    in a tree that keeps the containment invariant, the distance of the
    region of a child is at most the distance of every well-formed element
    stored below the child, so a best that the distance of the region is
    not less than is at most as far as that element. *)
Theorem pruning_sound_outside_region (r : Rectangle) (d : jsnum)
    (elements : list Element) (nw ne sw se : Node) (q : Quadrant) (rc : Rectangle)
    (e : Element) (x y : R) :
  containment (mkNode r d elements nw ne sw se) ->
  node_rectangle (slot q nw ne sw se) = Some rc ->
  e ∈ allElements (slot q nw ne sw se) ->
  wellFormed (elem_rectangle e) ->
  ~ insideOrOn rc x y ->
  dR rc x y <= dR (elem_rectangle e) x y /\
  forall bd, is_dist bd -> js_lt (distanceToRectangle rc x y) bd = false ->
    dist_le bd (distanceToRectangle (elem_rectangle e) x y).
Proof.
  intros (_ & Hch & _) Hrc He Hwf Hout.
  destruct (child_ok_elem r q _ e (Hch q) He) as [Hrq [Hin _]].
  rewrite Hrc in Hrq. injection Hrq as ->.
  assert (Hle : dR (getQuadrant r q) x y <= dR (elem_rectangle e) x y).
  { apply region_distance_outside; [| exact Hwf | exact Hin | exact Hout].
    unfold wellFormed, within in *. lra. }
  split; [exact Hle|]. intros bd Hd Hlt.
  rewrite distanceToRectangle_dR in Hlt. rewrite distanceToRectangle_dR.
  apply (dist_le_trans _ (Num (dR (getQuadrant r q) x y))); [|exact Hle].
  apply js_lt_false_dist_le; assumption.
Qed.

(** ** The added properties on the example pages *)

Lemma wellFormed_page : wellFormed page.
Proof. unfold wellFormed, page; cbn [top left bottom right]; lra. Qed.

Lemma addElement_A : addElement 2 (new_Node page) elemA = Returns treeA.
Proof. unfold treeA, elemA, linkA, page. build. reflexivity. Qed.

Lemma addElement_AB : addElement 2 treeA elemB = Returns treeAB.
Proof. unfold treeA, treeAB, elemA, elemB, linkA, linkB, page. build. reflexivity. Qed.

Lemma inside_A : insideOrOn (elem_rectangle elemA) 20 25.
Proof.
  unfold insideOrOn.
  cbn [elemA linkA elem_rectangle boundingBox position_left position_top
       innerWidth innerHeight top left bottom right]. lra.
Qed.

Lemma containment_AB : containment treeAB.
Proof.
  apply (quadtree_loop_containment 2 [linkA; linkB] 0 (new_Node page) treeAB page);
    [reflexivity | exact within_page_AB | apply containment_new_Node |].
  exact quadtree_AB.
Qed.

Lemma off_lines_AB : off_lines 5 5 treeAB.
Proof.
  unfold treeAB. cbn [off_lines]. unfold xDiv, yDiv.
  cbn [page getQuadrant top left bottom right]. repeat split; try exact I; lra.
Qed.

Lemma NoDup_AB : NoDup (map eid (allElements treeAB)).
Proof.
  cbn. repeat constructor; rewrite ?elem_of_cons, ?elem_of_nil;
    cbn; intros H; repeat destruct H as [H | H]; try discriminate; exact H.
Qed.

Lemma find_AB :
  find 2 [linkA; linkB] 100 100 null 50 25 ∅
  = Returns (found linkA, treeAB, <[eid elemA := Num 10]> ∅).
Proof.
  rewrite find_fresh. unfold buildTree. cbv zeta.
  change (documentWindow 100 100) with page.
  rewrite quadtree_AB, search_AB. reflexivity.
Qed.

Lemma getQuadrant_tiles_witness :
  wellFormed page /\
  forall x y, insideOrOn page x y <-> exists q, insideOrOn (getQuadrant page q) x y.
Proof.
  split; [exact wellFormed_page|].
  exact (proj1 (proj2 (getQuadrant_tiles page wellFormed_page))).
Defined.

Lemma addElement_agrees_with_quadWithPoint_witness :
  exists r q,
    node_rectangle (new_Node page) = Some r /\ quadWithPoint r 20 25 = Some q /\
    (elemA ∈ bucket treeA \/ elemA ∈ allElements (child q treeA)).
Proof.
  exact (addElement_agrees_with_quadWithPoint 2 (new_Node page) elemA treeA 20 25
           addElement_A inside_A).
Defined.

Lemma quadtree_stores_input_witness :
  map element (allElements treeAB) ≡ₚ [linkA; linkB] /\
  Forall (fun e => elem_rectangle e = boundingBox (element e)) (allElements treeAB) /\
  NoDup (map eid (allElements treeAB)).
Proof. exact (quadtree_stores_input 2 [linkA; linkB] page treeAB quadtree_AB). Defined.

Lemma quadtree_populated_witness : populated treeAB.
Proof. exact (quadtree_populated 2 [linkA; linkB] page treeAB quadtree_AB). Defined.

Lemma beyond_corner_linkOff : beyond_corner page (boundingBox linkOff).
Proof.
  unfold beyond_corner.
  cbn [page linkOff boundingBox position_left position_top innerWidth innerHeight
       top left bottom right]. lra.
Qed.

Lemma quadtree_overflows_beyond_corner_witness :
  quadtree 1000 [linkA; linkOff; linkB] page = StackOverflow.
Proof.
  apply (quadtree_overflows_beyond_corner 1000 [linkA; linkOff; linkB] page
           wellFormed_page).
  right. left. exact beyond_corner_linkOff.
Defined.

Lemma tree_search_under_point_witness :
  exists e0 σ',
    nearestNeighbor treeAB 20 25 None ∅ = Returns (Some (BElem e0), σ') /\
    element e0 ∈ [linkA; linkB] /\
    dR (elem_rectangle e0) 20 25 <= dR (boundingBox linkA) 20 25.
Proof.
  apply (tree_search_under_point 2 [linkA; linkB] page treeAB 20 25 ∅ linkA
           quadtree_AB within_page_AB).
  - left.
  - exact inside_A.
Defined.

Lemma tree_search_exact_off_lines_witness :
  exists e0 j σ',
    nearestNeighbor treeAB 5 5 None ∅ = Returns (Some (BElem e0), σ') /\
    element e0 ∈ [linkA; linkB] /\
    fullScan [linkA; linkB] 5 5 = Some j /\
    dR (elem_rectangle e0) 5 5 = dR (boundingBox j) 5 5 /\
    forall k, k ∈ [linkA; linkB] -> dR (elem_rectangle e0) 5 5 <= dR (boundingBox k) 5 5.
Proof.
  apply (tree_search_exact_off_lines 2 [linkA; linkB] page treeAB 5 5 ∅ quadtree_AB).
  - discriminate.
  - exact within_page_AB.
  - exact wellFormed_AB.
  - exact off_lines_AB.
Defined.

Lemma search_ignores_stale_distances_witness :
  exists r σ1' σ2',
    nearestNeighbor treeAB 50 25 None ∅ = Returns (Some r, σ1') /\
    nearestNeighbor treeAB 50 25 None (<[eid elemB := Num 0]> ∅) = Returns (Some r, σ2') /\
    r = fst (pure_search treeAB 50 25 (FreshNode, PosInf)).
Proof.
  apply (search_ignores_stale_distances treeAB 50 25 ∅ (<[eid elemB := Num 0]> ∅)).
  - discriminate.
  - exact NoDup_AB.
Defined.

Lemma find_builds_and_returns_member_witness :
  buildTree 2 [linkA; linkB] 100 100 = Returns treeAB /\
  (found linkA = found_null <-> [linkA; linkB] = []) /\
  (treeAB = null <-> [linkA; linkB] = []) /\
  ([linkA; linkB] <> [] -> exists j, j ∈ [linkA; linkB] /\ found linkA = found j).
Proof.
  exact (find_builds_and_returns_member 2 [linkA; linkB] 100 100 50 25 ∅
           (found linkA) treeAB (<[eid elemA := Num 10]> ∅) find_AB).
Defined.

Lemma find_reuses_tree_witness :
  exists res' σ2,
    find 0 [] 0 0 treeAB 20 25 (<[eid elemA := Num 10]> ∅) = Returns (res', treeAB, σ2) /\
    find 2 [linkA; linkB] 100 100 treeAB 20 25 (<[eid elemA := Num 10]> ∅)
      = Returns (res', treeAB, σ2) /\
    exists j, j ∈ [linkA; linkB] /\ res' = found j.
Proof.
  apply (find_reuses_tree 2 0 [linkA; linkB] [] 100 100 0 0 50 25 20 25 ∅
           (found linkA) treeAB (<[eid elemA := Num 10]> ∅) find_AB).
  discriminate.
Defined.

Lemma positive_AB :
  Forall (fun e => within page (boundingBox e) /\
                   (0 < innerWidth e \/ 0 < innerHeight e)) [linkA; linkB].
Proof.
  repeat constructor;
    cbn [page linkA linkB boundingBox position_left position_top innerWidth
         innerHeight top left bottom right]; lra.
Qed.

Lemma quadtree_returns_with_enough_stack_witness :
  exists fuel root, forall fuel', (fuel <= fuel')%nat ->
    quadtree fuel' [linkA; linkB] page = Returns root.
Proof. exact (quadtree_returns_with_enough_stack [linkA; linkB] page positive_AB). Defined.

Lemma addElement_order_independent_witness :
  exists n2 n21,
    addElement 2 (new_Node page) elemB = Returns n2 /\
    addElement 2 n2 elemA = Returns n21 /\
    same_tree treeAB n21.
Proof.
  exact (addElement_order_independent 2 (new_Node page) elemA elemB treeA treeAB
           addElement_A addElement_AB).
Defined.

Lemma outside_page : ~ insideOrOn page 150 50.
Proof. unfold insideOrOn. cbn [page top left bottom right]. lra. Qed.

Lemma distanceToRectangle_exact_outside_witness :
  distanceToRectangle page 150 50
  = Num (pythagoreanDistance 150 50 (fst (nearestPoint page 150 50))
                                    (snd (nearestPoint page 150 50))) /\
  0 < pythagoreanDistance 150 50 (fst (nearestPoint page 150 50))
                                 (snd (nearestPoint page 150 50)).
Proof.
  pose proof (proj1 (distanceToRectangle_exact_outside page 150 50 wellFormed_page)
                outside_page) as H.
  cbv zeta in H. split; [exact (proj1 (proj2 H)) | exact (proj1 (proj2 (proj2 H)))].
Defined.

Lemma outside_NE : ~ insideOrOn (getQuadrant page NE) 40 25.
Proof.
  unfold insideOrOn. cbn [page getQuadrant top left bottom right]. lra.
Qed.

Lemma pruning_sound_outside_region_witness :
  dR (getQuadrant page NE) 40 25 <= dR (elem_rectangle elemB) 40 25.
Proof.
  refine (proj1 (pruning_sound_outside_region page PosInf []
            (mkNode (getQuadrant page NW) PosInf [elemA] null null null null)
            (mkNode (getQuadrant page NE) PosInf [elemB] null null null null)
            null null NE (getQuadrant page NE) elemB 40 25
            containment_AB eq_refl _ _ outside_NE)).
  - left.
  - apply (proj1 (Forall_forall _ _) wellFormed_AB linkB). right. left.
Defined.
